(** * Timeline and paging engine of quran-reels-maker

    Shallow embedding of
      - [src/core/text_renderer.py]: [compute_page_boundaries],
        [split_translation_by_pages], [create_accumulating_text_lines]
        (state list, [_get_state_at], [make_frame]);
      - [src/core/video_generator.py]: [get_audio_duration_moviepy] and the
        duration-bounded sequencing part of [generate_reel];
      - [src/core/audio_processor.py]: [get_audio_duration];
    and, in the modules from [TextLayout] to [FileName], of further
    functions of these files and of [src/core/background.py],
    [src/youtube/uploader.py], [src/main.py], [src/database/models.py] and
    [src/config/settings.py], named where they are embedded.

    Conventions.
      - Python [int] is [Z].
      - Python [float] values (seconds) are modelled by exact rationals [Q]:
        comparisons, [min], [max], [+], [-], [*], [/] and the conversion of
        an [int] are the exact ones; infinities and NaN are not modelled.
        Binary64 rounding is modelled in the module [Binary64], for the
        quotient of two ints, the seconds of a count of milliseconds and the
        end of a text state; a statement that depends on the rounding is
        restricted to a range of inputs in which it holds of the rounded
        values as well.
      - A Python [str] is a [string] whose characters are code points below 256.
      - A call that may raise returns [outcome]: [Returns v] or [Raises e].
      - The [word_map] dict is a stdpp [gmap Z string]. *)

From Stdlib Require Import ZArith QArith Qround Qminmax Qpower Lia Lqa List Bool String Ascii Sorted.
From stdpp Require Import gmap strings list fin_maps.

Local Open Scope Z_scope.

(* ===================================================================== *)
(** ** Python runtime helpers *)
(* ===================================================================== *)

Module Py.

(** Exceptions that the modelled code can meet. *)
Inductive exn : Type :=
| ZeroDivisionError
| IndexError
| IOError (msg : string)
| FetchError (msg : string)
| ValueError (msg : string)
| OverflowError.

Inductive outcome (A : Type) : Type :=
| Returns (v : A)
| Raises (e : exn).
Arguments Returns {A} v.
Arguments Raises {A} e.

Definition bind {A B} (m : outcome A) (k : A -> outcome B) : outcome B :=
  match m with
  | Returns v => k v
  | Raises e => Raises e
  end.

(** [try: body  except Exception: handler] *)
Definition try_except {A} (body : outcome A) (handler : exn -> outcome A) : outcome A :=
  match body with
  | Returns v => Returns v
  | Raises e => handler e
  end.

(** Float comparisons, on the rational model. *)
Definition Qltb (x y : Q) : bool := negb (Qle_bool y x).
Definition Qleb (x y : Q) : bool := Qle_bool x y.

(** [min(a, b)] returns [b] only when [b < a]; [max(a, b)] returns [b] only
    when [b > a]. *)
Definition min (a b : Q) : Q := if Qltb b a then b else a.
Definition max (a b : Q) : Q := if Qltb a b then b else a.

(** [ms / 1000.0] *)
Definition ms_to_s (ms : Z) : Q := (inject_Z ms / 1000)%Q.

(** [range(n)] *)
Definition range (n : Z) : list Z := map Z.of_nat (seq 0 (Z.to_nat n)).

(** [math.ceil(a / b)] for ints [a], [b] with [b <> 0]: the ceiling of the
    exact quotient.  The program takes the ceiling of the quotient rounded
    to binary64, as [Binary64.num_pages] below does; the page count
    [max(1, math.ceil(a / b))] is the same for [0 <= a < 2^53] and [1 <= b]
    (lemma [num_pages_exact]), and the partition of the words into pages is
    stated for that range. *)
Definition ceil_div (a b : Z) : Z := Qceiling (inject_Z a / inject_Z b)%Q.

(** [l[k:]] for a list [l] and an int [k]: a negative [k] counts from the
    end. *)
Definition slice_from {A} (l : list A) (k : Z) : list A :=
  if k <? 0 then drop (Z.to_nat (Z.max 0 (Z.of_nat (length l) + k))) l
  else drop (Z.to_nat k) l.

(** [l[lo:hi]] for ints [lo], [hi]. *)
Definition slice {A} (l : list A) (lo hi : Z) : list A :=
  let n := Z.of_nat (length l) in
  let norm k := if k <? 0 then Z.max 0 (n + k) else Z.min k n in
  take (Z.to_nat (norm hi - norm lo)) (drop (Z.to_nat (norm lo)) l).

(** [enumerate(l)] *)
Definition enumerate {A} (l : list A) : list (Z * A) :=
  combine (map Z.of_nat (seq 0 (length l))) l.

(** Characters for which [str.isspace] holds, among code points below 256. *)
Definition is_space (c : ascii) : bool :=
  let n := N_of_ascii c in
  (((9 <=? n) && (n <=? 13)) || ((28 <=? n) && (n <=? 32))
   || (n =? 133) || (n =? 160))%N.

Definition flush (cur : string) : list string :=
  match cur with
  | EmptyString => []
  | _ => [cur]
  end.

(** [s.split()]: split on runs of whitespace; [cur] is the word being read. *)
Fixpoint split_aux (cur : string) (s : string) : list string :=
  match s with
  | EmptyString => flush cur
  | String c s' =>
    if is_space c then flush cur ++ split_aux EmptyString s'
    else split_aux (String.append cur (String c EmptyString)) s'
  end.

Definition split (s : string) : list string := split_aux EmptyString s.

(** [sep.join(l)] *)
Fixpoint join (sep : string) (l : list string) : string :=
  match l with
  | [] => EmptyString
  | [x] => x
  | x :: rest => String.append x (String.append sep (join sep rest))
  end.

(** Truthiness of a [str]. *)
Definition nonempty (s : string) : bool :=
  match s with
  | EmptyString => false
  | _ => true
  end.

(** [round(x)] on a float: nearest integer, ties to the even one. *)
Definition round (x : Q) : Z :=
  let f := Qfloor x in
  let r := (x - inject_Z f)%Q in
  if Qltb r (1 # 2) then f
  else if Qltb (1 # 2) r then f + 1
  else if Z.even f then f else f + 1.

(** A word as [split] produces them: not empty and free of whitespace. *)
Fixpoint no_space (s : string) : bool :=
  match s with
  | EmptyString => true
  | String c s' => negb (is_space c) && no_space s'
  end.

Definition wordlike (s : string) : Prop := nonempty s = true /\ no_space s = true.

End Py.

(* ===================================================================== *)
(** ** Binary64 rounding *)
(* ===================================================================== *)

Module Binary64.
Import Py.

(** [floor(log2 x)] for a positive [x]. *)
Definition ilog2 (x : Q) : Z :=
  let e := Z.log2 (Qnum x) - Z.log2 (Zpos (Qden x)) in
  if Qltb x (2 ^ e) then e - 1 else e.

(** The exponent of the last bit of the 53-bit significand of [x > 0]; for
    the subnormal numbers, below [2^-1022], it stays at [-1074]. *)
Definition ulp_exp (x : Q) : Z := Z.max (-1074) (ilog2 x - 52).

(** The nearest multiple of [2 ^ ulp_exp x], ties to the even one. *)
Definition nearest (x : Q) : Q :=
  let e := ulp_exp x in
  (inject_Z (Py.round (x / 2 ^ e)) * 2 ^ e)%Q.

(** Rounding to binary64, before the check for overflow. *)
Definition fl (x : Q) : Q :=
  match (x ?= 0)%Q with
  | Eq => 0%Q
  | Gt => nearest x
  | Lt => (- nearest (- x))%Q
  end.

(** [a / b] on ints [a], [b]: the quotient, correctly rounded. *)
Definition true_div (a b : Z) : outcome Q :=
  if b =? 0 then Raises ZeroDivisionError
  else
    let q := fl (inject_Z a / inject_Z b) in
    if Qleb (2 ^ 1024) q || Qleb q (- 2 ^ 1024) then Raises OverflowError
    else Returns q.

(** [max(1, math.ceil(word_count / page_size))] *)
Definition num_pages (word_count page_size : Z) : outcome Z :=
  bind (true_div word_count page_size)
    (fun q => Returns (Z.max 1 (Qceiling q))).

(** [ms / 1000.0] for an int below [2^53] in absolute value, which the
    conversion to a float keeps as it is. *)
Definition ms_to_s (ms : Z) : Q := fl (inject_Z ms / 1000).

(** The end of a text state: [end_s] as it is, or [start_s + 0.05] when
    [end_s - start_s < 0.05]. *)
Definition visible_end (start_s end_s : Q) : Q :=
  if Qltb (fl (end_s - start_s)) (fl (1 # 20)) then fl (start_s + fl (1 # 20))
  else end_s.

End Binary64.

Import Py.

(* ===================================================================== *)
(** ** Page boundary computation *)
(* ===================================================================== *)

Module Pages.

(** A timing segment [{'word_index': .., 'start_ms': .., 'end_ms': ..}]. *)
Record segment : Type := mkSegment {
  word_index : Z;
  start_ms : Z;
  end_ms : Z
}.

(** A page dict. *)
Record page : Type := mkPage {
  page_index : Z;
  start_time : Q;
  end_time : Q;
  word_start_idx : Z;
  word_end_idx : Z
}.

(** The inner [for seg in sorted_segments] loop: one step on the pair
    [(start_time, end_time)]. *)
Definition scan_step (w_start w_end : Z) (acc : Q * Q) (seg : segment) : Q * Q :=
  let idx := word_index seg - 1 in
  if (w_start <=? idx) && (idx <=? w_end) then
    (Py.min (fst acc) (ms_to_s (start_ms seg)),
     Py.max (snd acc) (ms_to_s (end_ms seg)))
  else acc.

(** Body of the [for p in range(num_pages)] loop. *)
Definition page_at (sorted_segments : list segment) (word_count : Z)
    (total_duration : Q) (page_size num_pages p : Z) : page :=
  let w_start := p * page_size in
  let w_end := Z.min ((p + 1) * page_size - 1) (word_count - 1) in
  let times := fold_left (scan_step w_start w_end) sorted_segments
                 (total_duration, 0%Q) in
  let end_time := if p =? num_pages - 1 then total_duration else snd times in
  let start_time := if p =? 0 then 0%Q else fst times in
  mkPage p start_time end_time w_start w_end.

Definition compute_page_boundaries (sorted_segments : list segment)
    (word_count : Z) (total_duration : Q) (page_size : Z) : outcome (list page) :=
  match sorted_segments with
  | [] => Returns []
  | _ :: _ =>
    if page_size =? 0 then Raises ZeroDivisionError
    else
      let num_pages := Z.max 1 (ceil_div word_count page_size) in
      Returns (map (page_at sorted_segments word_count total_duration
                      page_size num_pages) (range num_pages))
  end.

(** Segments sorted by [start_ms]. *)
Definition sorted_by_start (segs : list segment) : Prop :=
  forall i j a b, (i <= j)%nat -> segs !! i = Some a -> segs !! j = Some b ->
    start_ms a <= start_ms b.

(** The word ranges of [pages] are contiguous from [0], increase with the
    page index, do not overlap and cover exactly [[0, w)]. *)
Definition partitions (pages : list page) (w : Z) : Prop :=
  (forall i pg, pages !! i = Some pg -> page_index pg = Z.of_nat i) /\
  (forall i pg pg', pages !! i = Some pg -> pages !! S i = Some pg' ->
     word_start_idx pg' = word_end_idx pg + 1) /\
  (forall i j a b, (i < j)%nat -> pages !! i = Some a -> pages !! j = Some b ->
     word_end_idx a < word_start_idx b) /\
  (forall k, 0 <= k < w <->
     exists pg, In pg pages /\ word_start_idx pg <= k <= word_end_idx pg).

End Pages.

(* ===================================================================== *)
(** ** Translation splitting *)
(* ===================================================================== *)

Module Translation.
Import Pages.

(** Body of [for i, pb in enumerate(page_boundaries)], on the pair
    [(segments, consumed)]. *)
Definition split_step (words : list string) (n_trans_words n_pages : Z)
    (total_word_count : Z) (st : list string * Z) (ipb : Z * page)
    : list string * Z :=
  let '(segments, consumed) := st in
  let '(i, pb) := ipb in
  let page_arabic_words := word_end_idx pb - word_start_idx pb + 1 in
  let ratio := (inject_Z page_arabic_words / inject_Z (Z.max total_word_count 1))%Q in
  let count := Z.max 1 (Py.round (ratio * inject_Z n_trans_words)%Q) in
  let seg_words :=
    if i =? n_pages - 1 then Py.slice_from words consumed
    else Py.slice words consumed (consumed + count) in
  let seg_text := Py.join " " seg_words in
  (segments ++ [seg_text], consumed + Z.of_nat (length seg_words)).

(** [while len(segments) < n_pages: segments.append("")] *)
Definition fill_trailing (segments : list string) (n_pages : Z) : list string :=
  segments ++ replicate (Z.to_nat (n_pages - Z.of_nat (length segments))) EmptyString.

Definition split_translation_by_pages (translation : string)
    (page_boundaries : list page) (total_word_count : Z) : list string :=
  if negb (Py.nonempty translation) || (length page_boundaries =? 0)%nat then
    replicate (Nat.max 1 (length page_boundaries)) translation
  else
    let words := Py.split translation in
    let n_trans_words := Z.of_nat (length words) in
    let n_pages := Z.of_nat (length page_boundaries) in
    if n_pages <=? 1 then [translation]
    else
      let '(segments, _) :=
        fold_left (split_step words n_trans_words n_pages total_word_count)
          (Py.enumerate page_boundaries) ([], 0) in
      fill_trailing segments n_pages.

(** Loop invariant of the split: the segments are the joined chunks, the
    chunks are the first [m] words in order, and [consumed] is [m]. *)
Definition chunked (words : list string) (st : list string * Z)
    (chunks : list (list string)) : Prop :=
  fst st = map (Py.join " ") chunks /\
  exists m : nat, (m <= length words)%nat /\
    concat chunks = take m words /\ snd st = Z.of_nat m.

End Translation.

(* ===================================================================== *)
(** ** Accumulating text states and the crossfade frame function *)
(* ===================================================================== *)

Module Timeline.
Import Pages.

(** A word dict [{'position': .., 'text': ..}]. *)
Record word : Type := mkWord {
  position : Z;
  text : string
}.

(** A text state [(time_start, time_end, page_index, text_string)]. *)
Record state : Type := mkState {
  st_start : Q;
  st_end : Q;
  st_page : Z;
  st_text : string
}.

(** The fields of [StyleConfig] that the builder reads. *)
Record StyleConfig : Type := mkStyle {
  page_size : Z;
  page_crossfade_duration : Q
}.

Definition DEFAULT_STYLE : StyleConfig := mkStyle 12 (1 # 2).

(** [sorted(segments, key=lambda x: x["start_ms"])]: the stable sort, here by
    insertion from the right. *)
Fixpoint insert_by_start (x : segment) (l : list segment) : list segment :=
  match l with
  | [] => [x]
  | y :: l' =>
    if start_ms x <=? start_ms y then x :: y :: l'
    else y :: insert_by_start x l'
  end.

Definition sorted (segments : list segment) : list segment :=
  foldr insert_by_start [] segments.

(** [{w["position"]: w["text"] for w in words}]: later entries win. *)
Definition make_word_map (words : list word) : gmap Z string :=
  fold_left (fun m w => <[position w := text w]> m) words ∅.

(** The [for i, seg in enumerate(sorted_segments)] loop.  [segs] is the part
    of [sorted_segments] from index [i] on, so that [sorted_segments[i + 1]]
    is the head of the tail and [i < len(sorted_segments) - 1] holds when the
    tail is not empty.  The times are exact rationals; the end of a state as
    binary64 arithmetic gives it is [Binary64.visible_end]. *)
Fixpoint build_states (page_size : Z) (total_duration : Q)
    (word_map : gmap Z string) (segs : list segment)
    (current_words : list string) : outcome (list state) :=
  match segs with
  | [] => Returns []
  | seg :: rest =>
    let word_idx := word_index seg in
    let text := default EmptyString (word_map !! word_idx) in
    if negb (Py.nonempty text) then
      build_states page_size total_duration word_map rest current_words
    else
      let current_words := current_words ++ [text] in
      let current_word_count := Z.of_nat (length current_words) in
      if page_size =? 0 then Raises ZeroDivisionError
      else
        let page_index := (current_word_count - 1) / page_size in
        let page_start_idx := page_index * page_size in
        let active_page_words := Py.slice_from current_words page_start_idx in
        let start_s := ms_to_s (start_ms seg) in
        let end_s :=
          match rest with
          | next :: _ => ms_to_s (start_ms next)
          | [] => total_duration
          end in
        let end_s :=
          if Py.Qltb (end_s - start_s) (1 # 20) then (start_s + (1 # 20))%Q
          else end_s in
        let full_string := Py.join " " active_page_words in
        Py.bind (build_states page_size total_duration word_map rest current_words)
          (fun states => Returns (mkState start_s end_s page_index full_string :: states))
  end.

(** The state list of [create_accumulating_text_lines]. *)
Definition text_states (segments : list segment) (words : list word)
    (total_duration : Q) (style : StyleConfig) : outcome (list state) :=
  build_states (page_size style) total_duration (make_word_map words)
    (sorted segments) [].

(** [page_transitions]: start times of the states whose page differs from
    the page of the state before. *)
Fixpoint page_transitions (states : list state) : list Q :=
  match states with
  | [] => []
  | prev :: rest =>
    match rest with
    | [] => []
    | cur :: _ =>
      if st_page cur =? st_page prev then page_transitions rest
      else st_start cur :: page_transitions rest
    end
  end.

(** [start_s <= t < end_s] *)
Definition in_interval (st : state) (t : Q) : bool :=
  Py.Qleb (st_start st) t && Py.Qltb t (st_end st).

(** An RGBA frame of shape (height, width, 4): the value of each channel of
    each pixel. *)
Definition frame : Type := nat -> nat -> nat -> Z.

Definition empty_frame : frame := fun _ _ _ => 0.

(** [astype(np.uint8)] on a value that lies in [[0, 256)]. *)
Definition to_uint8 (x : Q) : Z := Z.quot (Qnum x) (Zpos (Qden x)).

(** [(out * (1 - blend) + in * blend).astype(np.uint8)], channel by channel. *)
Definition alpha_blend (out_frame in_frame : frame) (blend : Q) : frame :=
  fun y x c =>
    to_uint8 (inject_Z (out_frame y x c) * (1 - blend)
              + inject_Z (in_frame y x c) * blend)%Q.

(** [a[:, :, :3]]: the same values, read at the channels 0, 1 and 2. *)
Definition rgb (a : frame) : frame := fun y x c => a y x c.

Section Frames.

(** The text rasterizer followed by [_make_centered_frame]; every state text
    is rendered before the frame function is built, so [rendered_frames[s]]
    is [render_text s]. *)
Variable render_text : string -> frame.
Variable states : list state.
Variable crossfade_dur : Q.

(** The [for ... in states: ... break] loop of [_get_state_at]; [None] when
    the loop ends without [break]. *)
Fixpoint first_match (l : list state) (t : Q) : option frame :=
  match l with
  | [] => None
  | st :: rest =>
    if in_interval st t then Some (render_text (st_text st))
    else first_match rest t
  end.

Definition _get_state_at (t : Q) : frame :=
  match first_match states t with
  | Some result => result
  | None =>
    match last states with
    | Some st =>
      if Py.Qleb (st_start st) t then render_text (st_text st) else empty_frame
    | None => empty_frame
    end
  end.

(** The loop that looks up the outgoing and the incoming frame: no [break],
    the last matching state wins. *)
Definition out_in_step (trans_t : Q) (acc : frame * frame) (st : state)
    : frame * frame :=
  let out_frame :=
    if in_interval st (trans_t - (1 # 100))%Q then render_text (st_text st)
    else fst acc in
  let in_frame :=
    if in_interval st (trans_t + (1 # 100))%Q then render_text (st_text st)
    else snd acc in
  (out_frame, in_frame).

(** [trans_t - crossfade_dur / 2 <= t <= trans_t + crossfade_dur / 2] *)
Definition in_window (trans_t t : Q) : bool :=
  Py.Qleb (trans_t - crossfade_dur / 2)%Q t
  && Py.Qleb t (trans_t + crossfade_dur / 2)%Q.

(** The blend factor of the transition at [trans_t], before clamping and
    after. *)
Definition raw_blend (trans_t t : Q) : Q :=
  ((t - (trans_t - crossfade_dur / 2)) / crossfade_dur)%Q.

Definition blend_factor (trans_t t : Q) : Q :=
  Py.max 0 (Py.min 1 (raw_blend trans_t t)).

(** The [for trans_t in page_transitions] loop of [make_frame]: the first
    transition whose window holds [t] decides. *)
Fixpoint crossfade (transitions : list Q) (t : Q) (frame_rgba : frame)
    : outcome frame :=
  match transitions with
  | [] => Returns (rgb frame_rgba)
  | trans_t :: rest =>
    if in_window trans_t t then
      let '(out_frame, in_frame) :=
        fold_left (out_in_step trans_t) states (empty_frame, empty_frame) in
      if Qeq_bool crossfade_dur 0 then Raises ZeroDivisionError
      else
        let blend := blend_factor trans_t t in
        Returns (rgb (alpha_blend out_frame in_frame blend))
    else crossfade rest t frame_rgba
  end.

Definition make_frame (t : Q) : outcome frame :=
  let frame_rgba := _get_state_at t in
  crossfade (page_transitions states) t frame_rgba.

End Frames.

(** The texts of the segments that [build_states] turns into states. *)
Definition emitted_texts (word_map : gmap Z string) (segs : list segment)
    : list string :=
  List.filter Py.nonempty
    (map (fun seg => default EmptyString (word_map !! word_index seg)) segs).

(** The order that [sorted] establishes. *)
Definition by_start (a b : segment) : Prop := start_ms a <= start_ms b.

End Timeline.

(* ===================================================================== *)
(** ** Audio duration probes *)
(* ===================================================================== *)

Module Probe.

Section Probes.

(** [with AudioFileClip(str(audio_path)) as clip: clip.duration]: opening
    the file, reading the duration and closing it, which may raise. *)
Variable AudioFileClip_duration : string -> outcome Q.

(** [len(AudioSegment.from_file(str(audio_path)))]: the length in
    milliseconds, which may raise. *)
Variable AudioSegment_len : string -> outcome Z.

(** [src/core/video_generator.py], the probe handed to the fetcher. *)
Definition get_audio_duration_moviepy (audio_path : string) : outcome Q :=
  try_except (AudioFileClip_duration audio_path) (fun _ => Returns 5%Q).

(** [src/core/audio_processor.py] *)
Definition get_audio_duration (audio_path : string) : outcome Q :=
  try_except
    (bind (AudioSegment_len audio_path) (fun n => Returns (ms_to_s n)))
    (fun _ => Returns 5%Q).

End Probes.

End Probe.

(* ===================================================================== *)
(** ** Reel assembly: duration-bounded sequencing of [generate_reel] *)
(* ===================================================================== *)

Module Sequencer.

(** The fields of the dict returned by [fetch_single_ayah] that the
    sequencing reads. *)
Record ayah_data : Type := mkAyah {
  ayah : Z;
  ayah_start_time : Q;
  ayah_end_time : Q;
  audio_duration : Q;
  segment_end : Q
}.

Definition MAX_REEL_DURATION_SECONDS : Z := 59.
Definition MIN_REEL_DURATION_SECONDS : Z := 30.
Definition INTRO_DURATION : Q := 3.

Definition VERSE_COUNTS : gmap Z Z :=
  list_to_map
    (combine (map Z.of_nat (seq 1 114))
       [7; 286; 200; 176; 120; 165; 206; 75; 129; 109;
        123; 111; 43; 52; 99; 128; 111; 110; 98; 135;
        112; 78; 118; 64; 77; 227; 93; 88; 69; 60;
        34; 30; 73; 54; 45; 83; 182; 88; 75; 85;
        54; 53; 89; 59; 37; 35; 38; 29; 18; 45;
        60; 49; 62; 55; 78; 96; 29; 22; 24; 13;
        14; 11; 11; 18; 12; 12; 30; 52; 52; 44;
        28; 28; 20; 56; 40; 31; 50; 40; 46; 42;
        29; 19; 36; 25; 22; 17; 19; 26; 30; 20;
        15; 21; 11; 8; 8; 19; 5; 8; 8; 11;
        11; 8; 3; 9; 5; 4; 7; 3; 6; 3;
        5; 4; 5; 6]).

(** Loop variables of the two fetch loops, and the number of fetches made
    so far. *)
Record progress : Type := mkProgress {
  units : list ayah_data;
  current_time : Q;
  current_ayah : Z;
  total_duration : Q;
  end_ayah : Z;
  calls : nat
}.

(** The state after a fetch whose unit is not appended. *)
Definition after_call (st : progress) : progress :=
  mkProgress (units st) (current_time st) (current_ayah st)
    (total_duration st) (end_ayah st) (S (calls st)).

(** The values that [generate_reel] hands to the rendering steps. *)
Record reel : Type := mkReel {
  reel_units : list ayah_data;
  reel_duration : Q;
  reel_start_ayah : Z;
  reel_end_ayah : Z
}.

Section Reel.

(** [core.ayah_fetcher.fetch_single_ayah], applied to the surah, the ayah,
    [current_time] and the padding (reciter, directory and probe are fixed
    for one run); it may raise.  The call is an effect (network, disk): its
    first argument here is the number of fetches already made in the run, so
    that two calls with the same arguments need not agree. *)
Variable fetch_single_ayah : nat -> Z -> Z -> Q -> Q -> outcome ayah_data.

(** [core.quran_api.validate_verse_range] *)
Variable validate_verse_range : Z -> Z -> Z -> outcome (Z * Z).

(** [os.getenv("ENABLE_INTRO_FRAME", "false").lower() == "true"] *)
Variable ENABLE_INTRO_FRAME : bool.

Variable surah : Z.
Variable ayah_padding : Q.

Definition max_content_duration : Q :=
  (inject_Z MAX_REEL_DURATION_SECONDS
   - (if ENABLE_INTRO_FRAME then INTRO_DURATION else 0))%Q.

(** STEP 1, [while current_ayah <= end_ayah].  [fuel] bounds the number of
    iterations; [None] when it runs out. *)
Fixpoint fetch_requested (fuel : nat) (requested_end : Z) (st : progress)
    : option (outcome progress) :=
  if current_ayah st <=? requested_end then
    match fuel with
    | O => None
    | S fuel' =>
      match fetch_single_ayah (calls st) surah (current_ayah st) (current_time st)
              ayah_padding with
      | Raises e => Some (Raises e)
      | Returns data =>
        let projected_duration := (segment_end data + (1 # 2))%Q in
        if negb (length (units st) =? 0)%nat
           && Py.Qltb max_content_duration projected_duration
        then Some (Returns (after_call st))
        else
          fetch_requested fuel' requested_end
            (mkProgress (units st ++ [data]) (segment_end data)
               (current_ayah st + 1) (total_duration st) (end_ayah st)
               (S (calls st)))
      end
    end
  else Some (Returns st).

(** STEP 2, the extension loop. *)
Fixpoint extend (fuel : nat) (max_ayah : Z) (st : progress)
    : option (outcome progress) :=
  if Py.Qltb (total_duration st) (inject_Z MIN_REEL_DURATION_SECONDS)
     && (current_ayah st <=? max_ayah)
     && Py.Qltb (total_duration st) max_content_duration
  then
    match fuel with
    | O => None
    | S fuel' =>
      match fetch_single_ayah (calls st) surah (current_ayah st) (current_time st)
              ayah_padding with
      | Raises e => Some (Raises e)
      | Returns data =>
        let projected_duration := (segment_end data + (1 # 2))%Q in
        if Py.Qltb max_content_duration projected_duration
        then Some (Returns (after_call st))
        else
          let current_time := segment_end data in
          let current_ayah := current_ayah st + 1 in
          extend fuel' max_ayah
            (mkProgress (units st ++ [data]) current_time current_ayah
               (current_time + (1 # 2))%Q (current_ayah - 1) (S (calls st)))
      end
    end
  else Some (Returns st).

(** The safety net after the loops. *)
Definition hard_cap (total : Q) : Q :=
  if Py.Qltb max_content_duration total then max_content_duration else total.

(** STEPS 1 and 2 on a validated range: the unit list and the duration
    before the cap. *)
Definition assemble (start_ayah requested_end : Z) : option (outcome progress) :=
  let max_ayah := default requested_end (VERSE_COUNTS !! surah) in
  match fetch_requested (Z.to_nat (requested_end + 1 - start_ayah)) requested_end
          (mkProgress [] (1 # 10) start_ayah 0 requested_end 0) with
  | None => None
  | Some (Raises e) => Some (Raises e)
  | Some (Returns st) =>
    match last (units st) with
    | None => Some (Raises IndexError)
    | Some final =>
      extend (Z.to_nat (max_ayah + 1 - current_ayah st)) max_ayah
        (mkProgress (units st) (current_time st) (current_ayah st)
           (current_time st + (1 # 2))%Q (ayah final) (calls st))
    end
  end.

(** [generate_reel] up to the hand-over to the compositor:
    [final_video.set_duration(total_duration)]. *)
Definition generate_reel (start_ayah requested_end : Z) : option (outcome reel) :=
  match validate_verse_range surah start_ayah requested_end with
  | Raises e => Some (Raises e)
  | Returns (start_ayah, requested_end) =>
    match assemble start_ayah requested_end with
    | None => None
    | Some (Raises e) => Some (Raises e)
    | Some (Returns st) =>
      Some (Returns (mkReel (units st) (hard_cap (total_duration st))
                       start_ayah (end_ayah st)))
    end
  end.

End Reel.

(** Every unit but the first ends, with the trailing buffer, within the
    maximum. *)
Definition bounded_tail (max_content : Q) (us : list ayah_data) : Prop :=
  forall (i : nat) d, (0 < i)%nat -> us !! i = Some d ->
    (segment_end d + (1 # 2) <= max_content)%Q.

(** The clock stands at the end of the last unit. *)
Definition clock_at_end (st : progress) : Prop :=
  forall d, last (units st) = Some d -> current_time st = segment_end d.

(** The total stands half a second after the last unit. *)
Definition total_at_end (st : progress) : Prop :=
  exists d, last (units st) = Some d /\
    total_duration st = (segment_end d + (1 # 2))%Q.

End Sequencer.

(* ===================================================================== *)
(** ** Example inputs *)
(* ===================================================================== *)

(** Concrete inputs on which the theorems are exercised. *)
Module Examples.
Import Pages Timeline.

(** Three words, one per page, 100 ms apart. *)
Definition fast_segments : list segment :=
  [mkSegment 1 0 50; mkSegment 2 100 150; mkSegment 3 200 250].

Definition fast_words : list word :=
  [mkWord 1 "a"; mkWord 2 "bb"; mkWord 3 "ccc"].

Definition fast_style : StyleConfig := mkStyle 1 (1 # 2).

Definition fast_states : list state :=
  [mkState (0 # 1000) (100 # 1000) 0 "a";
   mkState (100 # 1000) (200 # 1000) 1 "bb";
   mkState (200 # 1000) 1 2 "ccc"].

(** A rasterizer whose frames are uniform: every channel is 50 times the
    number of characters. *)
Definition flat_render (s : string) : frame :=
  fun _ _ _ => 50 * Z.of_nat (String.length s).

(** The same words on pages of two. *)
Definition paged_style : StyleConfig := mkStyle 2 (1 # 2).

Definition paged_states : list state :=
  [mkState (0 # 1000) (100 # 1000) 0 "a";
   mkState (100 # 1000) (200 # 1000) 0 "a bb";
   mkState (200 # 1000) 1 1 "ccc"].

(** Timings for the first and the last of 27 words. *)
Definition sparse_segments : list segment :=
  [mkSegment 1 0 400; mkSegment 27 12000 12500].

Definition sparse_pages : list page :=
  [mkPage 0 0 (400 # 1000) 0 11; mkPage 1 13 0 12 23;
   mkPage 2 (12000 # 1000) 13 24 26].

Definition two_pages : list page :=
  [mkPage 0 0 5 0 11; mkPage 1 5 13 12 14].

(** A fetcher whose every ayah lasts 20 s, and a validator that accepts the
    range as it is. *)
Definition steady_fetch (_ : nat) (_ ayah : Z) (current_time padding : Q)
    : outcome Sequencer.ayah_data :=
  Returns (Sequencer.mkAyah ayah current_time (current_time + 20)%Q 20
             (current_time + 20 + padding)%Q).

Definition accept_range (_ start_ayah end_ayah : Z) : outcome (Z * Z) :=
  Returns (start_ayah, end_ayah).

End Examples.

(* ===================================================================== *)
(** ** Text layout: wrapping, font choice, placement on the canvas *)
(* ===================================================================== *)

Module TextLayout.

(** ["\n"] *)
Definition newline : string := String (ascii_of_nat 10) EmptyString.

(** [range(start, stop, step)]: [ValueError] for a zero step, the empty
    range when the step points away from [stop]. *)
Definition range3 (start stop step : Z) : outcome (list Z) :=
  if step =? 0 then Raises (ValueError "range() arg 3 must not be zero")
  else
    let n :=
      if 0 <? step then (stop - start + step - 1) / step
      else (start - stop - step - 1) / (- step) in
    Returns (map (fun k => start + Z.of_nat k * step) (seq 0 (Z.to_nat n))).

(** The [lines] list of [wrap_text]. *)
Definition wrap_lines (text : string) (words_per_line : Z) : outcome (list string) :=
  let words := Py.split text in
  bind (range3 0 (Z.of_nat (length words)) words_per_line)
    (fun starts =>
       Returns (map (fun i => Py.join " " (Py.slice words i (i + words_per_line)))
                  starts)).

Definition wrap_text (text : string) (words_per_line : Z) : outcome string :=
  bind (wrap_lines text words_per_line)
    (fun lines => Returns (Py.join newline lines)).

(** The number of lines for [n] words, [k] to a line. *)
Definition line_count (n k : Z) : nat := Z.to_nat ((n + k - 1) / k).

(** The chunks of [k] words that make up the lines. *)
Definition chunks_of (k : nat) (m : nat) (words : list string) : list (list string) :=
  map (fun i => take k (drop (i * k) words)) (seq 0 m).

(** An entry of [FONT_SIZE_CONFIG]. *)
Record font_config : Type := mkFontConfig {
  min_words : Z;
  font_size : Z;
  words_per_line : Z
}.

(** [FONT_SIZE_CONFIG] of [config/settings.py], in insertion order. *)
Definition FONT_SIZE_CONFIG : list (string * font_config) :=
  [("very_long", mkFontConfig 60 36 8);
   ("long", mkFontConfig 40 42 7);
   ("medium_long", mkFontConfig 25 52 6);
   ("medium", mkFontConfig 15 62 5);
   ("short", mkFontConfig 0 72 5)].

(** The [for config in FONT_SIZE_CONFIG.values()] loop of
    [get_font_settings]. *)
Fixpoint first_fit (configs : list font_config) (word_count : Z) : Z * Z :=
  match configs with
  | [] => (35, 6)
  | config :: rest =>
    if min_words config <=? word_count
    then (font_size config, words_per_line config)
    else first_fit rest word_count
  end.

Definition get_font_settings (word_count : Z) : Z * Z :=
  first_fit (map snd FONT_SIZE_CONFIG) word_count.

Section Arabic.

(** [_clean_arabic]: the text without the marks U+06D6 to U+06ED. *)
Variable _clean_arabic : string -> string.

(** The text that [create_text_clip] has rendered: its font size, chosen
    from the words of the text as given, and the wrapped text that
    [render_text] draws, with [is_arabic] set: the wrap of the cleaned
    text. *)
Definition create_text_clip_layout (arabic_text : string) : Z * outcome string :=
  let words := Py.split arabic_text in
  let word_count := Z.of_nat (length words) in
  let '(font_size, words_per_line) := get_font_settings word_count in
  (font_size, wrap_text (_clean_arabic arabic_text) words_per_line).

End Arabic.

(** The text and the words per line that [create_translation_clip] hands to
    [create_pil_text_clip]; [None] for the empty translation. *)
Definition translation_layout (translation_text : string) : option (string * Z) :=
  if negb (Py.nonempty translation_text) then None
  else
    let words := Py.split translation_text in
    let n := Z.of_nat (length words) in
    if 12 <? n then
      let mid := n / 2 in
      Some (String.append (Py.join " " (Py.slice words 0 mid))
              (String.append newline (Py.join " " (Py.slice_from words mid))),
            Z.max 6 mid)
    else Some (translation_text, n).

(** The lines that [render_text] draws for a translation clip. *)
Definition translation_lines (translation_text : string)
    : option (outcome (list string)) :=
  match translation_layout translation_text with
  | None => None
  | Some (text, wpl) => Some (wrap_lines text wpl)
  end.

(** [int(x)] on a float: truncation towards zero. *)
Definition int_of_float (x : Q) : Z := Z.quot (Qnum x) (Zpos (Qden x)).





End TextLayout.

(* ===================================================================== *)
(** ** The accumulating text clip, with its fallbacks *)
(* ===================================================================== *)

Module Accumulating.
Import Pages Timeline TextLayout.

(** What [create_accumulating_text_lines] returns: the paged clip with its
    states, its transitions and the frames rendered for the state texts, the
    static clip of the full text, or [None]. *)
Inductive clip : Type :=
| PagedClip (states : list state) (transitions : list Q)
    (rendered_frames : gmap string frame)
| StaticClip (static_frame : frame)
| NoClip.

(** [rendered_frames[text_str]] in the frame functions; the text of every
    state is a key by then. *)
Definition frame_of (rendered_frames : gmap string frame) (text_str : string)
    : frame :=
  default empty_frame (rendered_frames !! text_str).

(** [VideoClip(make_frame, duration=total_duration)]: the constructor calls
    [make_frame(0)] for the size of the clip.  The mask clip calls
    [make_mask(0)], which takes the branches of [make_frame(0)] and raises
    where it does. *)
Definition video_clip (states : list state)
    (rendered_frames : gmap string frame) (crossfade_dur : Q) : outcome unit :=
  bind (make_frame (frame_of rendered_frames) states crossfade_dur 0)
    (fun _ => Returns tt).

Section Render.

(** [_clean_arabic] *)
Variable _clean_arabic : string -> string.

(** The drawing part of [render_text] (font loading, measuring, PIL
    drawing) on the wrapped text at a font size, and
    [_make_centered_frame] at the size of the video; either may raise. *)
Variable draw : Z -> string -> outcome frame.
Variable _make_centered_frame : frame -> outcome frame.

(** [style.page_font_size] and [style.page_words_per_line] *)
Variables page_font_size page_words_per_line : Z.

(** [PILTextRenderer.render_text]; the cache returns what the call has
    returned before and is left out. *)
Definition render_text (text : string) (font_size words_per_line : Z)
    (is_arabic : bool) : outcome frame :=
  let text := if is_arabic then _clean_arabic text else text in
  bind (wrap_text text words_per_line) (fun wrapped => draw font_size wrapped).

(** [create_text_clip], as far as the frame of the clip; its frame function
    returns that frame at every time. *)
Definition create_text_clip (arabic_text : string) : outcome frame :=
  let words := Py.split arabic_text in
  let word_count := Z.of_nat (length words) in
  let '(font_size, words_per_line) := get_font_settings word_count in
  bind (render_text arabic_text font_size words_per_line true)
    _make_centered_frame.

(** The frame stored for a state text in the pre-render loop. *)
Definition render_page (text_str : string) : outcome frame :=
  bind (render_text text_str page_font_size page_words_per_line true)
    _make_centered_frame.

(** The loop [for _, _, _, text_str in states] that fills
    [rendered_frames]. *)
Fixpoint prerender (states : list state) (rendered_frames : gmap string frame)
    : outcome (gmap string frame) :=
  match states with
  | [] => Returns rendered_frames
  | st :: rest =>
    match rendered_frames !! st_text st with
    | Some _ => prerender rest rendered_frames
    | None =>
      bind (render_page (st_text st))
        (fun rgba => prerender rest (<[st_text st := rgba]> rendered_frames))
    end
  end.

(** The [try] block with the state loop, the pre-render loop and the
    construction of the clip, and the [except] branch with its own [try]. *)
Definition create_accumulating_text_lines (segments : list segment)
    (words : list word) (total_duration : Q) (style : StyleConfig) : clip :=
  let full_text := Py.join " " (map text words) in
  let body :=
    bind (text_states segments words total_duration style)
      (fun states =>
         match states with
         | [] =>
           bind (create_text_clip full_text) (fun c => Returns (StaticClip c))
         | _ =>
           bind (prerender states ∅)
             (fun rendered_frames =>
                bind (video_clip states rendered_frames
                        (page_crossfade_duration style))
                  (fun _ =>
                     Returns (PagedClip states (page_transitions states)
                                rendered_frames)))
         end) in
  match body with
  | Returns c => c
  | Raises _ =>
    match create_text_clip full_text with
    | Returns c => StaticClip c
    | Raises _ => NoClip
    end
  end.

(** The fallback: the static clip of the full text, or [None] when that
    raises as well. *)
Definition fallback (words : list word) : clip :=
  match create_text_clip (Py.join " " (map text words)) with
  | Returns c => StaticClip c
  | Raises _ => NoClip
  end.

End Render.

End Accumulating.

(* ===================================================================== *)
(** ** Shapes of the built lists *)
(* ===================================================================== *)

(** Predicates on the lists that the builders return, used to state what
    the builders keep. *)
Module Shapes.
Import Pages Translation Timeline Sequencer.

(** Once a chunk is empty, every later chunk is empty. *)
Definition tail_empty (chunks : list (list string)) : Prop :=
  forall i j cj, (i < j)%nat -> chunks !! i = Some [] -> chunks !! j = Some cj ->
    cj = [].

(** The invariant of the split, with the place of the empty chunks: if a
    chunk is empty, all the words have been handed out. *)
Definition settled (words : list string) (st : list string * Z)
    (chunks : list (list string)) : Prop :=
  chunked words st chunks /\
  ((exists i, chunks !! i = Some []) -> concat chunks = words) /\
  tail_empty chunks.

(** Order of the states by start time. *)
Definition starts_before (a b : state) : Prop := (st_start a <= st_start b)%Q.

(** Each state lasts until the next one starts, or longer. *)
Fixpoint chained (l : list state) : Prop :=
  match l with
  | [] => True
  | a :: rest =>
    match rest with
    | [] => True
    | b :: _ => (st_start b <= st_end a)%Q /\ chained rest
    end
  end.

(** Every segment has a text in the word map. *)
Definition all_texted (word_map : gmap Z string) (segs : list segment) : Prop :=
  forall seg, In seg segs ->
    nonempty (default EmptyString (word_map !! word_index seg)) = true.

(** The start time handed to the fetch of unit [i]: 0.1 for the first unit,
    the end of the unit before for the others. *)
Definition starts_at (us : list ayah_data) (i : nat) : Q :=
  match i with
  | O => 1 # 10
  | S j => default 0%Q (segment_end <$> us !! j)
  end.

(** Invariant of the two fetch loops: the next ayah and the clock follow
    the units, and unit [i] is what a fetch of ayah [start_ayah + i] at the
    end of unit [i - 1] returned. *)
Definition scheduled (fetch_single_ayah : nat -> Z -> Z -> Q -> Q -> outcome ayah_data)
    (surah : Z) (ayah_padding : Q) (start_ayah : Z) (st : progress) : Prop :=
  current_ayah st = start_ayah + Z.of_nat (length (units st)) /\
  current_time st = starts_at (units st) (length (units st)) /\
  forall i d, units st !! i = Some d ->
    exists k, (k < calls st)%nat /\
      fetch_single_ayah k surah (start_ayah + Z.of_nat i)
        (starts_at (units st) i) ayah_padding = Returns d.

End Shapes.

(* ===================================================================== *)
(** ** Intro frame (STEP 7 of [generate_reel]) *)
(* ===================================================================== *)

Module Intro.
Import Sequencer.

(** [total_duration] after STEP 7.  [intro] is the outcome of
    [create_intro_frame] followed by [concatenate_videoclips]; when either
    raises, the [except] branch skips the intro and the duration stays. *)
Definition with_intro (ENABLE_INTRO_FRAME : bool) (intro : outcome unit)
    (total_duration : Q) : Q :=
  if ENABLE_INTRO_FRAME then
    match intro with
    | Returns _ => (total_duration + INTRO_DURATION)%Q
    | Raises _ => total_duration
    end
  else total_duration.

End Intro.

(** Further inputs on which the theorems are exercised. *)
Module MoreExamples.

(** A fetcher whose every ayah lasts 5 s. *)
Definition brief_fetch (_ : nat) (_ ayah : Z) (current_time padding : Q)
    : outcome Sequencer.ayah_data :=
  Returns (Sequencer.mkAyah ayah current_time (current_time + 5)%Q 5
             (current_time + 5 + padding)%Q).

End MoreExamples.

(* ===================================================================== *)
(** ** Translation overlays (STEP 4 of [generate_reel]) *)
(* ===================================================================== *)

Module Overlay.
Import Pages Translation Timeline TextLayout.

(** [s.lstrip()], [s.rstrip()] and [s.strip()]. *)
Fixpoint lstrip (s : string) : string :=
  match s with
  | EmptyString => EmptyString
  | String c s' => if is_space c then lstrip s' else s
  end.

Fixpoint rstrip (s : string) : string :=
  match s with
  | EmptyString => EmptyString
  | String c s' =>
    match rstrip s' with
    | EmptyString => if is_space c then EmptyString else String c EmptyString
    | r => String c r
    end
  end.

Definition strip (s : string) : string := rstrip (lstrip s).

(** Every character is whitespace. *)
Fixpoint all_space (s : string) : bool :=
  match s with
  | EmptyString => true
  | String c s' => is_space c && all_space s'
  end.

(** The entries of an ayah's dict that the translation overlay reads; a
    missing list is the empty list. *)
Record ayah_text : Type := mkAyahText {
  data_start_time : Q;
  data_end_time : Q;
  data_translation : string;
  data_word_segments : list segment;
  data_word_texts : list word
}.

(** A translation clip: its start on the timeline, its duration and the
    lines that are drawn. *)
Record overlay : Type := mkOverlay {
  clip_start : Q;
  clip_duration : Q;
  clip_lines : list string
}.

(** Truthiness of a list. *)
Definition nonnil {A} (l : list A) : bool :=
  match l with
  | [] => false
  | _ => true
  end.

(** The [for page, trans_text in zip(pages, trans_segments)] loop.
    [create_translation_clip] is followed as far as the lines it draws. *)
Fixpoint translation_loop (data_start : Q) (pairs : list (page * string))
    : outcome (list overlay) :=
  match pairs with
  | [] => Returns []
  | (page, trans_text) :: rest =>
    if negb (nonempty (strip trans_text)) then translation_loop data_start rest
    else
      let page_dur := (end_time page - start_time page)%Q in
      let page_dur := if Qltb page_dur (1 # 10) then 1 # 10 else page_dur in
      match translation_lines trans_text with
      | None => translation_loop data_start rest
      | Some (Raises e) => Raises e
      | Some (Returns lines) =>
        bind (translation_loop data_start rest)
          (fun clips =>
             Returns (mkOverlay (data_start + start_time page)%Q page_dur lines
                      :: clips))
      end
  end.

(** The translation branch of STEP 4 for one ayah: the clips appended to
    [text_clips]. *)
Definition translation_overlays (page_size : Z) (data : ayah_text)
    : outcome (list overlay) :=
  let display_duration := (data_end_time data - data_start_time data)%Q in
  if nonempty (data_translation data) then
    if nonnil (data_word_segments data) && nonnil (data_word_texts data) then
      let word_count := Z.of_nat (length (data_word_texts data)) in
      let sorted_segs := sorted (data_word_segments data) in
      bind (compute_page_boundaries sorted_segs word_count display_duration
              page_size)
        (fun pages =>
           let trans_segments :=
             split_translation_by_pages (data_translation data) pages word_count in
           translation_loop (data_start_time data) (combine pages trans_segments))
    else
      match translation_lines (data_translation data) with
      | None => Returns []
      | Some (Raises e) => Raises e
      | Some (Returns lines) =>
        Returns [mkOverlay (data_start_time data) display_duration lines]
      end
  else Returns [].

(** The words that a list of clips shows, in order. *)
Definition shown_words (clips : list overlay) : list string :=
  concat (map (fun c => concat (map split (clip_lines c))) clips).

End Overlay.

(* ===================================================================== *)
(** ** Background zoom and silence trimming *)
(* ===================================================================== *)

Module Media.
Import TextLayout.

(** The crop box [(x1, y1, x2, y2)] of [zoom_effect] in
    [apply_ken_burns_effect], for a clip of size [(w, h)] and a duration
    other than 0. *)
Definition zoom_box (w h : Z) (duration zoom_ratio t : Q) : Z * Z * Z * Z :=
  let progress := (t / duration)%Q in
  let current_zoom := (1 + (zoom_ratio - 1) * progress)%Q in
  let new_w := int_of_float (inject_Z w / current_zoom) in
  let new_h := int_of_float (inject_Z h / current_zoom) in
  let x1 := (w - new_w) / 2 in
  let y1 := (h - new_h) / 2 in
  let x2 := x1 + new_w in
  let y2 := y1 + new_h in
  (x1, y1, x2, y2).

(** The slice [audio[start:end]] that [trim_silence] exports, from the
    length of the audio in ms and the list that [detect_nonsilent] returned;
    [None] when the list is empty and the file is left as it is. *)
Definition trim_window (audio_len : Z) (nonsilent : list (Z * Z)) : option (Z * Z) :=
  match head nonsilent, last nonsilent with
  | Some first, Some final =>
    let start := fst first in
    let end_ := snd final in
    let start := Z.max 0 (start - 50) in
    let end_ := Z.min audio_len (end_ + 100) in
    Some (start, end_)
  | _, _ => None
  end.

(** Ranges as [detect_nonsilent] returns them: inside the audio, each one
    after the one before. *)
Definition ordered_ranges (audio_len : Z) (ranges : list (Z * Z)) : Prop :=
  Forall (fun r => 0 <= fst r /\ fst r <= snd r /\ snd r <= audio_len) ranges /\
  StronglySorted (fun r1 r2 => snd r1 <= fst r2) ranges.

End Media.

(* ===================================================================== *)
(** ** YouTube upload: metadata and retries *)
(* ===================================================================== *)

Module Upload.

Section Metadata.

(** A [str] is the list of its code points; [dot] is U+002E and [lower] is
    [str.lower]. *)
Context {char : Type} `{Countable char}.
Variable dot : char.
Variable lower : list char -> list char.

(** [if len(title) > 100: title = title[:97] + "..."] *)
Definition truncate_title (title : list char) : list char :=
  if 100 <? Z.of_nat (length title) then
    Py.slice title 0 97 ++ [dot; dot; dot]
  else title.

(** Body of the [for tag in tags] loop, on [(seen, unique_tags)]. *)
Definition tag_step (st : gset (list char) * list (list char)) (tag : list char)
    : gset (list char) * list (list char) :=
  let '(seen, unique_tags) := st in
  if decide (lower tag ∈ seen) then (seen, unique_tags)
  else ({[lower tag]} ∪ seen, unique_tags ++ [tag]).

Definition unique_tags (tags : list (list char)) : list (list char) :=
  snd (fold_left tag_step tags (∅, [])).

(** The ["tags"] entry of the metadata: [unique_tags[:500]]. *)
Definition metadata_tags (tags : list (list char)) : list (list char) :=
  Py.slice (unique_tags tags) 0 500.

End Metadata.

Definition MAX_RETRIES : Z := 5.
Definition RETRIABLE_STATUS_CODES : list Z := [500; 502; 503; 504].

(** What a call of [request.next_chunk()] does: it returns
    [(status, response)], or raises [HttpError] with a status, an exception
    of [RETRIABLE_EXCEPTIONS], or another exception. *)
Inductive chunk_event (R : Type) : Type :=
| Chunk (response : option R)
| HttpError (status : Z)
| RetriableException
| OtherException.
Arguments Chunk {R} response.
Arguments HttpError {R} status.
Arguments RetriableException {R}.
Arguments OtherException {R}.

(** How [_execute_with_retry] ends: with the response, with
    [YouTubeUploadError] for the retries or for an HTTP status, or with the
    exception that it does not catch. *)
Inductive upload_end (R : Type) : Type :=
| Response (r : R)
| MaxRetriesExceeded
| HttpFailure (status : Z)
| Uncaught.
Arguments Response {R} r.
Arguments MaxRetriesExceeded {R}.
Arguments HttpFailure {R} status.
Arguments Uncaught {R}.

(** [_handle_retry], without the sleep: [None] when it raises. *)
Definition _handle_retry (retry_count : Z) : option Z :=
  if MAX_RETRIES <=? retry_count then None
  else Some (retry_count + 1).

(** The [while response is None] loop over the events of the successive
    [next_chunk] calls; [None] when the events run out before the loop
    ends. *)
Fixpoint retry_loop {R} (events : list (chunk_event R)) (retry : Z)
    : option (upload_end R) :=
  match events with
  | [] => None
  | ev :: rest =>
    match ev with
    | Chunk (Some r) => Some (Response r)
    | Chunk None => retry_loop rest retry
    | HttpError status =>
      if existsb (Z.eqb status) RETRIABLE_STATUS_CODES then
        match _handle_retry retry with
        | Some retry => retry_loop rest retry
        | None => Some MaxRetriesExceeded
        end
      else Some (HttpFailure status)
    | RetriableException =>
      match _handle_retry retry with
      | Some retry => retry_loop rest retry
      | None => Some MaxRetriesExceeded
      end
    | OtherException => Some Uncaught
    end
  end.

Definition _execute_with_retry {R} (events : list (chunk_event R))
    : option (upload_end R) :=
  retry_loop events 0.

(** An event after which the loop goes on. *)
Definition transient {R} (ev : chunk_event R) : bool :=
  match ev with
  | Chunk None => true
  | HttpError status => existsb (Z.eqb status) RETRIABLE_STATUS_CODES
  | RetriableException => true
  | _ => false
  end.

(** An event that uses up a retry. *)
Definition is_error {R} (ev : chunk_event R) : bool :=
  match ev with
  | Chunk _ => false
  | _ => true
  end.

Definition errors {R} (events : list (chunk_event R)) : Z :=
  Z.of_nat (length (List.filter is_error events)).

End Upload.

(* ===================================================================== *)
(** ** Automatic mode: the approval loop of [cmd_auto] *)
(* ===================================================================== *)

Module Auto.

(** The string that [wait_for_approval] returns. *)
Inductive approval : Type :=
| approved
| skip
| rejected
| regenerate
| timeout
| other_reply (s : string).

(** What the collaborators do during one pass of the loop, each call being
    taken to return: the result of
    [cmd_generate] ([None] when it fails), whether
    [telegram_configured() and APPROVAL_REQUIRED] holds, whether
    [send_approval_request] returns a message id, and the reply. *)
Record attempt (V : Type) : Type := mkAttempt {
  gen_result : option V;
  approval_required : bool;
  message_sent : bool;
  reply : approval
}.
Arguments mkAttempt {V} _ _ _ _.
Arguments gen_result {V} _.
Arguments approval_required {V} _.
Arguments message_sent {V} _.
Arguments reply {V} _.

(** How the loop is left: [return None], [return gen_result], or on to the
    upload with the video of some attempt; with the attempts whose video
    file [os.remove] was called on. *)
Inductive loop_end (V : Type) : Type :=
| ReturnNone (removed : list nat)
| ReturnLocal (n : nat) (v : V) (removed : list nat)
| ToUpload (n : nat) (v : V) (removed : list nat)
| Unbound.
Arguments ReturnNone {V} removed.
Arguments ReturnLocal {V} n v removed.
Arguments ToUpload {V} n v removed.
Arguments Unbound {V}.

Definition max_attempts : nat := 3.

Section Loop.
Variable V : Type.

(** The collaborators' behaviour at attempt 1, 2, ... *)
Variable world : nat -> attempt V.

(** [while attempt < max_attempts], with [passes] passes left.  [last] is the
    binding of [gen_result] (attempt and video), if any. *)
Fixpoint approval_loop (passes : nat) (attempt : nat) (last : option (nat * V))
    (removed : list nat) : loop_end V :=
  match passes with
  | O =>
    match last with
    | Some (n, v) => ToUpload n v removed
    | None => Unbound
    end
  | S passes =>
    let attempt := S attempt in
    match gen_result (world attempt) with
    | None => ReturnNone removed
    | Some v =>
      if approval_required (world attempt) then
        if message_sent (world attempt) then
          match reply (world attempt) with
          | approved | skip => ToUpload attempt v removed
          | rejected => ReturnNone (removed ++ [attempt])
          | regenerate =>
            approval_loop passes attempt (Some (attempt, v)) (removed ++ [attempt])
          | timeout => ReturnLocal attempt v removed
          | other_reply _ => approval_loop passes attempt (Some (attempt, v)) removed
          end
        else ToUpload attempt v removed
      else ToUpload attempt v removed
    end
  end.

(** The loop of [cmd_auto]. *)
Definition cmd_auto_loop : loop_end V := approval_loop max_attempts 0 None [].

(** The reply at attempt [n] was asked for and received. *)
Definition replied (n : nat) (a : approval) : Prop :=
  approval_required (world n) = true /\ message_sent (world n) = true /\
  reply (world n) = a.

(** What holds of the way the loop is left. *)
Definition consented (e : loop_end V) : Prop :=
  match e with
  | ToUpload n v removed =>
    (1 <= n <= 3)%nat /\
    gen_result (world n) = Some v /\
    ~ replied n rejected /\ ~ replied n timeout /\
    (forall k, (k < n)%nat -> (1 <= k)%nat ->
       replied k regenerate \/ exists s, replied k (other_reply s)) /\
    (In n removed <-> n = 3%nat /\ replied 3 regenerate)
  | ReturnLocal n v removed =>
    (1 <= n <= 3)%nat /\ gen_result (world n) = Some v /\
    replied n timeout /\ ~ In n removed
  | ReturnNone removed =>
    exists n, (1 <= n <= 3)%nat /\
      (gen_result (world n) = None \/ (replied n rejected /\ In n removed))
  | Unbound => False
  end.

(** Invariant of the loop after [attempt] passes. *)
Definition loop_inv (attempt : nat) (last : option (nat * V))
    (removed : list nat) : Prop :=
  (forall k, (1 <= k <= attempt)%nat ->
     replied k regenerate \/ exists s, replied k (other_reply s)) /\
  (forall k, In k removed -> (1 <= k <= attempt)%nat /\ replied k regenerate) /\
  (forall k, (1 <= k <= attempt)%nat -> replied k regenerate -> In k removed) /\
  match last with
  | None => attempt = 0%nat
  | Some (n, v) => n = attempt /\ (1 <= n)%nat /\ gen_result (world n) = Some v
  end.

End Loop.

End Auto.

(* ===================================================================== *)
(** ** Application settings: the key-value table *)
(* ===================================================================== *)

Module Settings.

(** A row of [app_settings]: its key and its value, [None] for NULL.  The
    table is the list of its rows in the order of the query. *)
Definition row : Type := string * option string.
Definition table : Type := list row.

(** [session.query(AppSettings).filter_by(key=key).first()] *)
Fixpoint first_with_key (key : string) (t : table) : option row :=
  match t with
  | [] => None
  | r :: rest =>
    if String.eqb (fst r) key then Some r else first_with_key key rest
  end.

(** [get_setting]: [setting.value if setting else default] *)
Definition get_setting (t : table) (key : string) (default : option string)
    : option string :=
  match first_with_key key t with
  | Some setting => snd setting
  | None => default
  end.

(** [setting.value = value] on the first row with the key. *)
Fixpoint update_first (key value : string) (t : table) : table :=
  match t with
  | [] => []
  | r :: rest =>
    if String.eqb (fst r) key then (fst r, Some value) :: rest
    else r :: update_first key value rest
  end.

(** [set_setting]: the table after the commit. *)
Definition set_setting (t : table) (key value : string) : table :=
  match first_with_key key t with
  | Some _ => update_first key value t
  | None => t ++ [(key, Some value)]
  end.

Definition keys (t : table) : list string := map fst t.

End Settings.

(* ===================================================================== *)
(** ** File names: written by [generate_reel], read by [cmd_tiktok] *)
(* ===================================================================== *)

Module FileName.
Import Overlay.

(** ASCII decimal digits. *)
Definition is_digit (c : ascii) : bool :=
  let n := N_of_ascii c in ((48 <=? n) && (n <=? 57))%N.

Definition digit_value (c : ascii) : Z := Z.of_N (N_of_ascii c) - 48.

Definition digit_char (d : Z) : ascii := ascii_of_N (Z.to_N (48 + d)).

(** The decimal digits of [n >= 0]; [fuel] bounds the number of digits. *)
Fixpoint digits (fuel : nat) (n : Z) : string :=
  match fuel with
  | O => EmptyString
  | S fuel =>
    if n <? 10 then String (digit_char n) EmptyString
    else String.append (digits fuel (n / 10))
           (String (digit_char (n mod 10)) EmptyString)
  end.

(** [str(n)] for an int, as in [f"{n}"]. *)
Definition str_of_int (n : Z) : string :=
  if n <? 0 then String "-" (digits (S (Z.to_nat (- n))) (- n))
  else digits (S (Z.to_nat n)) n.

(** The digits of [int(s)]: decimal digits, single underscores allowed
    between digits.  [after_digit] tells whether the character before was a
    digit. *)
Fixpoint int_digits (acc : Z) (after_digit : bool) (s : string) : option Z :=
  match s with
  | EmptyString => if after_digit then Some acc else None
  | String c s' =>
    if is_digit c then int_digits (10 * acc + digit_value c) true s'
    else if Ascii.eqb c "_" && after_digit then int_digits acc false s'
    else None
  end.

(** [int(s)] for a [str]: surrounding whitespace is dropped, one sign is
    allowed. *)
Definition int_of_str (s : string) : outcome Z :=
  let s := strip s in
  let '(negative, body) :=
    match s with
    | String "-" body => (true, body)
    | String "+" body => (false, body)
    | _ => (false, s)
    end in
  match int_digits 0 false body with
  | Some n => Returns (if negative then - n else n)
  | None => Raises (ValueError "invalid literal for int() with base 10")
  end.

(** [s.split(sep)] for a separator of one character; [cur] is the field
    being read. *)
Fixpoint sep_split_aux (sep : ascii) (cur : string) (s : string) : list string :=
  match s with
  | EmptyString => [cur]
  | String c s' =>
    if Ascii.eqb c sep then cur :: sep_split_aux sep EmptyString s'
    else sep_split_aux sep (String.append cur (String c EmptyString)) s'
  end.

Definition sep_split (sep : ascii) (s : string) : list string :=
  sep_split_aux sep EmptyString s.

(** [c in s] *)
Fixpoint contains (c : ascii) (s : string) : bool :=
  match s with
  | EmptyString => false
  | String c' s' => Ascii.eqb c' c || contains c s'
  end.

(** [l[i]] for [i >= 0] *)
Definition index {A} (l : list A) (i : nat) : outcome A :=
  match l !! i with
  | Some x => Returns x
  | None => Raises IndexError
  end.

(** [f"{start_ayah}" if start_ayah == end_ayah else
    f"{start_ayah}-{end_ayah}"] *)
Definition verse_range (start_ayah end_ayah : Z) : string :=
  if start_ayah =? end_ayah then str_of_int start_ayah
  else String.append (str_of_int start_ayah)
         (String "-" (str_of_int end_ayah)).

(** The stem of the file name of STEP 8:
    [f"QuranReel_{surah}_{surah_name}_{verse_range}_{timestamp}"]. *)
Definition reel_stem (surah : Z) (surah_name : string) (start_ayah end_ayah : Z)
    (timestamp : string) : string :=
  String.append "QuranReel_"
    (String.append (str_of_int surah)
       (String "_"
          (String.append surah_name
             (String "_"
                (String.append (verse_range start_ayah end_ayah)
                   (String "_" timestamp)))))).

(** The verse range as [cmd_tiktok] reads it. *)
Definition parse_verse_range (verse_range : string) : outcome (Z * Z) :=
  if contains "-" verse_range then
    match sep_split "-" verse_range with
    | [a; b] =>
      bind (int_of_str a) (fun start_ayah =>
      bind (int_of_str b) (fun end_ayah => Returns (start_ayah, end_ayah)))
    | [] => Raises (ValueError "not enough values to unpack")
    | [a] => bind (int_of_str a)
               (fun _ => Raises (ValueError "not enough values to unpack"))
    | a :: b :: _ =>
      bind (int_of_str a) (fun _ =>
      bind (int_of_str b)
        (fun _ => Raises (ValueError "too many values to unpack")))
    end
  else bind (int_of_str verse_range) (fun n => Returns (n, n)).

(** The [try] block of [cmd_tiktok] up to the verse range: the surah
    number, the surah name and the verses read from the stem of the file
    name. *)
Definition parse_stem (stem : string) : outcome (Z * string * Z * Z) :=
  let parts := sep_split "_" stem in
  bind (index parts 1) (fun p1 =>
  bind (int_of_str p1) (fun surah_num =>
  bind (index parts 2) (fun surah_name_ar =>
  bind (index parts 3) (fun verse_range =>
  bind (parse_verse_range verse_range) (fun '(start_ayah, end_ayah) =>
  Returns (surah_num, surah_name_ar, start_ayah, end_ayah)))))).

(** All characters are digits. *)
Fixpoint all_digits (s : string) : bool :=
  match s with
  | EmptyString => true
  | String c s' => is_digit c && all_digits s'
  end.

(** The value of a digit string read after [acc]. *)
Fixpoint horner (acc : Z) (s : string) : Z :=
  match s with
  | EmptyString => acc
  | String c s' => horner (10 * acc + digit_value c) s'
  end.

End FileName.

(* ===================================================================== *)
(** * Properties *)
(* ===================================================================== *)

Module PyFacts.

Lemma Qltb_lt x y : Qltb x y = true <-> (x < y)%Q.
Proof.
  unfold Qltb. rewrite negb_true_iff. split; intros H.
  - apply Qnot_le_lt. intros Hle. apply Qle_bool_iff in Hle. congruence.
  - destruct (Qle_bool y x) eqn:E; [|reflexivity].
    apply Qle_bool_iff in E. exfalso. exact (Qlt_not_le _ _ H E).
Qed.

Lemma Qltb_ge x y : Qltb x y = false <-> (y <= x)%Q.
Proof.
  unfold Qltb. rewrite negb_false_iff. apply Qle_bool_iff.
Qed.

Lemma Qleb_le x y : Qleb x y = true <-> (x <= y)%Q.
Proof. apply Qle_bool_iff. Qed.

Lemma ceil_div_spec w p :
  0 < p -> (ceil_div w p - 1) * p < w <= ceil_div w p * p.
Proof.
  intros Hp. unfold ceil_div.
  set (x := (inject_Z w / inject_Z p)%Q).
  assert (Hpq : (0 < inject_Z p)%Q) by (change (inject_Z 0 < inject_Z p)%Q; rewrite <- Zlt_Qlt; exact Hp).
  assert (Hx : (x * inject_Z p == inject_Z w)%Q).
  { unfold x. field. intros E. rewrite E in Hpq. discriminate. }
  split.
  - pose proof (Qceiling_lt x) as H.
    apply (Qmult_lt_r _ _ _ Hpq) in H. rewrite Hx in H.
    rewrite <- inject_Z_mult in H. rewrite <- Zlt_Qlt in H. exact H.
  - pose proof (Qle_ceiling x) as H.
    apply (Qmult_le_r _ _ _ Hpq) in H. rewrite Hx in H.
    rewrite <- inject_Z_mult in H. rewrite <- Zle_Qle in H. exact H.
Qed.

End PyFacts.

Module Binary64Facts.
Import Py PyFacts Binary64.

Lemma pow2_pos (e : Z) : (0 < 2 ^ e)%Q.
Proof. apply Qpower_0_lt. reflexivity. Qed.

Lemma pow2_add (a b : Z) : (2 ^ (a + b) == 2 ^ a * 2 ^ b)%Q.
Proof. apply Qpower_plus. intros E. discriminate E. Qed.

Lemma pow2_Z (n : Z) : 0 <= n -> (2 ^ n == inject_Z (2 ^ n))%Q.
Proof. intros H. symmetry. exact (Zpower_Qpower 2 n H). Qed.

Lemma pow2_inv (e : Z) : (2 ^ e * 2 ^ (- e) == 1)%Q.
Proof. rewrite <- pow2_add. now replace (e + - e) with 0 by lia. Qed.

(** [ilog2 x] is the exponent of the power of two at or below [x]. *)
Lemma ilog2_spec (x : Q) :
  (0 < x)%Q -> (2 ^ ilog2 x <= x)%Q /\ (x < 2 ^ (ilog2 x + 1))%Q.
Proof.
  intros Hx. destruct x as [n d].
  assert (Hn : 0 < n) by (unfold Qlt in Hx; cbn in Hx; lia).
  unfold ilog2. cbn [Qnum Qden].
  set (ln := Z.log2 n). set (ld := Z.log2 (Z.pos d)).
  pose proof (Z.log2_spec n Hn) as [Hn1 Hn2]. fold ln in Hn1, Hn2.
  pose proof (Z.log2_spec (Z.pos d) ltac:(lia)) as [Hd1 Hd2]. fold ld in Hd1, Hd2.
  pose proof (Z.log2_nonneg n) as Hln. fold ln in Hln.
  pose proof (Z.log2_nonneg (Z.pos d)) as Hld. fold ld in Hld.
  set (x := n # d) in *.
  assert (Hxd : (x * inject_Z (Z.pos d) == inject_Z n)%Q).
  { unfold x, Qeq. cbn. lia. }
  assert (HN1 : (2 ^ ln <= inject_Z n)%Q)
    by (rewrite (pow2_Z ln Hln), <- Zle_Qle; exact Hn1).
  assert (HN2 : (inject_Z n < 2 ^ (ln + 1))%Q)
    by (rewrite (pow2_Z (ln + 1)) by lia; rewrite <- Zlt_Qlt; exact Hn2).
  assert (HD1 : (2 ^ ld <= inject_Z (Z.pos d))%Q)
    by (rewrite (pow2_Z ld Hld), <- Zle_Qle; exact Hd1).
  assert (HD2 : (inject_Z (Z.pos d) < 2 ^ (ld + 1))%Q)
    by (rewrite (pow2_Z (ld + 1)) by lia; rewrite <- Zlt_Qlt; exact Hd2).
  (* the two outer bounds *)
  assert (HA : (2 ^ (ln - ld - 1) < x)%Q).
  { assert (E : (2 ^ ln == 2 ^ (ln - ld - 1) * 2 ^ (ld + 1))%Q)
      by (rewrite <- pow2_add; now replace (ln - ld - 1 + (ld + 1)) with ln by lia).
    pose proof (pow2_pos (ln - ld - 1)) as P1.
    pose proof (pow2_pos (ld + 1)) as P2.
    revert E P1 P2 HN1 HD2 Hxd Hx.
    generalize (2 ^ ln)%Q (2 ^ (ln - ld - 1))%Q (2 ^ (ld + 1))%Q
      (inject_Z n) (inject_Z (Z.pos d)).
    intros a b c N D E P1 P2 HN1 HD2 Hxd Hx. nra. }
  assert (HB : (x < 2 ^ (ln - ld + 1))%Q).
  { assert (E : (2 ^ (ln + 1) == 2 ^ (ln - ld + 1) * 2 ^ ld)%Q)
      by (rewrite <- pow2_add; now replace (ln - ld + 1 + ld) with (ln + 1) by lia).
    pose proof (pow2_pos (ln - ld + 1)) as P1.
    pose proof (pow2_pos ld) as P2.
    revert E P1 P2 HN2 HD1 Hxd Hx.
    generalize (2 ^ (ln + 1))%Q (2 ^ (ln - ld + 1))%Q (2 ^ ld)%Q
      (inject_Z n) (inject_Z (Z.pos d)).
    intros a b c N D E P1 P2 HN2 HD1 Hxd Hx. nra. }
  destruct (Qltb x (2 ^ (ln - ld))) eqn:E.
  - apply Qltb_lt in E. split; [now apply Qlt_le_weak|].
    now replace (ln - ld - 1 + 1) with (ln - ld) by lia.
  - apply Qltb_ge in E. split; [exact E | exact HB].
Qed.

Lemma round_floor (y : Q) : Qfloor y <= round y <= Qfloor y + 1.
Proof.
  unfold round.
  destruct (Qltb _ _); [lia|]. destruct (Qltb _ _); [lia|].
  destruct (Z.even _); lia.
Qed.

Lemma round_ge (y : Q) (m : Z) : (inject_Z m <= y)%Q -> m <= round y.
Proof.
  intros H. apply Qfloor_resp_le in H. rewrite Qfloor_Z in H.
  pose proof (round_floor y). lia.
Qed.

Lemma round_le (y : Q) (m : Z) : (y <= inject_Z m)%Q -> round y <= m.
Proof.
  intros H. pose proof (round_floor y) as Hr.
  pose proof (Qfloor_resp_le _ _ H) as Hf. rewrite Qfloor_Z in Hf.
  destruct (Z.eq_dec (Qfloor y) m) as [E|E]; [|lia].
  unfold round.
  assert (Hlt : Qltb (y - inject_Z (Qfloor y)) (1 # 2) = true).
  { apply Qltb_lt. rewrite E. lra. }
  rewrite Hlt. lia.
Qed.

Lemma round_above_half (y : Q) (m : Z) :
  (inject_Z m + (1 # 2) < y)%Q -> m + 1 <= round y.
Proof.
  intros H. pose proof (round_floor y) as Hr.
  assert (Hm : (inject_Z m <= y)%Q) by lra.
  pose proof (Qfloor_resp_le _ _ Hm) as Hf. rewrite Qfloor_Z in Hf.
  destruct (Z.eq_dec (Qfloor y) m) as [E|E]; [|lia].
  unfold round. rewrite E.
  assert (H1 : Qltb (y - inject_Z m) (1 # 2) = false) by (apply Qltb_ge; lra).
  assert (H2 : Qltb (1 # 2) (y - inject_Z m) = true) by (apply Qltb_lt; lra).
  rewrite H1, H2. lia.
Qed.

(** [n * 2^k] as a rational, for [k >= 0]. *)
Lemma scaled_int (n e : Z) :
  e <= 0 -> (inject_Z (n * 2 ^ (- e)) == inject_Z n * 2 ^ (- e))%Q.
Proof.
  intros He. rewrite inject_Z_mult. now rewrite (pow2_Z (- e)) by lia.
Qed.

Lemma mul_cancel (N a b : Q) : (a * b == 1 -> N * b * a == N)%Q.
Proof. intros H. rewrite <- Qmult_assoc, (Qmult_comm b a), H. ring. Qed.

(** An integer above [x] is above the rounded [x]. *)
Lemma nearest_le (x : Q) (n : Z) :
  ulp_exp x <= 0 -> (x <= inject_Z n)%Q -> (nearest x <= inject_Z n)%Q.
Proof.
  intros He Hx. unfold nearest. set (e := ulp_exp x) in *.
  pose proof (pow2_pos e) as P1. pose proof (pow2_pos (- e)) as P2.
  pose proof (pow2_inv e) as Hinv.
  assert (Hy : (x / 2 ^ e <= inject_Z (n * 2 ^ (- e)))%Q).
  { rewrite scaled_int by exact He.
    apply Qle_shift_div_r; [exact P1|].
    now rewrite (mul_cancel _ _ _ Hinv). }
  apply round_le in Hy. rewrite Zle_Qle in Hy.
  rewrite scaled_int in Hy by exact He.
  apply (Qmult_le_r _ _ _ P1) in Hy.
  now rewrite (mul_cancel _ _ _ Hinv) in Hy.
Qed.

Lemma nearest_nonneg (x : Q) : (0 <= x)%Q -> (0 <= nearest x)%Q.
Proof.
  intros Hx. unfold nearest. set (e := ulp_exp x).
  pose proof (pow2_pos e) as P1.
  assert (Hy : (inject_Z 0 <= x / 2 ^ e)%Q).
  { apply Qle_shift_div_l; [exact P1|]. change (inject_Z 0) with 0%Q. lra. }
  apply round_ge in Hy. rewrite Zle_Qle in Hy. change (inject_Z 0) with 0%Q in Hy.
  revert P1 Hy. generalize (inject_Z (round (x / 2 ^ e))) (2 ^ e)%Q.
  intros r a P1 Hy. nra.
Qed.

(** An integer further below [x] than half a unit in the last place is below
    the rounded [x]. *)
Lemma nearest_gt (x : Q) (m : Z) :
  ulp_exp x <= 0 ->
  (inject_Z m * 2 ^ (- ulp_exp x) + (1 # 2) < x * 2 ^ (- ulp_exp x))%Q ->
  (inject_Z m < nearest x)%Q.
Proof.
  intros He Hx. unfold nearest. set (e := ulp_exp x) in *.
  pose proof (pow2_pos e) as P1. pose proof (pow2_pos (- e)) as P2.
  pose proof (pow2_inv e) as Hinv.
  assert (Hy : (inject_Z (m * 2 ^ (- e)) + (1 # 2) < x / 2 ^ e)%Q).
  { rewrite scaled_int by exact He.
    apply Qlt_shift_div_l; [exact P1|].
    apply (Qmult_lt_r _ _ _ P1) in Hx.
    rewrite (mul_cancel x _ _ Hinv) in Hx.
    eapply Qle_lt_trans; [|exact Hx].
    rewrite Qmult_plus_distr_l. apply Qle_refl. }
  apply round_above_half in Hy. rewrite Zle_Qle in Hy.
  rewrite inject_Z_plus, scaled_int in Hy by exact He.
  change (inject_Z 1) with 1%Q in Hy.
  apply (Qmult_le_r _ _ _ P1) in Hy.
  rewrite Qmult_plus_distr_l, (mul_cancel _ _ _ Hinv) in Hy.
  lra.
Qed.

Lemma Qceiling_unique (v : Q) (n : Z) :
  (inject_Z (n - 1) < v)%Q -> (v <= inject_Z n)%Q -> Qceiling v = n.
Proof.
  intros H1 H2. pose proof (Qle_ceiling v) as H3. pose proof (Qceiling_lt v) as H4.
  assert (H5 : (inject_Z (Qceiling v - 1) < inject_Z n)%Q) by lra.
  assert (H6 : (inject_Z (n - 1) < inject_Z (Qceiling v))%Q) by lra.
  rewrite <- Zlt_Qlt in H5, H6. lia.
Qed.

(** The page count of [compute_page_boundaries], computed on the binary64
    quotient as the program does, is the exact one for a word count below
    [2^53]. *)
Lemma num_pages_exact (w p : Z) :
  0 <= w < 2 ^ 53 -> 1 <= p ->
  num_pages w p = Returns (Z.max 1 (ceil_div w p)).
Proof.
  intros [Hw0 Hw] Hp. unfold num_pages, true_div.
  destruct (Z.eqb_spec p 0) as [Hp0|Hp0]; [lia|].
  pose proof (ceil_div_spec w p ltac:(lia)) as [Hc1 Hc2].
  unfold ceil_div in *.
  set (x := (inject_Z w / inject_Z p)%Q) in *.
  set (n := Qceiling x) in *.
  assert (HP : (1 <= inject_Z p)%Q)
    by (change 1%Q with (inject_Z 1); now rewrite <- Zle_Qle).
  assert (Hxp : (x * inject_Z p == inject_Z w)%Q) by (unfold x; field; lra).
  assert (HW0 : (0 <= inject_Z w)%Q)
    by (change 0%Q with (inject_Z 0); now rewrite <- Zle_Qle).
  assert (HW : (inject_Z w < inject_Z (2 ^ 53))%Q) by now rewrite <- Zlt_Qlt.
  assert (Hbig : (inject_Z (2 ^ 53) < 2 ^ 1024)%Q) by (vm_compute; reflexivity).
  assert (Hneg : (- 2 ^ 1024 < 0)%Q) by (vm_compute; reflexivity).
  assert (Hclosed : Qleb (2 ^ 1024) 0 || Qleb 0 (- 2 ^ 1024) = false)
    by (vm_compute; reflexivity).
  destruct (Z.eq_dec w 0) as [Hz|Hnz].
  - assert (Hx0 : (x == 0)%Q) by (unfold x; rewrite Hz; field; lra).
    unfold fl. rewrite (proj1 (Qeq_alt x 0) Hx0), Hclosed. cbn [bind].
    unfold n. rewrite (Qceiling_comp _ _ Hx0). reflexivity.
  - assert (Hx0 : (0 < x)%Q).
    { assert (H : (0 < inject_Z w)%Q)
        by (change 0%Q with (inject_Z 0); rewrite <- Zlt_Qlt; lia).
      revert Hxp H HP. generalize (inject_Z w) (inject_Z p). intros W P Hxp H HP. nra. }
    unfold fl. rewrite (proj1 (Qgt_alt x 0) Hx0).
    assert (Hn1 : 1 <= n) by nia.
    assert (Hn53 : n <= 2 ^ 53) by nia.
    assert (Hxn : (x <= inject_Z n)%Q) by apply Qle_ceiling.
    assert (Hxm : (inject_Z (n - 1) < x)%Q) by apply Qceiling_lt.
    assert (Hx53 : (x < inject_Z (2 ^ 53))%Q).
    { revert Hxp HW HP Hx0. generalize (inject_Z w) (inject_Z p) (inject_Z (2 ^ 53)).
      intros W P C Hxp HW HP Hx0. nra. }
    destruct (ilog2_spec x Hx0) as [Hl1 Hl2].
    assert (Hil : ilog2 x <= 52).
    { assert (H : (2 ^ ilog2 x < 2 ^ 53)%Q).
      { rewrite (pow2_Z 53) by lia. lra. }
      apply Qpower_lt_compat_l_inv in H; [lia | reflexivity]. }
    assert (He : ulp_exp x <= 0) by (unfold ulp_exp; lia).
    pose proof (nearest_le x n He Hxn) as Hup.
    pose proof (nearest_nonneg x (Qlt_le_weak _ _ Hx0)) as Hlo.
    assert (Hn53' : (inject_Z n <= inject_Z (2 ^ 53))%Q) by now rewrite <- Zle_Qle.
    assert (Hov : Qleb (2 ^ 1024) (nearest x) || Qleb (nearest x) (- 2 ^ 1024) = false).
    { apply orb_false_iff. split.
      - destruct (Qleb (2 ^ 1024) (nearest x)) eqn:E; [|reflexivity].
        apply Qleb_le in E. lra.
      - destruct (Qleb (nearest x) (- 2 ^ 1024)) eqn:E; [|reflexivity].
        apply Qleb_le in E. lra. }
    rewrite Hov. cbn [bind]. f_equal.
    destruct (Z.eq_dec n 1) as [E1|E1].
    + rewrite E1 in Hup. apply Qceiling_resp_le in Hup. rewrite Qceiling_Z in Hup. lia.
    + rewrite (Qceiling_unique (nearest x) n); [reflexivity | | exact Hup].
      apply nearest_gt; [exact He|].
      assert (Hx1 : (1 < x)%Q).
      { assert (H : (inject_Z 1 <= inject_Z (n - 1))%Q) by (rewrite <- Zle_Qle; lia).
        change (inject_Z 1) with 1%Q in H. lra. }
      assert (Hil0 : 0 <= ilog2 x).
      { assert (H : (2 ^ 0 < 2 ^ (ilog2 x + 1))%Q) by (change (2 ^ 0)%Q with 1%Q; lra).
        apply (Qpower_lt_compat_l_inv 2 0 (ilog2 x + 1)) in H; [lia | reflexivity]. }
      assert (Ee : ulp_exp x = ilog2 x - 52) by (unfold ulp_exp; lia).
      rewrite Ee.
      assert (ET : (2 ^ (- (ilog2 x - 52)) * 2 ^ ilog2 x == 2 ^ 52)%Q).
      { rewrite <- pow2_add. now replace (- (ilog2 x - 52) + ilog2 x) with 52 by lia. }
      assert (EC : (inject_Z (2 ^ 53) == 2 * 2 ^ 52)%Q) by reflexivity.
      assert (HMP : (inject_Z (n - 1) * inject_Z p + 1 <= inject_Z w)%Q).
      { rewrite <- inject_Z_mult. change 1%Q with (inject_Z 1).
        rewrite <- inject_Z_plus, <- Zle_Qle. lia. }
      pose proof (pow2_pos (- (ilog2 x - 52))) as PE.
      pose proof (pow2_pos (ilog2 x)) as PT.
      revert ET EC HMP PE PT Hl1 Hxp HW HP Hx0 Hxm.
      generalize (2 ^ (- (ilog2 x - 52)))%Q (2 ^ ilog2 x)%Q (2 ^ 52)%Q
        (inject_Z (2 ^ 53)) (inject_Z (n - 1)) (inject_Z w) (inject_Z p).
      intros E' T C C2 M W P ET EC HMP PE PT Hl1 Hxp HW HP Hx0 Hxm.
      assert (HPT : (P * T <= W)%Q) by nra.
      assert (HP2 : (P < 2 * E')%Q).
      { apply (Qmult_lt_r _ _ T PT). nra. }
      assert (Hprod : (0 < (x - M) * (2 * E' - P))%Q)
        by (apply Qmult_lt_0_compat; lra).
      nra.
Qed.

(** Beyond that the counts differ: for [2^53 + 1] words on pages of [2^53]
    the program counts one page, not two. *)
Lemma num_pages_inexact :
  num_pages (2 ^ 53 + 1) (2 ^ 53) = Returns 1 /\
  Z.max 1 (ceil_div (2 ^ 53 + 1) (2 ^ 53)) = 2.
Proof. split; vm_compute; reflexivity. Qed.

Lemma round_near (y : Q) :
  (inject_Z (round y) - y <= 1 # 2)%Q /\ (y - inject_Z (round y) <= 1 # 2)%Q.
Proof.
  unfold round. pose proof (Qfloor_le y) as H1. pose proof (Qlt_floor y) as H2.
  rewrite inject_Z_plus in H2. change (inject_Z 1) with 1%Q in H2.
  destruct (Qltb (y - inject_Z (Qfloor y)) (1 # 2)) eqn:E1.
  - apply Qltb_lt in E1. split; lra.
  - apply Qltb_ge in E1.
    destruct (Qltb (1 # 2) (y - inject_Z (Qfloor y))) eqn:E2.
    + rewrite inject_Z_plus. change (inject_Z 1) with 1%Q. split; lra.
    + apply Qltb_ge in E2. destruct (Z.even (Qfloor y)).
      * split; lra.
      * rewrite inject_Z_plus. change (inject_Z 1) with 1%Q. split; lra.
Qed.

(** The rounding moves a number by at most half a unit in the last place. *)
Lemma nearest_error (x : Q) :
  (nearest x - x <= 2 ^ ulp_exp x * (1 # 2))%Q /\
  (x - nearest x <= 2 ^ ulp_exp x * (1 # 2))%Q.
Proof.
  unfold nearest. set (e := ulp_exp x).
  pose proof (pow2_pos e) as P1.
  destruct (round_near (x / 2 ^ e)) as [H1 H2].
  assert (Hx : (x / 2 ^ e * 2 ^ e == x)%Q) by (field; lra).
  revert H1 H2 Hx. generalize (inject_Z (round (x / 2 ^ e))) (x / 2 ^ e)%Q.
  revert P1. generalize (2 ^ e)%Q. intros a P1 r y H1 H2 Hx.
  split; nra.
Qed.

Lemma ulp_exp_le (x : Q) (k : Z) :
  (0 < x)%Q -> (x < 2 ^ (k + 1))%Q -> -1074 <= k - 52 -> ulp_exp x <= k - 52.
Proof.
  intros Hx Hk Hmin. destruct (ilog2_spec x Hx) as [Hl _].
  assert (H : (2 ^ ilog2 x < 2 ^ (k + 1))%Q) by lra.
  apply Qpower_lt_compat_l_inv in H; [|reflexivity].
  unfold ulp_exp. lia.
Qed.

(** Below [2^(k+1)] in absolute value, the rounding moves a number by at most
    [2^(k-53)]. *)
Lemma fl_error (x : Q) (k : Z) :
  (- 2 ^ (k + 1) < x)%Q -> (x < 2 ^ (k + 1))%Q -> -1074 <= k - 52 ->
  (x - 2 ^ (k - 53) <= fl x)%Q /\ (fl x <= x + 2 ^ (k - 53))%Q.
Proof.
  intros Hlo Hhi Hmin. unfold fl.
  pose proof (pow2_pos (k - 53)) as Pk.
  assert (Hhalf : forall e, e <= k - 52 -> (2 ^ e * (1 # 2) <= 2 ^ (k - 53))%Q).
  { intros e He.
    assert (H : (2 ^ e <= 2 ^ (k - 52))%Q)
      by (apply Qpower_le_compat_l; [exact He | discriminate]).
    assert (E : (2 ^ (k - 52) == 2 ^ (k - 53) * 2)%Q).
    { replace (k - 52) with (k - 53 + 1) by lia. rewrite pow2_add. reflexivity. }
    lra. }
  destruct (Qcompare_spec x 0) as [E|E|E].
  - lra.
  - assert (Hx : (0 < - x)%Q) by lra.
    pose proof (ulp_exp_le (- x) k Hx ltac:(lra) Hmin) as He.
    destruct (nearest_error (- x)) as [H1 H2].
    pose proof (Hhalf _ He). split; lra.
  - pose proof (ulp_exp_le x k E Hhi Hmin) as He.
    destruct (nearest_error x) as [H1 H2].
    pose proof (Hhalf _ He). split; lra.
Qed.

Lemma fl_nonpos (x : Q) : (x <= 0)%Q -> (fl x <= 0)%Q.
Proof.
  intros Hx. unfold fl. destruct (Qcompare_spec x 0) as [E|E|E].
  - lra.
  - pose proof (nearest_nonneg (- x) ltac:(lra)). lra.
  - lra.
Qed.

(** Distinct milliseconds below [2^52] stay distinct, and in their order, as
    binary64 seconds. *)
Lemma ms_to_s_strict (a b : Z) :
  0 <= a < b -> b < 2 ^ 52 ->
  (Binary64.ms_to_s a < Binary64.ms_to_s b)%Q.
Proof.
  intros [Ha Hab] Hb. unfold Binary64.ms_to_s.
  assert (HA : (0 <= inject_Z a)%Q)
    by (change 0%Q with (inject_Z 0); now rewrite <- Zle_Qle).
  assert (HAB : (inject_Z a + 1 <= inject_Z b)%Q).
  { change 1%Q with (inject_Z 1). rewrite <- inject_Z_plus, <- Zle_Qle. lia. }
  assert (HB : (inject_Z b < inject_Z (2 ^ 52))%Q) by now rewrite <- Zlt_Qlt.
  assert (C1 : (inject_Z (2 ^ 52) / 1000 < 2 ^ (42 + 1))%Q) by (vm_compute; reflexivity).
  assert (C2 : (2 * 2 ^ (42 - 53) < 1 / 1000)%Q) by (vm_compute; reflexivity).
  assert (C3 : (0 < 2 ^ (42 + 1))%Q) by apply pow2_pos.
  assert (Xa : (inject_Z a / 1000 == inject_Z a * (1 / 1000))%Q) by (field; lra).
  assert (Xb : (inject_Z b / 1000 == inject_Z b * (1 / 1000))%Q) by (field; lra).
  assert (Xc : (inject_Z (2 ^ 52) / 1000 == inject_Z (2 ^ 52) * (1 / 1000))%Q)
    by (field; lra).
  assert (T : (0 < 1 / 1000)%Q) by reflexivity.
  destruct (fl_error (inject_Z a / 1000) 42) as [_ H1]; [nra | nra | lia |].
  destruct (fl_error (inject_Z b / 1000) 42) as [H2 _]; [nra | nra | lia |].
  revert H1 H2 C1 C2 C3 Xa Xb Xc T HA HAB HB.
  generalize (fl (inject_Z a / 1000)) (fl (inject_Z b / 1000))
    (inject_Z a / 1000)%Q (inject_Z b / 1000)%Q (inject_Z (2 ^ 52) / 1000)%Q
    (2 ^ (42 - 53))%Q (2 ^ (42 + 1))%Q (inject_Z a) (inject_Z b)
    (inject_Z (2 ^ 52)) (1 / 1000)%Q.
  intros fa fb xa xb xc u top A B C t H1 H2 C1 C2 C3 Xa Xb Xc T HA HAB HB.
  nra.
Qed.

(** A text state that starts below [2^50] ms in absolute value ends after it
    starts, whatever [end_s] is. *)
Lemma visible_end_after_start (ms : Z) (end_s : Q) :
  - 2 ^ 50 < ms < 2 ^ 50 ->
  (Binary64.ms_to_s ms < visible_end (Binary64.ms_to_s ms) end_s)%Q.
Proof.
  intros [Hlo Hhi]. unfold visible_end.
  set (s := Binary64.ms_to_s ms).
  assert (Hc : (0 < fl (1 # 20))%Q) by (vm_compute; reflexivity).
  destruct (Qltb (fl (end_s - s)) (fl (1 # 20))) eqn:E.
  - assert (HL : (inject_Z (- 2 ^ 50) < inject_Z ms)%Q) by now rewrite <- Zlt_Qlt.
    assert (HH : (inject_Z ms < inject_Z (2 ^ 50))%Q) by now rewrite <- Zlt_Qlt.
    assert (C1 : (inject_Z (2 ^ 50) / 1000 + 1 < 2 ^ (40 + 1))%Q)
      by (vm_compute; reflexivity).
    assert (C2 : (- 2 ^ (40 + 1) < inject_Z (- 2 ^ 50) / 1000 - 1)%Q)
      by (vm_compute; reflexivity).
    assert (C3 : (2 ^ (40 - 53) < fl (1 # 20))%Q) by (vm_compute; reflexivity).
    assert (C4 : (fl (1 # 20) < 1 # 2)%Q) by (vm_compute; reflexivity).
    assert (C5 : (2 ^ (40 - 53) < 1 # 2)%Q) by (vm_compute; reflexivity).
    assert (Xa : (inject_Z ms / 1000 == inject_Z ms * (1 / 1000))%Q) by (field; lra).
    assert (Xb : (inject_Z (2 ^ 50) / 1000 == inject_Z (2 ^ 50) * (1 / 1000))%Q)
      by (field; lra).
    assert (Xc : (inject_Z (- 2 ^ 50) / 1000 == inject_Z (- 2 ^ 50) * (1 / 1000))%Q)
      by (field; lra).
    assert (T : (0 < 1 / 1000)%Q) by reflexivity.
    assert (Hx1 : (inject_Z ms / 1000 < inject_Z (2 ^ 50) / 1000)%Q) by nra.
    assert (Hx2 : (inject_Z (- 2 ^ 50) / 1000 < inject_Z ms / 1000)%Q) by nra.
    destruct (fl_error (inject_Z ms / 1000) 40) as [S1 S2]; [lra | lra | lia |].
    fold (Binary64.ms_to_s ms) in S1, S2. fold s in S1, S2.
    destruct (fl_error (s + fl (1 # 20)) 40) as [H1 _]; [lra | lra | lia |].
    lra.
  - apply Qltb_ge in E.
    destruct (Qlt_le_dec s end_s) as [Hlt|Hge]; [exact Hlt|].
    pose proof (fl_nonpos (end_s - s) ltac:(lra)). lra.
Qed.

End Binary64Facts.

Module PagesProofs.
Import Pages Examples PyFacts.

Lemma range_lookup n i k :
  range n !! i = Some k <-> k = Z.of_nat i /\ (i < Z.to_nat n)%nat.
Proof.
  unfold range. rewrite list_lookup_fmap. split.
  - intros H. destruct (seq 0 (Z.to_nat n) !! i) as [j|] eqn:E; [|discriminate].
    apply lookup_seq in E as [-> Hlt]. simpl in H. inversion H. auto.
  - intros [-> Hlt].
    assert (E : seq 0 (Z.to_nat n) !! i = Some (0 + i)%nat)
      by (apply lookup_seq; auto).
    rewrite E. reflexivity.
Qed.

Lemma range_length n : length (range n) = Z.to_nat n.
Proof. unfold range. rewrite length_map, length_seq. reflexivity. Qed.

Section PagesOf.
Variables (segs : list segment) (w : Z) (total : Q) (p np : Z).

Let pages := map (page_at segs w total p np) (range np).

Lemma pages_lookup i pg :
  pages !! i = Some pg <->
  pg = page_at segs w total p np (Z.of_nat i) /\ (i < Z.to_nat np)%nat.
Proof.
  unfold pages. rewrite list_lookup_fmap. split.
  - intros H. destruct (range np !! i) as [k|] eqn:E; [|discriminate].
    apply range_lookup in E as [-> Hlt]. inversion H. auto.
  - intros [-> Hlt].
    assert (E : range np !! i = Some (Z.of_nat i)) by (apply range_lookup; auto).
    rewrite E. reflexivity.
Qed.

Lemma pages_In pg :
  In pg pages <->
  exists i, pg = page_at segs w total p np (Z.of_nat i) /\ (i < Z.to_nat np)%nat.
Proof.
  rewrite <- list_elem_of_In, list_elem_of_lookup.
  split; intros [i H]; exists i; apply pages_lookup; exact H.
Qed.

Hypothesis Hp : 1 <= p.
Hypothesis Hw : 0 <= w.
Hypothesis Hnp : np = Z.max 1 (ceil_div w p).

Lemma pages_partition : partitions pages w.
Proof.
  pose proof (ceil_div_spec w p ltac:(lia)) as [Hlo Hhi].
  set (c := ceil_div w p) in *.
  assert (Hnp1 : 1 <= np) by lia.
  assert (Hcov : w <= np * p) by nia.
  assert (Hprev : forall i, 0 <= i -> i + 1 < np -> (i + 1) * p < w).
  { intros i Hi Hlt. assert (np = c) by lia. subst np. nia. }
  split; [|split; [|split]].
  - intros i pg H. apply pages_lookup in H as [-> _]. reflexivity.
  - intros i pg pg' H H'.
    apply pages_lookup in H as [-> _]. apply pages_lookup in H' as [-> Hlt].
    cbn [page_at word_start_idx word_end_idx].
    pose proof (Hprev (Z.of_nat i) ltac:(lia) ltac:(lia)). lia.
  - intros i j a b Hij Ha Hb.
    apply pages_lookup in Ha as [-> _]. apply pages_lookup in Hb as [-> Hlt].
    cbn [page_at word_start_idx word_end_idx]. nia.
  - intros k. split.
    + intros Hk.
      assert (0 <= k / p) by (apply Z.div_pos; lia).
      pose proof (Z.mul_div_le k p ltac:(lia)).
      pose proof (Z.mul_succ_div_gt k p ltac:(lia)).
      exists (page_at segs w total p np (Z.of_nat (Z.to_nat (k / p)))). split.
      * apply pages_In. exists (Z.to_nat (k / p)).
        split; [reflexivity|]. apply Z2Nat.inj_lt; nia.
      * cbn [page_at word_start_idx word_end_idx]. rewrite Z2Nat.id by lia. lia.
    + intros (pg & Hin & Hk). apply pages_In in Hin as (i & -> & Hi).
      cbn [page_at word_start_idx word_end_idx] in Hk. nia.
Qed.

End PagesOf.

(** C1, as stated, fails on the empty segment list, which is sorted: the
    early return gives no page, so word [0] of a one-word unit is in no
    page. *)
Lemma C1_empty_segments_cover_nothing :
  sorted_by_start [] /\
  compute_page_boundaries [] 1 13 12 = Returns [] /\
  ~ (exists pages, compute_page_boundaries [] 1 13 12 = Returns pages /\
                   partitions pages 1).
Proof.
  split; [|split].
  - intros i j a b _ H. rewrite lookup_nil in H. discriminate.
  - reflexivity.
  - intros (pages & Hret & _ & _ & _ & Hcov).
    cbn in Hret. inversion Hret; subst pages.
    destruct (proj1 (Hcov 0) ltac:(lia)) as (pg & Hin & _). exact Hin.
Qed.

(** C1 (amended): for every word count [0 <= w < 2^53] (the range in which
    the page count computed in binary64 is the exact one), page size
    [p >= 1] and non-empty list of timing segments (sorted by [start_ms] or
    not), [compute_page_boundaries] returns pages whose word ranges are
    contiguous, pairwise non-overlapping, strictly increasing in
    [page_index] (the page at position [i] has index [i]) and jointly cover
    exactly [[0, w)], and there are as many pages as the program counts on
    the binary64 quotient, [max(1, math.ceil(w / p))]; for the empty segment
    list it returns no page at all. *)
Theorem C1_pages_partition_words (segs : list segment) (w : Z) (total : Q) (p : Z) :
  segs <> [] -> 0 <= w < 2 ^ 53 -> 1 <= p ->
  (exists pages,
     compute_page_boundaries segs w total p = Returns pages /\
     partitions pages w /\
     Binary64.num_pages w p = Returns (Z.of_nat (length pages))) /\
  compute_page_boundaries [] w total p = Returns [].
Proof.
  intros Hne Hw Hp. split; [|reflexivity].
  destruct segs as [|s segs]; [congruence|].
  unfold compute_page_boundaries.
  destruct (p =? 0) eqn:E; [lia|].
  eexists. split; [reflexivity|]. split.
  - apply pages_partition; auto; lia.
  - rewrite length_map, range_length, Z2Nat.id by lia.
    now apply Binary64Facts.num_pages_exact.
Qed.

Lemma C1_pages_partition_words_witness :
  sparse_segments <> [] /\ 0 <= 27 < 2 ^ 53 /\ 1 <= 12 /\
  (exists pages,
     compute_page_boundaries sparse_segments 27 13 12 = Returns pages /\
     partitions pages 27 /\
     Binary64.num_pages 27 12 = Returns (Z.of_nat (length pages))) /\
  compute_page_boundaries [] 27 13 12 = Returns [].
Proof.
  assert (H1 : sparse_segments <> []) by discriminate.
  assert (H2 : 0 <= 27 < 2 ^ 53) by (split; [lia | reflexivity]).
  assert (H3 : 1 <= 12) by lia.
  split; [exact H1|]. split; [exact H2|]. split; [exact H3|].
  exact (C1_pages_partition_words sparse_segments 27 13 12 H1 H2 H3).
Defined.

(** C4: for every non-empty page list returned by [compute_page_boundaries],
    the first page's [start_time] is [0.0] and the last page's [end_time] is
    the unit's total duration, whatever the word timestamps are. *)
Theorem C4_boundary_pinning (segs : list segment) (w : Z) (total : Q) (p : Z)
    (pages : list page) :
  compute_page_boundaries segs w total p = Returns pages ->
  pages <> [] ->
  (exists pg, head pages = Some pg /\ start_time pg = 0%Q) /\
  (exists pg, last pages = Some pg /\ end_time pg = total).
Proof.
  intros Hret Hne. unfold compute_page_boundaries in Hret.
  destruct segs as [|s segs]; [inversion Hret; congruence|].
  destruct (p =? 0); [discriminate|]. inversion Hret as [Hpages]. clear Hret.
  set (np := Z.max 1 (ceil_div w p)) in *.
  set (f := page_at (s :: segs) w total p np) in *.
  assert (Hnp : (0 < Z.to_nat np)%nat) by lia.
  split.
  - exists (f 0). split; [|reflexivity].
    rewrite head_lookup. apply pages_lookup. split; [reflexivity | exact Hnp].
  - exists (f (np - 1)). split.
    + rewrite last_lookup, length_map, range_length.
      apply pages_lookup. split; [f_equal; lia | lia].
    + unfold f, page_at. cbn [end_time]. rewrite Z.eqb_refl. reflexivity.
Qed.

Lemma C4_boundary_pinning_witness :
  compute_page_boundaries sparse_segments 27 13 12 = Returns sparse_pages /\
  sparse_pages <> [] /\
  (exists pg, head sparse_pages = Some pg /\ start_time pg = 0%Q) /\
  (exists pg, last sparse_pages = Some pg /\ end_time pg = 13%Q).
Proof.
  assert (H1 : compute_page_boundaries sparse_segments 27 13 12 = Returns sparse_pages)
    by (vm_compute; reflexivity).
  assert (H2 : sparse_pages <> []) by discriminate.
  split; [exact H1|]. split; [exact H2|].
  exact (C4_boundary_pinning sparse_segments 27 13 12 sparse_pages H1 H2).
Defined.

(** A page that is neither the first nor the last and into whose word range
    no segment falls keeps both fallbacks: it starts at [total_duration] and
    ends at [0.0]. *)
Lemma empty_page_keeps_fallbacks (segs : list segment) (w : Z) (total : Q)
    (ps np p : Z) :
  p <> 0 -> p <> np - 1 ->
  (forall seg, In seg segs ->
     ~ (p * ps <= word_index seg - 1
        <= Z.min ((p + 1) * ps - 1) (w - 1))) ->
  start_time (page_at segs w total ps np p) = total /\
  end_time (page_at segs w total ps np p) = 0%Q.
Proof.
  intros H0 Hlast Hnone. unfold page_at. cbn [start_time end_time].
  destruct (Z.eqb_spec p 0); [contradiction|].
  destruct (Z.eqb_spec p (np - 1)); [contradiction|].
  assert (Hfold : forall acc,
    fold_left (scan_step (p * ps) (Z.min ((p + 1) * ps - 1) (w - 1))) segs acc = acc).
  { induction segs as [|seg rest IH]; intros acc; [reflexivity|].
    cbn [fold_left]. unfold scan_step at 2.
    destruct (Z.leb_spec (p * ps) (word_index seg - 1));
      destruct (Z.leb_spec (word_index seg - 1) (Z.min ((p + 1) * ps - 1) (w - 1)));
      cbn [andb];
      try (apply IH; intros s' Hs'; apply Hnone; now right).
    exfalso. apply (Hnone seg); [now left | lia]. }
  rewrite Hfold. split; reflexivity.
Qed.

(** C5 fails on the code: with timings for words 1 and 25 only (36 words,
    pages of 12, duration 13 s) no segment falls into the middle page, whose
    [start_time] stays at the fallback [total_duration] and whose [end_time]
    stays at [0.0]; [end_time > start_time] does not hold for it. *)
Theorem C5_empty_middle_page_is_inverted :
  exists first middle final,
    compute_page_boundaries [mkSegment 1 0 400; mkSegment 25 12000 12500] 36 13 12
      = Returns [first; middle; final] /\
    word_start_idx middle = 12 /\ word_end_idx middle = 23 /\
    start_time middle = 13%Q /\ end_time middle = 0%Q /\
    ~ (start_time middle < end_time middle)%Q.
Proof.
  do 3 eexists. split; [vm_compute; reflexivity|].
  cbn. repeat split. intros H. discriminate H.
Qed.

End PagesProofs.

Module StringFacts.

Lemma append_nil s : String.append EmptyString s = s.
Proof. reflexivity. Qed.

Lemma append_cons c s1 s2 :
  String.append (String c s1) s2 = String c (String.append s1 s2).
Proof. reflexivity. Qed.

Lemma append_empty_r s : String.append s EmptyString = s.
Proof.
  induction s as [|c s IH]; [reflexivity|]. now rewrite append_cons, IH.
Qed.

Lemma append_assoc s1 s2 s3 :
  String.append (String.append s1 s2) s3 = String.append s1 (String.append s2 s3).
Proof.
  induction s1 as [|c s1 IH]; [reflexivity|]. now rewrite !append_cons, IH.
Qed.

Lemma no_space_append s1 s2 :
  no_space (String.append s1 s2) = no_space s1 && no_space s2.
Proof.
  induction s1 as [|c s1 IH]; [reflexivity|].
  rewrite append_cons. cbn [no_space]. rewrite IH. now rewrite andb_assoc.
Qed.

Lemma nonempty_append_l s1 s2 :
  nonempty s1 = true -> nonempty (String.append s1 s2) = true.
Proof. destruct s1; [discriminate | reflexivity]. Qed.

Lemma flush_wordlike cur :
  no_space cur = true -> Forall wordlike (flush cur).
Proof.
  intros H. destruct cur; simpl; constructor; [|constructor].
  split; [reflexivity | exact H].
Qed.

Lemma split_aux_wordlike s : forall cur,
  no_space cur = true -> Forall wordlike (split_aux cur s).
Proof.
  induction s as [|c s IH]; intros cur Hcur; simpl.
  - now apply flush_wordlike.
  - destruct (is_space c) eqn:E.
    + apply Forall_app. split; [now apply flush_wordlike | now apply IH].
    + apply IH. rewrite no_space_append, Hcur. cbn [no_space]. now rewrite E.
Qed.

Lemma split_wordlike s : Forall wordlike (split s).
Proof. now apply split_aux_wordlike. Qed.

(** Reading a whitespace-free word only grows the word in progress. *)
Lemma split_aux_word w : forall cur s,
  no_space w = true ->
  split_aux cur (String.append w s) = split_aux (String.append cur w) s.
Proof.
  induction w as [|c w IH]; intros cur s Hw.
  - now rewrite append_nil, append_empty_r.
  - cbn [no_space] in Hw. apply andb_true_iff in Hw as [Hc Hw].
    apply negb_true_iff in Hc. rewrite append_cons. cbn [split_aux]. rewrite Hc.
    rewrite IH by exact Hw. now rewrite append_assoc.
Qed.

Lemma join_cons sep x y rest :
  join sep (x :: y :: rest) = String.append x (String.append sep (join sep (y :: rest))).
Proof. reflexivity. Qed.

Lemma split_join ws :
  Forall wordlike ws -> split (join " " ws) = ws.
Proof.
  unfold split. induction 1 as [|w ws [Hne Hns] Hws IH]; [reflexivity|].
  destruct ws as [|w' ws].
  - cbn [join]. rewrite <- (append_empty_r w) at 1.
    rewrite split_aux_word by exact Hns. rewrite append_nil. cbn [split_aux].
    destruct w; [discriminate | reflexivity].
  - rewrite join_cons, split_aux_word by exact Hns.
    rewrite append_nil.
    change (String.append " " (join " " (w' :: ws)))
      with (String " "%char (join " " (w' :: ws))).
    cbn [split_aux]. change (is_space " "%char) with true. cbv iota.
    rewrite IH. destruct w; [discriminate | reflexivity].
Qed.

Lemma join_app sep l1 l2 :
  l1 <> [] -> l2 <> [] ->
  join sep (l1 ++ l2) = String.append (join sep l1) (String.append sep (join sep l2)).
Proof.
  intros H1 H2. induction l1 as [|x l1 IH]; [congruence|].
  destruct l1 as [|y l1].
  - destruct l2; [congruence | reflexivity].
  - change ((x :: y :: l1) ++ l2) with (x :: y :: (l1 ++ l2)).
    rewrite !join_cons. change (y :: l1 ++ l2) with ((y :: l1) ++ l2).
    rewrite IH by discriminate. now rewrite !append_assoc.
Qed.

Lemma join_nonempty sep l :
  Forall wordlike l -> l <> [] -> nonempty (join sep l) = true.
Proof.
  intros Hl Hne. destruct l as [|x l]; [congruence|].
  apply Forall_cons in Hl as [[Hx _] _].
  destruct l; [exact Hx | now apply nonempty_append_l].
Qed.

(** Joining the non-empty joined chunks is joining all the words. *)
Lemma join_chunks (chunks : list (list string)) :
  Forall wordlike (concat chunks) ->
  join " " (List.filter nonempty (map (join " ") chunks)) = join " " (concat chunks)
  /\ (List.filter nonempty (map (join " ") chunks) = [] <-> concat chunks = []).
Proof.
  induction chunks as [|c cs IH]; intros Hall; [split; [reflexivity | tauto]|].
  simpl in Hall. apply Forall_app in Hall as [Hc Hcs].
  destruct (IH Hcs) as [IHj IHe]. simpl.
  destruct c as [|x c].
  - simpl. split; assumption.
  - rewrite (join_nonempty " " (x :: c) Hc) by discriminate.
    split; [|split; discriminate].
    destruct (concat cs) as [|y ys] eqn:E.
    + rewrite (proj2 IHe eq_refl). now rewrite app_nil_r.
    + destruct (List.filter nonempty (map (join " ") cs)) as [|s ss] eqn:F.
      * exfalso. pose proof (proj1 IHe eq_refl). discriminate.
      * rewrite join_app by discriminate.
        cbn [List.filter map] in *. rewrite join_cons, IHj. reflexivity.
Qed.

End StringFacts.

Module TranslationProofs.
Import Pages Translation StringFacts Examples.

Section Loop.
Variables (words : list string) (n_trans_words n_pages total_word_count : Z).

Let step := split_step words n_trans_words n_pages total_word_count.

Local Abbreviation chunked := (Translation.chunked words).

Lemma slice_from_consumed (m : nat) :
  slice_from words (Z.of_nat m) = drop m words.
Proof.
  unfold slice_from. destruct (Z.ltb_spec (Z.of_nat m) 0); [lia|].
  now rewrite Nat2Z.id.
Qed.

Lemma slice_consumed (m : nat) (count : Z) :
  (m <= length words)%nat -> 1 <= count ->
  exists j, slice words (Z.of_nat m) (Z.of_nat m + count) = take j (drop m words).
Proof.
  intros Hm Hc. unfold slice.
  destruct (Z.ltb_spec (Z.of_nat m) 0); [lia|].
  destruct (Z.ltb_spec (Z.of_nat m + count) 0); [lia|].
  rewrite (Z.min_l (Z.of_nat m)) by lia. rewrite Nat2Z.id.
  eexists. reflexivity.
Qed.

Lemma step_last st chunks pb :
  chunked st chunks ->
  exists chunk,
    fst (step st (n_pages - 1, pb)) = map (join " ") (chunks ++ [chunk]) /\
    concat (chunks ++ [chunk]) = words.
Proof.
  intros [Hseg (m & Hm & Hcat & Hcons)]. destruct st as [segments consumed].
  simpl in Hseg, Hcons. subst segments consumed.
  exists (drop m words). unfold step, split_step.
  rewrite Z.eqb_refl, slice_from_consumed. cbn [fst]. split.
  - now rewrite map_app.
  - rewrite concat_app, Hcat. cbn [concat]. rewrite app_nil_r.
    apply take_drop.
Qed.

Lemma step_inner st chunks i pb :
  chunked st chunks -> i <> n_pages - 1 ->
  exists chunk, chunked (step st (i, pb)) (chunks ++ [chunk]).
Proof.
  intros [Hseg (m & Hm & Hcat & Hcons)] Hi. destruct st as [segments consumed].
  simpl in Hseg, Hcons. subst segments consumed.
  unfold step, split_step.
  destruct (Z.eqb_spec i (n_pages - 1)); [lia|].
  match goal with |- context [slice words _ (_ + ?c)] => set (count := c) end.
  destruct (slice_consumed m count Hm ltac:(unfold count; lia)) as [j Hj].
  rewrite Hj. exists (take j (drop m words)). split; cbn [fst snd].
  - now rewrite map_app.
  - exists (m + length (take j (drop m words)))%nat. split; [|split].
    + rewrite length_take, length_drop. lia.
    + rewrite concat_app, Hcat. cbn [concat]. rewrite app_nil_r.
      rewrite take_take_drop. rewrite length_take, length_drop.
      destruct (Nat.le_ge_cases j (length words - m)) as [H|H].
      * now rewrite Nat.min_l by exact H.
      * rewrite Nat.min_r by exact H.
        rewrite !take_ge; [reflexivity | lia | lia].
    + lia.
Qed.

(** Running the loop on the pages from index [k] on, when they end at index
    [n_pages - 1]. *)
Lemma loop_chunks (l : list page) : forall (k : nat) st chunks,
  l <> [] -> Z.of_nat k + Z.of_nat (length l) = n_pages ->
  chunked st chunks ->
  exists chunks',
    fst (fold_left step (combine (map Z.of_nat (seq k (length l))) l) st)
      = map (join " ") chunks' /\
    concat chunks' = words /\
    length chunks' = (length chunks + length l)%nat.
Proof.
  induction l as [|pb l IH]; intros k st chunks Hne Hlen Hinv; [congruence|].
  destruct l as [|pb' l].
  - cbn [length seq map combine fold_left] in *.
    replace (Z.of_nat k) with (n_pages - 1) by lia.
    destruct (step_last st chunks pb Hinv) as (chunk & Hseg & Hcat).
    exists (chunks ++ [chunk]). rewrite length_app. auto.
  - cbn [length] in Hlen.
    change (length (pb :: pb' :: l)) with (S (length (pb' :: l))).
    cbn [seq map combine fold_left].
    destruct (step_inner st chunks (Z.of_nat k) pb Hinv ltac:(lia)) as [chunk Hinv'].
    destruct (IH (S k) _ _ ltac:(discriminate) ltac:(cbn [length]; lia) Hinv')
      as (chunks' & Hseg & Hcat & Hlen').
    exists chunks'. rewrite length_app in Hlen'. cbn [length] in *.
    repeat split; [exact Hseg | exact Hcat | lia].
Qed.

End Loop.

(** The segments of a multi-page split, as chunks of the word list. *)
Lemma split_chunks translation (pages : list page) total :
  (1 < length pages)%nat ->
  exists chunks,
    split_translation_by_pages translation pages total = map (join " ") chunks /\
    concat chunks = split translation /\
    length chunks = length pages.
Proof.
  intros Hn. unfold split_translation_by_pages.
  destruct (negb (nonempty translation) || (length pages =? 0)%nat) eqn:E.
  - apply orb_true_iff in E as [E|E]; [|apply Nat.eqb_eq in E; lia].
    destruct translation; [|discriminate].
    exists (replicate (length pages) []).
    rewrite Nat.max_r by lia. repeat split.
    + clear. induction (length pages); [reflexivity|]. simpl. now f_equal.
    + clear. induction (length pages); [reflexivity|]. simpl. assumption.
    + apply length_replicate.
  - destruct (Z.leb_spec (Z.of_nat (length pages)) 1); [lia|].
    destruct (loop_chunks (split translation) (Z.of_nat (length (split translation)))
                (Z.of_nat (length pages)) total pages 0 ([], 0) [])
      as (chunks & Hseg & Hcat & Hlen).
    + destruct pages; [simpl in Hn; lia | discriminate].
    + lia.
    + split; [reflexivity|]. exists 0%nat. repeat split. lia.
    + unfold enumerate.
      destruct (fold_left _ _ _) as [segments consumed] eqn:F.
      cbn [fst] in Hseg. exists chunks. unfold fill_trailing.
      rewrite Hseg, length_map, Hlen. cbn [length].
      replace (Z.to_nat _) with 0%nat by lia.
      cbn [replicate]. rewrite app_nil_r. auto.
Qed.

(** C3: for every translation and every page list with more than one page,
    the returned segments are the joins of consecutive chunks of the
    translation's word list, one per page, whose concatenation is the whole
    list, the last chunk being all the words that remain; joining the
    non-empty segments with single spaces gives the space-joined word list,
    which splits back into the translation's words. *)
Theorem C3_translation_lossless (translation : string) (pages : list page)
    (total : Z) :
  (1 < length pages)%nat ->
  let segments := split_translation_by_pages translation pages total in
  let words := split translation in
  (exists init final,
     segments = map (join " ") (init ++ [final]) /\
     length (init ++ [final]) = length pages /\
     concat (init ++ [final]) = words /\
     final = drop (length (concat init)) words) /\
  join " " (List.filter nonempty segments) = join " " words /\
  split (join " " (List.filter nonempty segments)) = words.
Proof.
  intros Hn segments words.
  destruct (split_chunks translation pages total Hn) as (chunks & Hseg & Hcat & Hlen).
  fold segments in Hseg. fold words in Hcat.
  assert (Hwl : Forall wordlike (concat chunks)).
  { rewrite Hcat. apply split_wordlike. }
  destruct (join_chunks chunks Hwl) as [Hjoin _].
  rewrite <- Hseg, Hcat in Hjoin.
  split; [|split].
  - destruct (exists_last (l := chunks)) as (init & final & E).
    { intros ->. simpl in Hlen. lia. }
    exists init, final. subst chunks. repeat split; try assumption.
    rewrite concat_app in Hcat. cbn [concat] in Hcat. rewrite app_nil_r in Hcat.
    rewrite <- Hcat. now rewrite drop_app_length.
  - exact Hjoin.
  - rewrite Hjoin. apply split_join. apply split_wordlike.
Qed.

Lemma C3_translation_lossless_witness :
  (1 < length two_pages)%nat /\
  (exists init final,
     split_translation_by_pages "In the name of  Allah the Merciful" two_pages 15
       = map (join " ") (init ++ [final]) /\
     length (init ++ [final]) = length two_pages /\
     concat (init ++ [final]) = split "In the name of  Allah the Merciful" /\
     final = drop (length (concat init))
               (split "In the name of  Allah the Merciful")) /\
  join " " (List.filter nonempty
              (split_translation_by_pages "In the name of  Allah the Merciful"
                 two_pages 15))
    = join " " (split "In the name of  Allah the Merciful") /\
  split (join " " (List.filter nonempty
                     (split_translation_by_pages "In the name of  Allah the Merciful"
                        two_pages 15)))
    = split "In the name of  Allah the Merciful".
Proof.
  assert (H : (1 < length two_pages)%nat) by (cbn; lia).
  split; [exact H|].
  exact (C3_translation_lossless "In the name of  Allah the Merciful" two_pages 15 H).
Defined.

(** The scenario of the specification: seven words over spans of 12 and 3
    of 15 words give six words and one. *)
Example split_bismillah :
  split_translation_by_pages "In the name of Allah the Merciful" two_pages 15
  = ["In the name of Allah the"; "Merciful"].
Proof. vm_compute. reflexivity. Qed.

(** C8, as stated, fails on the empty page list: one segment comes back for
    zero pages. *)
Lemma C8_no_pages_one_segment :
  split_translation_by_pages "peace" [] 1 = ["peace"] /\
  length (split_translation_by_pages "peace" [] 1) <> length (@nil page).
Proof. split; [reflexivity | discriminate]. Qed.

(** C8 (amended): [split_translation_by_pages] returns a list of
    [max(1, len(pages))] segments, which is the number of pages unless there
    is none; when the translation is empty or the page list is empty it
    returns the translation repeated [max(1, len(pages))] times, and when
    there is exactly one page it returns [[translation]]. *)
Theorem C8_split_length (translation : string) (pages : list page) (total : Z) :
  length (split_translation_by_pages translation pages total)
    = Nat.max 1 (length pages) /\
  (pages <> [] ->
   length (split_translation_by_pages translation pages total) = length pages) /\
  (translation = EmptyString \/ pages = [] ->
   split_translation_by_pages translation pages total
     = replicate (Nat.max 1 (length pages)) translation) /\
  (length pages = 1%nat ->
   split_translation_by_pages translation pages total = [translation]).
Proof.
  assert (Hlen : length (split_translation_by_pages translation pages total)
                 = Nat.max 1 (length pages)).
  { destruct (Nat.le_gt_cases (length pages) 1) as [Hle|Hgt].
    - unfold split_translation_by_pages.
      destruct (negb (nonempty translation) || (length pages =? 0)%nat) eqn:E.
      + apply length_replicate.
      + destruct (Z.leb_spec (Z.of_nat (length pages)) 1); [|lia].
        apply orb_false_iff in E as [_ E]. apply Nat.eqb_neq in E.
        simpl. lia.
    - destruct (split_chunks translation pages total Hgt) as (chunks & -> & _ & Hl).
      rewrite length_map, Hl. lia. }
  split; [exact Hlen|]. split; [|split].
  - intros Hne. rewrite Hlen. destruct pages; [congruence | simpl; lia].
  - intros H. unfold split_translation_by_pages.
    destruct H as [-> | ->]; [reflexivity|].
    now rewrite orb_true_r.
  - intros H1. unfold split_translation_by_pages.
    destruct (negb (nonempty translation) || (length pages =? 0)%nat) eqn:E.
    + rewrite H1. apply orb_true_iff in E as [E|E].
      * destruct translation; [reflexivity | discriminate].
      * apply Nat.eqb_eq in E. lia.
    + destruct (Z.leb_spec (Z.of_nat (length pages)) 1); [reflexivity | lia].
Qed.

End TranslationProofs.

Module TimelineProofs.
Import Pages Timeline StringFacts Examples PyFacts.

Lemma slice_from_nonneg {A} (l : list A) (k : Z) :
  0 <= k -> slice_from l k = drop (Z.to_nat k) l.
Proof. intros H. unfold slice_from. destruct (Z.ltb_spec k 0); [lia | reflexivity]. Qed.

Section Build.
Variables (ps : Z) (total : Q) (wm : gmap Z string).
Hypothesis Hps : 1 <= ps.

(** The state at position [j] shows the words of its page up to word
    [length cw + j] of the unit. *)
Lemma build_states_lookup (segs : list segment) : forall cw states j s,
  build_states ps total wm segs cw = Returns states ->
  states !! j = Some s ->
  exists w, emitted_texts wm segs !! j = Some w /\
    st_page s = Z.of_nat (length cw + j) / ps /\
    st_text s = join " " (drop (Z.to_nat (st_page s * ps))
                            (cw ++ take (S j) (emitted_texts wm segs))).
Proof.
  induction segs as [|seg rest IH]; intros cw states j s Hb Hj.
  - cbn in Hb. inversion Hb; subst. rewrite lookup_nil in Hj. discriminate.
  - cbn [build_states] in Hb. unfold emitted_texts. cbn [map List.filter].
    fold (emitted_texts wm rest).
    destruct (nonempty (default EmptyString (wm !! word_index seg))) eqn:E;
      cbn [negb] in Hb; cbv iota in Hb.
    + destruct (Z.eqb_spec ps 0); [lia|].
      destruct (build_states ps total wm rest _) as [states'|] eqn:Hb';
        cbn [bind] in Hb; [|discriminate].
      inversion Hb; subst states; clear Hb.
      set (text := default EmptyString (wm !! word_index seg)) in *.
      destruct j as [|j].
      * cbn in Hj. inversion Hj; subst s; clear Hj. cbn [st_page st_text].
        exists text. split; [reflexivity|].
        rewrite length_app. cbn [length].
        replace (Z.of_nat (length cw + 1)%nat - 1) with (Z.of_nat (length cw + 0))
          by lia.
        split; [reflexivity|].
        rewrite slice_from_nonneg.
        2:{ apply Z.mul_nonneg_nonneg; [apply Z.div_pos|]; lia. }
        cbn [take]. reflexivity.
      * cbn in Hj. destruct (IH _ _ _ _ Hb' Hj) as (w & Hw & Hpage & Htext).
        exists w. split; [exact Hw|]. rewrite length_app in Hpage.
        cbn [length] in Hpage. split.
        -- rewrite Hpage. f_equal. lia.
        -- rewrite Htext. rewrite <- app_assoc. reflexivity.
    + apply (IH _ _ _ _ Hb Hj).
Qed.

End Build.

Lemma emitted_texts_nonempty wm segs j w :
  emitted_texts wm segs !! j = Some w ->
  w <> EmptyString /\
  exists seg, In seg segs /\ wm !! word_index seg = Some w.
Proof.
  intros H. apply list_elem_of_lookup_2, list_elem_of_In in H.
  unfold emitted_texts in H. apply filter_In in H as [Hin Hne].
  apply in_map_iff in Hin as (seg & Hseg & Hin).
  split; [intros ->; discriminate|].
  exists seg. split; [exact Hin|].
  destruct (wm !! word_index seg) as [v|]; cbn in Hseg; subst; [reflexivity|].
  discriminate.
Qed.

Lemma page_step (ps j : Z) :
  1 <= ps -> 0 <= j ->
  ((j + 1) / ps = j / ps /\ j / ps * ps <= j) \/
  ((j + 1) / ps = j / ps + 1 /\ (j + 1) / ps * ps = j + 1).
Proof.
  intros Hps Hj.
  pose proof (Z.div_mod j ps ltac:(lia)).
  pose proof (Z.mod_pos_bound j ps ltac:(lia)).
  pose proof (Z.div_mod (j + 1) ps ltac:(lia)).
  pose proof (Z.mod_pos_bound (j + 1) ps ltac:(lia)).
  nia.
Qed.

Lemma insert_by_start_In x y l :
  In y (insert_by_start x l) <-> y = x \/ In y l.
Proof.
  induction l as [|z l IH]; cbn [insert_by_start].
  - cbn. intuition.
  - destruct (start_ms x <=? start_ms z); cbn [In] in *; [intuition|].
    rewrite IH. intuition.
Qed.

Lemma sorted_In y l : In y (sorted l) <-> In y l.
Proof.
  induction l as [|x l IH]; [reflexivity|].
  cbn [sorted foldr]. fold (sorted l).
  rewrite insert_by_start_In, IH. cbn. intuition.
Qed.

(** C6, as stated, fails for a negative page size.  With [page_size = -3]
    the second and the third state are both on page [-1]
    ([1 // -3 = 2 // -3 = -1]) and both show the empty string
    ([current_words[3:]]), so the later string is not the earlier one with
    one more word. *)
Lemma C6_negative_page_size :
  exists states s1 s2,
    text_states fast_segments fast_words 1 (mkStyle (-3) (1 # 2))
    = Returns states /\
    states !! 1%nat = Some s1 /\ states !! 2%nat = Some s2 /\
    st_page s1 = -1 /\ st_page s2 = st_page s1 /\
    st_text s1 = EmptyString /\ st_text s2 = EmptyString /\
    ~ (exists w, w <> EmptyString /\
         st_text s2 = String.append (st_text s1) (String.append " " w)).
Proof.
  eexists. eexists. eexists.
  split; [vm_compute; reflexivity|].
  split; [reflexivity|]. split; [reflexivity|].
  split; [reflexivity|]. split; [reflexivity|].
  split; [reflexivity|]. split; [reflexivity|].
  intros (w & _ & H). cbn [st_text] in H. rewrite append_nil in H.
  discriminate.
Qed.

(** C6 (amended): in the state list built by [create_accumulating_text_lines]
    for a page size of at least 1, two consecutive states are either on the
    same page, and then the later display string is the earlier one followed
    by a space and exactly one more word (the earlier word list is a prefix
    of the later), or the later state is on the next page, and then its
    display string is that single word alone.  The word is the non-empty
    text mapped to one of the segments. *)
Theorem C6_monotonic_accumulation (segments : list segment) (words : list word)
    (total : Q) (style : StyleConfig) (states : list state) (i : nat)
    (s1 s2 : state) :
  1 <= page_size style ->
  text_states segments words total style = Returns states ->
  states !! i = Some s1 -> states !! S i = Some s2 ->
  exists w,
    w <> EmptyString /\
    (exists seg, In seg segments /\
                 make_word_map words !! word_index seg = Some w) /\
    (st_page s2 = st_page s1 \/ st_page s2 = st_page s1 + 1) /\
    (st_page s2 = st_page s1 ->
     exists ws, ws <> [] /\
       st_text s1 = join " " ws /\
       st_text s2 = join " " (ws ++ [w]) /\
       st_text s2 = String.append (st_text s1) (String.append " " w)) /\
    (st_page s2 = st_page s1 + 1 -> st_text s2 = w).
Proof.
  intros Hps Hb H1 H2. unfold text_states in Hb.
  set (texts := emitted_texts (make_word_map words) (sorted segments)).
  destruct (build_states_lookup _ total _ Hps _ _ _ _ _ Hb H1)
    as (w1 & Hw1 & Hp1 & Ht1).
  destruct (build_states_lookup _ total _ Hps _ _ _ _ _ Hb H2)
    as (w & Hw & Hp2 & Ht2).
  fold texts in Hw1, Hw, Ht1, Ht2. cbn [length Nat.add app] in *.
  destruct (emitted_texts_nonempty _ _ _ _ Hw) as (Hne & seg & Hin & Hseg).
  exists w. split; [exact Hne|]. split.
  { exists seg. split; [now apply sorted_In | exact Hseg]. }
  assert (Hlen : (S i < length texts)%nat) by (eapply lookup_lt_Some; exact Hw).
  assert (Htake : take (S (S i)) texts = take (S i) texts ++ [w])
    by (now apply take_S_r).
  assert (Hlt : length (take (S i) texts) = S i)
    by (rewrite length_take; lia).
  replace (Z.of_nat (S i)) with (Z.of_nat i + 1) in Hp2 by lia.
  destruct (page_step (page_size style) (Z.of_nat i) Hps ltac:(lia))
    as [[Hq Hle] | [Hq Hmul]]; rewrite <- Hp1, <- Hp2 in *.
  - split; [left; exact Hq|]. split; [|intros; lia].
    intros _. exists (drop (Z.to_nat (st_page s1 * page_size style)) (take (S i) texts)).
    assert (Hws : drop (Z.to_nat (st_page s1 * page_size style)) (take (S i) texts)
                  <> []).
    { intros E. apply (f_equal length) in E. rewrite length_drop, Hlt in E.
      cbn in E. lia. }
    assert (Ht2' : st_text s2 =
      join " " (drop (Z.to_nat (st_page s1 * page_size style)) (take (S i) texts)
                ++ [w])).
    { rewrite Ht2, Hq, Htake. f_equal. apply drop_app_le. lia. }
    repeat split; [exact Hws | exact Ht1 | exact Ht2' |].
    rewrite Ht2', join_app by (exact Hws || discriminate).
    now rewrite <- Ht1.
  - split; [right; exact Hq|]. split; [intros; lia|].
    intros _. rewrite Ht2, Hmul, Htake.
    replace (Z.to_nat (Z.of_nat i + 1)) with (length (take (S i) texts)) by lia.
    rewrite drop_app_length. reflexivity.
Qed.

Lemma C6_monotonic_accumulation_witness :
  1 <= page_size paged_style /\
  text_states fast_segments fast_words 1 paged_style = Returns paged_states /\
  exists w,
    w <> EmptyString /\
    (exists seg, In seg fast_segments /\
                 make_word_map fast_words !! word_index seg = Some w) /\
    (0 = 0 \/ 0 = 0 + 1) /\
    (0 = 0 ->
     exists ws, ws <> [] /\
       "a" = join " " ws /\
       "a bb" = join " " (ws ++ [w]) /\
       "a bb" = String.append "a" (String.append " " w)) /\
    (0 = 0 + 1 -> "a bb" = w).
Proof.
  assert (H1 : 1 <= page_size paged_style) by (cbn; lia).
  assert (H2 : text_states fast_segments fast_words 1 paged_style
               = Returns paged_states) by (vm_compute; reflexivity).
  split; [exact H1|]. split; [exact H2|].
  exact (C6_monotonic_accumulation fast_segments fast_words 1 paged_style
           paged_states 0
           (mkState (0 # 1000) (100 # 1000) 0 "a")
           (mkState (100 # 1000) (200 # 1000) 0 "a bb")
           H1 H2 eq_refl eq_refl).
Defined.

(** *** Start times are in order *)

Lemma insert_by_start_sorted x l :
  StronglySorted by_start l -> StronglySorted by_start (insert_by_start x l).
Proof.
  induction 1 as [|y l Hl IH Hy]; cbn [insert_by_start].
  - repeat constructor.
  - destruct (Z.leb_spec (start_ms x) (start_ms y)).
    + constructor; [now constructor|].
      constructor; [assumption|].
      eapply Forall_impl; [exact Hy|]. unfold by_start. intros; cbn in *; lia.
    + constructor; [exact IH|].
      apply List.Forall_forall. intros z Hz.
      apply insert_by_start_In in Hz as [->|Hz].
      * unfold by_start. lia.
      * rewrite List.Forall_forall in Hy. now apply Hy.
Qed.

Lemma sorted_is_sorted l : StronglySorted by_start (sorted l).
Proof.
  induction l as [|x l IH]; [constructor|].
  cbn [sorted foldr]. now apply insert_by_start_sorted.
Qed.

Lemma ms_to_s_le a b : a <= b -> (ms_to_s a <= ms_to_s b)%Q.
Proof.
  intros H. unfold ms_to_s. apply Qmult_le_r; [reflexivity|].
  now rewrite <- Zle_Qle.
Qed.

Lemma build_states_lower_bound ps total wm (m : Z) (segs : list segment) :
  forall cw states,
  Forall (fun seg => m <= start_ms seg) segs ->
  build_states ps total wm segs cw = Returns states ->
  Forall (fun s => (ms_to_s m <= st_start s)%Q) states.
Proof.
  induction segs as [|seg rest IH]; intros cw states Hall Hb.
  - cbn in Hb. inversion Hb. constructor.
  - apply Forall_cons in Hall as [Hseg Hrest]. cbn [build_states] in Hb.
    destruct (negb _).
    + now apply (IH _ _ Hrest Hb).
    + destruct (ps =? 0); [discriminate|].
      destruct (build_states ps total wm rest _) as [states'|] eqn:Hb';
        cbn [bind] in Hb; [|discriminate].
      inversion Hb; subst states. constructor.
      * cbn [st_start]. now apply ms_to_s_le.
      * now apply (IH _ _ Hrest Hb').
Qed.

(** No state starts before the first one. *)
Lemma build_states_head_first ps total wm (segs : list segment) :
  forall cw s0 states,
  StronglySorted by_start segs ->
  build_states ps total wm segs cw = Returns (s0 :: states) ->
  Forall (fun s => (st_start s0 <= st_start s)%Q) states.
Proof.
  induction segs as [|seg rest IH]; intros cw s0 states Hs Hb.
  - cbn in Hb. discriminate.
  - apply StronglySorted_inv in Hs as [Hs Hseg]. cbn [build_states] in Hb.
    destruct (negb _).
    + now apply (IH _ _ _ Hs Hb).
    + destruct (ps =? 0); [discriminate|].
      destruct (build_states ps total wm rest _) as [states'|] eqn:Hb';
        cbn [bind] in Hb; [|discriminate].
      inversion Hb; subst. cbn [st_start].
      now apply (build_states_lower_bound _ _ _ _ _ _ _ Hseg Hb').
Qed.

(** *** The state lookup *)

Section Lookup.
Variable render_text : string -> frame.

Lemma first_match_none (l : list state) (t : Q) :
  first_match render_text l t = None <->
  forall s, In s l -> in_interval s t = false.
Proof.
  induction l as [|s l IH]; cbn [first_match].
  - split; [intros _ s [] | reflexivity].
  - destruct (in_interval s t) eqn:E.
    + split; [discriminate|]. intros H. specialize (H s (or_introl eq_refl)).
      congruence.
    + rewrite IH. cbn [In]. split.
      * intros H s' [<-|Hin]; auto.
      * intros H s' Hin. apply H. now right.
Qed.

Lemma first_match_app pre s post t :
  (forall s', In s' pre -> in_interval s' t = false) ->
  in_interval s t = true ->
  first_match render_text (pre ++ s :: post) t = Some (render_text (st_text s)).
Proof.
  intros Hpre Hs. induction pre as [|s' pre IH]; cbn [app first_match].
  - now rewrite Hs.
  - rewrite (Hpre s' (or_introl eq_refl)). apply IH.
    intros s'' Hin. apply Hpre. now right.
Qed.

Lemma before_start_not_inside s t :
  (t < st_start s)%Q -> in_interval s t = false.
Proof.
  intros H. unfold in_interval, Qleb.
  destruct (Qle_bool (st_start s) t) eqn:E; [|reflexivity].
  apply Qle_bool_iff in E. exfalso. exact (Qlt_not_le _ _ H E).
Qed.

End Lookup.

(** C10: for a state list built by [create_accumulating_text_lines] and a
    query time [t] strictly before the first state's start, [t] lies in no
    state's interval and [_get_state_at] returns the empty frame.  For any
    state list: when no interval holds the query time, the last state is
    returned exactly when the time is at or after the last state's start, and
    the empty frame otherwise; when intervals overlap, the first state in list
    order whose interval holds the time is returned. *)
Theorem C10_state_lookup (render_text : string -> frame)
    (segments : list segment) (words : list word) (total : Q)
    (style : StyleConfig) (states : list state) (first : state) (t : Q) :
  text_states segments words total style = Returns states ->
  head states = Some first ->
  (t < st_start first)%Q ->
  (forall s, In s states -> in_interval s t = false) /\
  _get_state_at render_text states t = empty_frame /\
  (forall (l : list state) (t' : Q) (final : state),
     last l = Some final ->
     (forall s, In s l -> in_interval s t' = false) ->
     _get_state_at render_text l t'
       = if Qleb (st_start final) t' then render_text (st_text final)
         else empty_frame) /\
  (forall (pre post : list state) (s : state) (t' : Q),
     (forall s', In s' pre -> in_interval s' t' = false) ->
     in_interval s t' = true ->
     _get_state_at render_text (pre ++ s :: post) t' = render_text (st_text s)).
Proof.
  intros Hb Hhd Ht.
  assert (Hlast : forall (l : list state) (t' : Q) (final : state),
     last l = Some final ->
     (forall s, In s l -> in_interval s t' = false) ->
     _get_state_at render_text l t'
       = if Qleb (st_start final) t' then render_text (st_text final)
         else empty_frame).
  { intros l t' final Hl Hnone. unfold _get_state_at.
    rewrite (proj2 (first_match_none render_text l t') Hnone), Hl. reflexivity. }
  destruct states as [|s0 rest]; [discriminate|].
  cbn in Hhd. inversion Hhd; subst s0; clear Hhd.
  pose proof (build_states_head_first _ _ _ _ _ _ _
                (sorted_is_sorted segments) Hb) as Hmin.
  rewrite List.Forall_forall in Hmin.
  assert (Hall : forall s, In s (first :: rest) -> (t < st_start s)%Q).
  { intros s [<-|Hin]; [exact Ht|].
    eapply Qlt_le_trans; [exact Ht | now apply Hmin]. }
  assert (Hnone : forall s, In s (first :: rest) -> in_interval s t = false).
  { intros s Hin. apply before_start_not_inside. now apply Hall. }
  split; [exact Hnone|]. split; [|split; [exact Hlast|]].
  - destruct (last (first :: rest)) as [final|] eqn:Hl.
    + rewrite (Hlast _ _ _ Hl Hnone).
      assert (Hin : In final (first :: rest)).
      { apply last_Some in Hl as [l' ->]. apply in_or_app. right. now left. }
      unfold Qleb. destruct (Qle_bool (st_start final) t) eqn:E; [|reflexivity].
      apply Qle_bool_iff in E. exfalso.
      exact (Qlt_not_le _ _ (Hall _ Hin) E).
    + unfold _get_state_at.
      rewrite (proj2 (first_match_none render_text _ t) Hnone), Hl. reflexivity.
  - intros pre post s t' Hpre Hs. unfold _get_state_at.
    now rewrite (first_match_app render_text pre s post t' Hpre Hs).
Qed.

Lemma C10_state_lookup_witness :
  text_states fast_segments fast_words 1 fast_style = Returns fast_states /\
  (-1 < 0 # 1000)%Q /\
  _get_state_at flat_render fast_states (-1) = empty_frame.
Proof.
  assert (H1 : text_states fast_segments fast_words 1 fast_style
               = Returns fast_states) by (vm_compute; reflexivity).
  assert (H2 : (-1 < 0 # 1000)%Q) by reflexivity.
  split; [exact H1|]. split; [exact H2|].
  exact (proj1 (proj2 (C10_state_lookup flat_render fast_segments fast_words 1
                         fast_style fast_states
                         (mkState (0 # 1000) (100 # 1000) 0 "a") (-1)
                         H1 eq_refl H2))).
Defined.

(** *** Crossfade *)




Section Blend.
Variable d : Q.
Hypothesis Hd : (0 < d)%Q.

Lemma d_nonzero : ~ (d == 0)%Q.
Proof. intros E. rewrite E in Hd. discriminate. Qed.

Lemma raw_blend_scaled T t :
  (raw_blend d T t * d == t - (T - d / 2))%Q.
Proof. unfold raw_blend. field. exact d_nonzero. Qed.








End Blend.

Section Crossfade.
Variable render_text : string -> frame.
Variable states : list state.
Variable d : Q.





End Crossfade.




End TimelineProofs.

Module SequencerProofs.
Import Sequencer PyFacts Examples.

Section Reel.
Variable fetch_single_ayah : nat -> Z -> Z -> Q -> Q -> outcome ayah_data.
Variable validate_verse_range : Z -> Z -> Z -> outcome (Z * Z).
Variable ENABLE_INTRO_FRAME : bool.
Variable surah : Z.
Variable ayah_padding : Q.

Let max_content := max_content_duration ENABLE_INTRO_FRAME.
Let fetch_loop := fetch_requested fetch_single_ayah ENABLE_INTRO_FRAME surah ayah_padding.
Let extend_loop := extend fetch_single_ayah ENABLE_INTRO_FRAME surah ayah_padding.

Local Abbreviation bounded_tail := (Sequencer.bounded_tail max_content).

Lemma bounded_tail_snoc us d :
  bounded_tail us ->
  (us <> [] -> (segment_end d + (1 # 2) <= max_content)%Q) ->
  bounded_tail (us ++ [d]).
Proof.
  intros Hus Hd i d' Hi Hl.
  destruct (Nat.lt_ge_cases i (length us)) as [Hlt|Hge].
  - rewrite lookup_app_l in Hl by exact Hlt. now apply (Hus i).
  - rewrite lookup_app_r in Hl by exact Hge.
    destruct (i - length us)%nat eqn:E; cbn in Hl; [|discriminate].
    inversion Hl; subst d'. apply Hd. intros ->. cbn in *. lia.
Qed.

Lemma fetch_requested_total (fuel : nat) : forall requested_end st,
  (Z.to_nat (requested_end + 1 - current_ayah st) <= fuel)%nat ->
  fetch_loop fuel requested_end st <> None.
Proof.
  induction fuel as [|fuel IH]; intros e st Hfuel; cbn [fetch_loop fetch_requested];
    unfold fetch_loop; cbn [fetch_requested];
    destruct (Z.leb_spec (current_ayah st) e); try discriminate; [lia|].
  destruct (fetch_single_ayah _ _ _ _ _) as [data|]; [|discriminate].
  destruct (_ && _); [discriminate|].
  apply IH. cbn [current_ayah]. lia.
Qed.

Lemma extend_total (fuel : nat) : forall max_ayah st,
  (Z.to_nat (max_ayah + 1 - current_ayah st) <= fuel)%nat ->
  extend_loop fuel max_ayah st <> None.
Proof.
  induction fuel as [|fuel IH]; intros e st Hfuel;
    unfold extend_loop; cbn [extend];
    destruct (Z.leb_spec (current_ayah st) e);
    rewrite ?andb_false_r, ?andb_true_r; cbn [andb]; try discriminate.
  - destruct (_ && _); [|discriminate]. lia.
  - destruct (_ && _); [|discriminate].
    destruct (fetch_single_ayah _ _ _ _ _) as [data|]; [|discriminate].
    destruct (Qltb _ _); [discriminate|].
    apply IH. cbn [current_ayah]. lia.
Qed.

Lemma fetch_requested_inv (fuel : nat) : forall requested_end st st',
  fetch_loop fuel requested_end st = Some (Returns st') ->
  bounded_tail (units st) -> clock_at_end st ->
  bounded_tail (units st') /\ clock_at_end st'.
Proof.
  induction fuel as [|fuel IH]; intros e st st' Hrun Hb Hc;
    unfold fetch_loop in Hrun; cbn [fetch_requested] in Hrun;
    destruct (current_ayah st <=? e); try discriminate;
    try (inversion Hrun; subst; now split).
  destruct (fetch_single_ayah _ _ _ _ _) as [data|]; [|discriminate].
  destruct (negb (length (units st) =? 0)%nat
            && Qltb (max_content_duration ENABLE_INTRO_FRAME)
                 (segment_end data + (1 # 2))) eqn:E.
  - inversion Hrun; subst. now split.
  - apply (IH _ _ _ Hrun); cbn [units current_time].
    + apply bounded_tail_snoc; [exact Hb|]. intros Hne.
      apply andb_false_iff in E as [E|E].
      * apply negb_false_iff, Nat.eqb_eq in E.
        destruct (units st); [congruence | discriminate].
      * now apply Qltb_ge in E.
    + intros d Hd. cbn [units current_time] in *.
      rewrite last_snoc in Hd. now inversion Hd.
Qed.

Lemma extend_inv (fuel : nat) : forall max_ayah st st',
  extend_loop fuel max_ayah st = Some (Returns st') ->
  bounded_tail (units st) -> total_at_end st ->
  bounded_tail (units st') /\ total_at_end st'.
Proof.
  induction fuel as [|fuel IH]; intros e st st' Hrun Hb Hc;
    unfold extend_loop in Hrun; cbn [extend] in Hrun;
    destruct (_ && _); try discriminate;
    try (inversion Hrun; subst; now split).
  destruct (fetch_single_ayah _ _ _ _ _) as [data|]; [|discriminate].
  destruct (Qltb (max_content_duration ENABLE_INTRO_FRAME)
              (segment_end data + (1 # 2))) eqn:E.
  - inversion Hrun; subst. now split.
  - apply (IH _ _ _ Hrun); cbn [units].
    + apply bounded_tail_snoc; [exact Hb|]. intros _. now apply Qltb_ge in E.
    + exists data. cbn [units total_duration]. split; [apply last_snoc | reflexivity].
Qed.

Lemma hard_cap_le total :
  (hard_cap ENABLE_INTRO_FRAME total <= max_content)%Q.
Proof.
  unfold hard_cap. fold max_content.
  destruct (Qltb max_content total) eqn:E; [apply Qle_refl|].
  now apply Qltb_ge in E.
Qed.

Lemma assemble_total start_ayah requested_end :
  assemble fetch_single_ayah ENABLE_INTRO_FRAME surah ayah_padding
    start_ayah requested_end <> None.
Proof.
  unfold assemble.
  pose proof (fetch_requested_total (Z.to_nat (requested_end + 1 - start_ayah))
                requested_end
                (mkProgress [] (1 # 10) start_ayah 0 requested_end 0)
                ltac:(cbn [current_ayah]; lia)) as H1.
  unfold fetch_loop in H1.
  destruct (fetch_requested _ _ _ _ _ _ _) as [[st|e]|]; [|discriminate|congruence].
  destruct (last (units st)); [|discriminate].
  apply extend_total. cbn [current_ayah]. lia.
Qed.

Lemma assemble_inv start_ayah requested_end st :
  assemble fetch_single_ayah ENABLE_INTRO_FRAME surah ayah_padding
    start_ayah requested_end = Some (Returns st) ->
  bounded_tail (units st) /\ total_at_end st.
Proof.
  unfold assemble. intros H.
  destruct (fetch_requested _ _ _ _ _ _ _) as [[st1|e]|] eqn:H1; try discriminate.
  destruct (fetch_requested_inv _ _ _ _ H1) as [Hb Hc].
  { intros i d _ Hl. cbn in Hl. rewrite lookup_nil in Hl. discriminate. }
  { intros d Hl. cbn in Hl. discriminate. }
  destruct (last (units st1)) as [final|] eqn:Hl; [|discriminate].
  apply (extend_inv _ _ _ _ H); cbn [units total_duration]; [exact Hb|].
  exists final. split; [exact Hl|]. now rewrite (Hc final Hl).
Qed.

(** C2: the sequencing of [generate_reel] always ends, and when it returns,
    the duration handed to the compositor is at most
    [max_content_duration]; every unit but the first was appended with its
    end plus the trailing buffer within the maximum; the duration is the end
    of the last unit plus the buffer when that is within the maximum, and
    exactly the maximum otherwise, the unit list being kept as assembled. *)
Theorem C2_reel_duration_bounded (start_ayah requested_end : Z) :
  generate_reel fetch_single_ayah validate_verse_range ENABLE_INTRO_FRAME
    surah ayah_padding start_ayah requested_end <> None /\
  forall r : reel,
    generate_reel fetch_single_ayah validate_verse_range ENABLE_INTRO_FRAME
      surah ayah_padding start_ayah requested_end = Some (Returns r) ->
    (reel_duration r <= max_content_duration ENABLE_INTRO_FRAME)%Q /\
    bounded_tail (reel_units r) /\
    exists final,
      last (reel_units r) = Some final /\
      ((max_content_duration ENABLE_INTRO_FRAME < segment_end final + (1 # 2))%Q ->
       reel_duration r = max_content_duration ENABLE_INTRO_FRAME) /\
      ((segment_end final + (1 # 2) <= max_content_duration ENABLE_INTRO_FRAME)%Q ->
       reel_duration r = (segment_end final + (1 # 2))%Q).
Proof.
  unfold generate_reel. split.
  - destruct (validate_verse_range _ _ _) as [[s e]|]; [|discriminate].
    pose proof (assemble_total s e) as Ht.
    destruct (assemble _ _ _ _ _ _) as [[st|err]|]; congruence.
  - intros r Hr.
    destruct (validate_verse_range _ _ _) as [[s e]|]; [|discriminate].
    destruct (assemble _ _ _ _ _ _) as [[st|err]|] eqn:Ha; try discriminate.
    inversion Hr; subst r; clear Hr. cbn [reel_duration reel_units].
    destruct (assemble_inv _ _ _ Ha) as [Hb (final & Hl & Htot)].
    split; [apply hard_cap_le|]. split; [exact Hb|].
    exists final. split; [exact Hl|]. rewrite Htot. unfold hard_cap. split; intros H.
    + apply Qltb_lt in H. now rewrite H.
    + apply Qltb_ge in H. now rewrite H.
Qed.

End Reel.

Lemma C2_reel_duration_bounded_witness :
  exists r,
    generate_reel steady_fetch accept_range false 1 (48 # 100) 1 3
      = Some (Returns r) /\
    (reel_duration r <= max_content_duration false)%Q.
Proof.
  eexists. split; [vm_compute; reflexivity|].
  refine (proj1 (proj2 (C2_reel_duration_bounded steady_fetch accept_range
                          false 1 (48 # 100) 1 3) _ _)).
  vm_compute. reflexivity.
Defined.

(** Three ayahs of 20 s are requested; the third would end at 62.04 s, past
    the 59 s maximum, so the reel stops after two, at 41.56 s. *)
Example two_of_three_fit :
  exists r,
    generate_reel steady_fetch accept_range false 1 (48 # 100) 1 3
      = Some (Returns r) /\
    length (reel_units r) = 2%nat /\
    reel_end_ayah r = 2 /\
    (reel_duration r == 4156 # 100)%Q.
Proof.
  eexists. split; [vm_compute; reflexivity|].
  repeat split.
Qed.

End SequencerProofs.

Module ProbeProofs.
Import Probe.

(** C9: for every audio path both probes return a float and never raise:
    the duration that was read when opening and reading the file succeed, and
    the fallback 5.0 s when either fails. *)
Theorem C9_probe_never_raises (AudioFileClip_duration : string -> outcome Q)
    (AudioSegment_len : string -> outcome Z) (audio_path : string) :
  (exists d, get_audio_duration_moviepy AudioFileClip_duration audio_path = Returns d) /\
  (forall e, AudioFileClip_duration audio_path = Raises e ->
     get_audio_duration_moviepy AudioFileClip_duration audio_path = Returns 5%Q) /\
  (forall d, AudioFileClip_duration audio_path = Returns d ->
     get_audio_duration_moviepy AudioFileClip_duration audio_path = Returns d) /\
  (exists d, get_audio_duration AudioSegment_len audio_path = Returns d) /\
  (forall e, AudioSegment_len audio_path = Raises e ->
     get_audio_duration AudioSegment_len audio_path = Returns 5%Q) /\
  (forall n, AudioSegment_len audio_path = Returns n ->
     get_audio_duration AudioSegment_len audio_path = Returns (ms_to_s n)).
Proof.
  unfold get_audio_duration_moviepy, get_audio_duration.
  destruct (AudioFileClip_duration audio_path) as [d|e];
    destruct (AudioSegment_len audio_path) as [n|e'];
    cbn [try_except bind]; repeat split; eauto; intros; congruence.
Qed.

End ProbeProofs.

Module TextLayoutProofs.
Import TextLayout StringFacts.

(** Splitting at a whitespace character splits the two sides. *)
Lemma split_aux_space (a : string) : forall cur c b,
  is_space c = true ->
  split_aux cur (String.append a (String c b))
  = split_aux cur a ++ split_aux EmptyString b.
Proof.
  induction a as [|x a IH]; intros cur c b Hc.
  - rewrite append_nil. cbn [split_aux]. now rewrite Hc.
  - rewrite append_cons. cbn [split_aux]. destruct (is_space x).
    + rewrite IH by exact Hc. now rewrite app_assoc.
    + now apply IH.
Qed.

Lemma split_app_space a c b :
  is_space c = true ->
  split (String.append a (String c b)) = split a ++ split b.
Proof. apply split_aux_space. Qed.

Lemma split_join_sep (c : ascii) (l : list string) :
  is_space c = true ->
  split (join (String c EmptyString) l) = concat (map split l).
Proof.
  intros Hc. induction l as [|x l IH]; [reflexivity|].
  destruct l as [|y l].
  - cbn [join map concat]. now rewrite app_nil_r.
  - rewrite join_cons.
    change (String.append (String c EmptyString) (join (String c EmptyString) (y :: l)))
      with (String c (join (String c EmptyString) (y :: l))).
    rewrite split_app_space by exact Hc. rewrite IH. reflexivity.
Qed.

Lemma slice_take_drop {A} (l : list A) (i k : Z) :
  0 <= i -> 0 <= k ->
  slice l i (i + k) = take (Z.to_nat k) (drop (Z.to_nat i) l).
Proof.
  intros Hi Hk. unfold slice.
  destruct (Z.ltb_spec i 0); [lia|]. destruct (Z.ltb_spec (i + k) 0); [lia|].
  set (n := Z.of_nat (length l)).
  destruct (Z.le_gt_cases n i) as [Hge|Hlt].
  - rewrite (Z.min_r i n) by lia.
    rewrite !drop_ge by (unfold n in *; lia). now rewrite !take_nil.
  - rewrite (Z.min_l i n) by lia.
    destruct (Z.le_gt_cases (i + k) n) as [Hin|Hout].
    + rewrite (Z.min_l (i + k) n) by lia. f_equal. lia.
    + rewrite (Z.min_r (i + k) n) by lia.
      rewrite !take_ge; [reflexivity | |];
        rewrite length_drop; unfold n in *; lia.
Qed.

Lemma line_count_bounds (n k : Z) :
  1 <= k -> 0 <= n ->
  Z.of_nat (line_count n k) * k < n + k /\ n <= Z.of_nat (line_count n k) * k.
Proof.
  intros Hk Hn. unfold line_count.
  assert (0 <= (n + k - 1) / k) by (apply Z.div_pos; lia).
  rewrite Z2Nat.id by lia.
  pose proof (Z.mul_div_le (n + k - 1) k ltac:(lia)).
  pose proof (Z.mul_succ_div_gt (n + k - 1) k ltac:(lia)).
  nia.
Qed.

Lemma line_count_eq (n k : Z) (c : nat) :
  1 <= k -> 0 <= n ->
  (Z.of_nat c - 1) * k < n <= Z.of_nat c * k ->
  line_count n k = c.
Proof.
  intros Hk Hn Hc. pose proof (line_count_bounds n k Hk Hn). nia.
Qed.

Lemma chunks_of_S k m words :
  chunks_of k (S m) words = take k words :: chunks_of k m (drop k words).
Proof.
  unfold chunks_of. cbn [seq map]. f_equal.
  rewrite <- seq_shift, map_map. apply map_ext. intros i.
  rewrite drop_drop. repeat f_equal; lia.
Qed.

Lemma chunks_of_concat k m : forall words,
  (length words <= m * k)%nat -> concat (chunks_of k m words) = words.
Proof.
  induction m as [|m IH]; intros words Hlen.
  - destruct words; [reflexivity | cbn in Hlen; lia].
  - rewrite chunks_of_S. cbn [concat]. rewrite IH.
    + apply take_drop.
    + rewrite length_drop. lia.
Qed.

Lemma chunks_of_lookup k m words i c :
  chunks_of k m words !! i = Some c ->
  (i < m)%nat /\ c = take k (drop (i * k) words).
Proof.
  unfold chunks_of. rewrite list_lookup_fmap. intros H.
  destruct (seq 0 m !! i) as [j|] eqn:E; [|discriminate].
  apply lookup_seq in E as [-> Hlt]. cbn in H. inversion H. auto.
Qed.

Lemma chunks_of_length k m words : length (chunks_of k m words) = m.
Proof. unfold chunks_of. now rewrite length_map, length_seq. Qed.

Lemma wrap_lines_chunks (text : string) (k : Z) :
  1 <= k ->
  wrap_lines text k
  = Returns (map (join " ")
               (chunks_of (Z.to_nat k)
                  (line_count (Z.of_nat (length (split text))) k) (split text))).
Proof.
  intros Hk. unfold wrap_lines, range3.
  destruct (Z.eqb_spec k 0); [lia|]. destruct (Z.ltb_spec 0 k); [|lia].
  cbn [bind]. f_equal. unfold chunks_of, line_count.
  rewrite Z.sub_0_r. rewrite !map_map. apply map_ext. intros i.
  f_equal. rewrite slice_take_drop by lia. do 2 f_equal. lia.
Qed.

Lemma concat_map_split_join (chunks : list (list string)) :
  Forall wordlike (concat chunks) ->
  concat (map split (map (join " ") chunks)) = concat chunks.
Proof.
  induction chunks as [|c cs IH]; intros H; [reflexivity|].
  cbn [concat] in H. apply Forall_app in H as [Hc Hcs].
  cbn [map concat]. rewrite IH by exact Hcs. now rewrite split_join.
Qed.

Lemma wrap_text_chunks (text : string) (k : Z) :
  1 <= k ->
  exists chunks out,
    wrap_lines text k = Returns (map (join " ") chunks) /\
    wrap_text text k = Returns out /\
    concat chunks = split text /\
    Forall (fun c => (1 <= length c)%nat /\ Z.of_nat (length c) <= k) chunks /\
    (forall i c, (S i < length chunks)%nat -> chunks !! i = Some c ->
       Z.of_nat (length c) = k) /\
    split out = split text /\
    wrap_text out k = Returns out.
Proof.
  intros Hk.
  set (words := split text). set (n := Z.of_nat (length words)).
  set (m := line_count n k). set (K := Z.to_nat k).
  pose proof (line_count_bounds n k Hk ltac:(unfold n; lia)) as [Hlo Hhi].
  fold m in Hlo, Hhi.
  assert (Hcat : concat (chunks_of K m words) = words).
  { apply chunks_of_concat. unfold n, K in *. nia. }
  assert (Hsplit : split (join newline (map (join " ") (chunks_of K m words)))
                   = words).
  { unfold newline. rewrite split_join_sep by reflexivity.
    rewrite concat_map_split_join; [exact Hcat|].
    rewrite Hcat. apply split_wordlike. }
  exists (chunks_of K m words), (join newline (map (join " ") (chunks_of K m words))).
  assert (Hlines : wrap_lines text k = Returns (map (join " ") (chunks_of K m words)))
    by (now apply wrap_lines_chunks).
  split; [exact Hlines|]. split; [unfold wrap_text; now rewrite Hlines|].
  split; [exact Hcat|]. split; [|split; [|split]].
  - apply List.Forall_forall. intros c Hin.
    apply list_elem_of_In, list_elem_of_lookup in Hin as [i Hi].
    apply chunks_of_lookup in Hi as [Hi ->].
    rewrite length_take, length_drop. fold words in n. unfold n, K in *. nia.
  - intros i c Hlast Hi. rewrite chunks_of_length in Hlast.
    apply chunks_of_lookup in Hi as [Hi ->].
    rewrite length_take, length_drop. unfold n, K in *. nia.
  - exact Hsplit.
  - unfold wrap_text. rewrite wrap_lines_chunks by exact Hk.
    rewrite Hsplit. reflexivity.
Qed.


(** X1: with at least one word per line, [wrap_text] loses and reorders no
    word: its lines are the joins of consecutive chunks of the word list,
    every line holds between 1 and [words_per_line] words and every line but
    the last exactly [words_per_line]; splitting the wrapped text gives the
    words of the text, and wrapping the wrapped text again changes nothing. *)
Theorem wrap_text_keeps_words (text : string) (k : Z) :
  1 <= k ->
  exists chunks out,
    wrap_lines text k = Returns (map (join " ") chunks) /\
    wrap_text text k = Returns out /\
    concat chunks = split text /\
    Forall (fun c => (1 <= length c)%nat /\ Z.of_nat (length c) <= k) chunks /\
    (forall i c, (S i < length chunks)%nat -> chunks !! i = Some c ->
       Z.of_nat (length c) = k) /\
    split out = split text /\
    wrap_text out k = Returns out.
Proof. apply wrap_text_chunks. Qed.

Lemma wrap_text_keeps_words_witness :
  1 <= 3 /\
  exists chunks out,
    wrap_lines "a b  c d e f g" 3 = Returns (map (join " ") chunks) /\
    wrap_text "a b  c d e f g" 3 = Returns out /\
    concat chunks = split "a b  c d e f g" /\
    Forall (fun c => (1 <= length c)%nat /\ Z.of_nat (length c) <= 3) chunks /\
    (forall i c, (S i < length chunks)%nat -> chunks !! i = Some c ->
       Z.of_nat (length c) = 3) /\
    split out = split "a b  c d e f g" /\
    wrap_text out 3 = Returns out.
Proof.
  assert (H : 1 <= 3) by lia.
  split; [exact H|].
  exact (wrap_text_keeps_words "a b  c d e f g" 3 H).
Defined.

(** X2: [wrap_text] with zero words per line raises [ValueError] (the step
    of [range] is zero), and with a negative number of words per line it
    returns the empty string, whatever the text. *)
Theorem wrap_text_degenerate (text : string) (k : Z) :
  (k = 0 -> exists msg, wrap_text text k = Raises (ValueError msg)) /\
  (k < 0 -> wrap_text text k = Returns EmptyString).
Proof.
  split; intros Hk; unfold wrap_text, wrap_lines, range3.
  - subst k. cbn. eauto.
  - destruct (Z.eqb_spec k 0); [lia|]. destruct (Z.ltb_spec 0 k); [lia|].
    cbn [bind].
    rewrite Z2Nat.nonpos; [reflexivity|].
    assert ((0 - Z.of_nat (length (split text)) - k - 1) / - k < 1)
      by (apply Z.div_lt_upper_bound; lia).
    lia.
Qed.

(** X3: for a text of at least zero words [get_font_settings] gives a font
    size between 36 and 72 and between 5 and 8 words per line; a longer text
    never gets a larger font nor fewer words per line.  A negative count
    falls through to [(35, 6)]. *)
Theorem font_settings_monotone (a b : Z) :
  (0 <= a -> a <= b ->
   fst (get_font_settings b) <= fst (get_font_settings a) /\
   snd (get_font_settings a) <= snd (get_font_settings b) /\
   36 <= fst (get_font_settings a) <= 72 /\
   5 <= snd (get_font_settings a) <= 8) /\
  (a < 0 -> get_font_settings a = (35, 6)).
Proof.
  unfold get_font_settings. cbn [map snd FONT_SIZE_CONFIG first_fit min_words
    font_size words_per_line].
  split.
  - intros Ha Hab.
    repeat match goal with
           | |- context [?x <=? ?y] => destruct (Z.leb_spec x y)
           end; cbn [fst snd]; lia.
  - intros Ha.
    repeat match goal with
           | |- context [?x <=? ?y] => destruct (Z.leb_spec x y)
           end; try lia; reflexivity.
Qed.

(** X4: the static text clip is always laid out: whatever the text and
    whatever the cleaning of the Uthmani marks leaves of it,
    [create_text_clip] picks a font size between 36 and 72 (35 is not
    reached), wrapping does not raise, the wrapped text has the words of the
    cleaned text, and no line has more than 8 words. *)
Theorem static_text_layout (_clean_arabic : string -> string)
    (arabic_text : string) :
  exists chunks out,
    36 <= fst (create_text_clip_layout _clean_arabic arabic_text) <= 72 /\
    snd (create_text_clip_layout _clean_arabic arabic_text) = Returns out /\
    out = join newline (map (join " ") chunks) /\
    concat chunks = split (_clean_arabic arabic_text) /\
    Forall (fun c => (1 <= length c <= 8)%nat) chunks /\
    split out = split (_clean_arabic arabic_text).
Proof.
  unfold create_text_clip_layout.
  set (n := Z.of_nat (length (split arabic_text))).
  assert (Hn : 0 <= n) by (unfold n; lia).
  assert (Hf : 36 <= fst (get_font_settings n) <= 72 /\
               5 <= snd (get_font_settings n) <= 8).
  { unfold get_font_settings. cbn [map snd FONT_SIZE_CONFIG first_fit min_words
      font_size words_per_line].
    repeat match goal with
           | |- context [?x <=? ?y] => destruct (Z.leb_spec x y)
           end; cbn [fst snd]; lia. }
  destruct (get_font_settings n) as [fs wpl]. cbn [fst snd] in *.
  destruct (wrap_text_chunks (_clean_arabic arabic_text) wpl ltac:(lia))
    as (chunks & out & Hlines & Hout & Hcat & Hall & _ & Hsplit & _).
  exists chunks, out. split; [lia|]. split; [exact Hout|].
  split.
  { unfold wrap_text in Hout. rewrite Hlines in Hout. cbn in Hout.
    now inversion Hout. }
  split; [exact Hcat|]. split; [|exact Hsplit].
  eapply Forall_impl; [exact Hall|]. cbn. intros c [H1 H2]. lia.
Qed.

Lemma translation_text_split (words : list string) (m : nat) :
  Forall wordlike words ->
  split (String.append (join " " (take m words))
           (String.append newline (join " " (drop m words))))
  = words.
Proof.
  intros Hw. unfold newline.
  change (String.append (String (ascii_of_nat 10) EmptyString)
            (join " " (drop m words)))
    with (String (ascii_of_nat 10) (join " " (drop m words))).
  rewrite split_app_space by reflexivity.
  rewrite !split_join.
  - apply take_drop.
  - rewrite <- (take_drop m words) in Hw. now apply Forall_app in Hw.
  - rewrite <- (take_drop m words) in Hw. now apply Forall_app in Hw.
Qed.

Lemma translation_lines_cases (translation_text : string) (m : nat) :
  (translation_text = EmptyString -> translation_lines translation_text = None) /\
  (translation_text <> EmptyString -> split translation_text = [] ->
   exists msg, translation_lines translation_text = Some (Raises (ValueError msg))) /\
  ((1 <= length (split translation_text) <= 12)%nat ->
   translation_lines translation_text
   = Some (Returns [join " " (split translation_text)])) /\
  ((12 < length (split translation_text))%nat ->
   length (split translation_text) = (2 * m)%nat ->
   translation_lines translation_text
   = Some (Returns [join " " (take m (split translation_text));
                    join " " (drop m (split translation_text))])) /\
  ((12 < length (split translation_text))%nat ->
   length (split translation_text) = (2 * m + 1)%nat ->
   exists w,
     drop (2 * m) (split translation_text) = [w] /\
     translation_lines translation_text
     = Some (Returns [join " " (take m (split translation_text));
                      join " " (take m (drop m (split translation_text)));
                      w])).
Proof.
  unfold translation_lines, translation_layout.
  set (words := split translation_text).
  assert (Hw : Forall wordlike words) by apply split_wordlike.
  split; [intros ->; reflexivity|].
  split.
  { intros Hne Hnil. destruct translation_text; [congruence|].
    cbn [nonempty negb]. fold words. rewrite Hnil. cbn. eauto. }
  split.
  { intros Hn. destruct translation_text as [|c t]; [cbn in Hn; lia|].
    cbn [nonempty negb]. fold words.
    destruct (Z.ltb_spec 12 (Z.of_nat (length words))); [lia|].
    rewrite wrap_lines_chunks by lia. fold words.
    rewrite (line_count_eq _ _ 1) by lia.
    cbn [chunks_of seq map Nat.mul drop].
    rewrite Nat2Z.id, firstn_all. reflexivity. }
  assert (Hlong : forall k : nat,
    (12 < length words)%nat -> (2 * k <= length words <= 2 * k + 1)%nat ->
    exists text,
      split text = words /\
      (if negb (nonempty translation_text) then None
       else if 12 <? Z.of_nat (length words) then
         Some (String.append (join " " (slice words 0 (Z.of_nat (length words) / 2)))
                 (String.append newline
                    (join " " (slice_from words (Z.of_nat (length words) / 2)))),
               Z.max 6 (Z.of_nat (length words) / 2))
       else Some (translation_text, Z.of_nat (length words)))
      = Some (text, Z.of_nat k)).
  { intros k Hn Hk2. destruct translation_text as [|c t]; [cbn in Hn; lia|].
    cbn [nonempty negb].
    destruct (Z.ltb_spec 12 (Z.of_nat (length words))); [|lia].
    assert (Hk : Z.of_nat (length words) / 2 = Z.of_nat k).
    { symmetry.
      apply Z.div_unique with (r := Z.of_nat (length words) - 2 * Z.of_nat k); lia. }
    rewrite Hk.
    change (slice words 0 (Z.of_nat k)) with (slice words 0 (0 + Z.of_nat k)).
    rewrite (slice_take_drop words 0 (Z.of_nat k)) by lia.
    unfold slice_from. destruct (Z.ltb_spec (Z.of_nat k) 0); [lia|].
    rewrite Nat2Z.id. cbn [Z.to_nat drop].
    eexists. split; [|do 2 f_equal; lia].
    now apply translation_text_split. }
  split.
  - intros Hn Hm. fold words in Hn, Hm.
    destruct (Hlong m Hn ltac:(lia)) as (text & Hsplit & ->).
    rewrite wrap_lines_chunks by lia. rewrite Hsplit, Nat2Z.id.
    rewrite (line_count_eq _ _ 2) by lia.
    cbn [chunks_of seq map Nat.mul drop Nat.add]. rewrite Nat.add_0_r.
    rewrite (take_ge (drop m words)) by (rewrite length_drop; lia).
    reflexivity.
  - intros Hn Hm. fold words in Hn, Hm.
    destruct (Hlong m Hn ltac:(lia)) as (text & Hsplit & ->).
    destruct (drop (2 * m) words) as [|w [|w' rest]] eqn:Hd;
      try (apply (f_equal length) in Hd; rewrite length_drop in Hd;
           cbn [length] in Hd; lia).
    exists w. split; [reflexivity|].
    rewrite wrap_lines_chunks by lia. rewrite Hsplit, Nat2Z.id.
    rewrite (line_count_eq _ _ 3) by lia.
    cbn [chunks_of seq map Nat.mul drop Nat.add]. rewrite !Nat.add_0_r.
    replace (m + m)%nat with (2 * m)%nat by lia. rewrite Hd.
    rewrite (take_ge [w]) by (cbn; lia). reflexivity.
Qed.

(** X5: the lines drawn for a translation clip.  The empty translation
    gives no clip; a translation of whitespace only raises [ValueError]
    (zero words per line); up to 12 words give one line; more than 12 words
    give two lines of [n/2] words when the count is even, and three lines
    when it is odd: two of [n/2] words and a last line of one word. *)
Theorem translation_clip_lines (translation_text : string) (m : nat) :
  (translation_text = EmptyString -> translation_lines translation_text = None) /\
  (translation_text <> EmptyString -> split translation_text = [] ->
   exists msg, translation_lines translation_text = Some (Raises (ValueError msg))) /\
  ((1 <= length (split translation_text) <= 12)%nat ->
   translation_lines translation_text
   = Some (Returns [join " " (split translation_text)])) /\
  ((12 < length (split translation_text))%nat ->
   length (split translation_text) = (2 * m)%nat ->
   translation_lines translation_text
   = Some (Returns [join " " (take m (split translation_text));
                    join " " (drop m (split translation_text))])) /\
  ((12 < length (split translation_text))%nat ->
   length (split translation_text) = (2 * m + 1)%nat ->
   exists w,
     drop (2 * m) (split translation_text) = [w] /\
     translation_lines translation_text
     = Some (Returns [join " " (take m (split translation_text));
                      join " " (take m (drop m (split translation_text)));
                      w])).
Proof. apply translation_lines_cases. Qed.

(** The words on the lines of a translation clip are the words of the
    text. *)
Lemma translation_lines_words (translation_text : string) :
  split translation_text <> [] ->
  exists lines,
    translation_lines translation_text = Some (Returns lines) /\
    concat (map split lines) = split translation_text /\
    (1 <= length lines <= 3)%nat.
Proof.
  intros Hne.
  pose proof (split_wordlike translation_text) as Hw.
  set (m := (length (split translation_text) / 2)%nat).
  pose proof (Nat.div_mod_eq (length (split translation_text)) 2) as Hdiv.
  fold m in Hdiv.
  pose proof (Nat.mod_upper_bound (length (split translation_text)) 2
                ltac:(lia)) as Hmod.
  destruct (translation_lines_cases translation_text m)
    as (_ & _ & Hshort & Heven & Hodd).
  clearbody m.
  remember (split translation_text) as words eqn:Ew. clear Ew.
  destruct (Nat.le_gt_cases (length words) 12) as [Hle|Hgt].
  - exists [join " " words]. split.
    + apply Hshort. destruct words; [congruence | cbn [length] in *; lia].
    + split; [|cbn; lia]. cbn [map concat]. rewrite app_nil_r.
      now apply split_join.
  - destruct (Nat.eq_dec (length words `mod` 2)%nat 0%nat) as [E|E].
    + exists [join " " (take m words); join " " (drop m words)]. split.
      * apply Heven; lia.
      * split; [|cbn; lia]. cbn [map concat]. rewrite app_nil_r.
        rewrite <- (take_drop m words) in Hw. apply Forall_app in Hw as [H1 H2].
        rewrite !split_join by assumption. apply take_drop.
    + destruct (Hodd Hgt ltac:(lia)) as (w & Hd & Hl).
      exists [join " " (take m words); join " " (take m (drop m words)); w].
      split; [exact Hl|]. split; [|cbn; lia].
      cbn [map concat]. rewrite app_nil_r.
      assert (Hparts : words = take m words ++ take m (drop m words) ++ [w]).
      { rewrite <- Hd. replace (2 * m)%nat with (m + m)%nat by lia.
        rewrite <- drop_drop, take_drop, take_drop. reflexivity. }
      rewrite Hparts in Hw. apply Forall_app in Hw as [H1 Hw].
      apply Forall_app in Hw as [H2 H3].
      rewrite !split_join by assumption.
      pose proof (split_join [w] H3) as Hw1. cbn [join] in Hw1.
      rewrite Hw1. symmetry. exact Hparts.
Qed.


Lemma int_of_float_Z (x : Q) (z : Z) :
  (x == inject_Z z)%Q -> int_of_float x = z.
Proof.
  unfold Qeq, int_of_float. cbn [Qnum Qden inject_Z]. intros H.
  rewrite Z.mul_1_r in H. rewrite H. apply Z.quot_mul. discriminate.
Qed.

Lemma int_of_float_nonneg (x : Q) : (0 <= x)%Q -> 0 <= int_of_float x.
Proof.
  unfold Qle, int_of_float. cbn [Qnum Qden]. intros H.
  apply Z.quot_pos; lia.
Qed.

Lemma int_of_float_le (x : Q) (z : Z) :
  (0 <= x)%Q -> (x <= inject_Z z)%Q -> int_of_float x <= z.
Proof.
  unfold Qle, int_of_float. cbn [Qnum Qden inject_Z]. intros H0 Hz.
  rewrite Z.quot_div_nonneg by lia.
  apply Z.div_le_upper_bound; lia.
Qed.







End TextLayoutProofs.

Module PageTimes.
Import Pages PyFacts PagesProofs.

Lemma min_le_l a b : (Py.min a b <= a)%Q.
Proof.
  unfold Py.min. destruct (Qltb b a) eqn:E; [|apply Qle_refl].
  apply Qltb_lt in E. now apply Qlt_le_weak.
Qed.

Lemma min_le_r a b : (Py.min a b <= b)%Q.
Proof.
  unfold Py.min. destruct (Qltb b a) eqn:E; [apply Qle_refl|].
  now apply Qltb_ge in E.
Qed.

Lemma max_ge_l a b : (a <= Py.max a b)%Q.
Proof.
  unfold Py.max. destruct (Qltb a b) eqn:E; [|apply Qle_refl].
  apply Qltb_lt in E. now apply Qlt_le_weak.
Qed.

Lemma max_ge_r a b : (b <= Py.max a b)%Q.
Proof.
  unfold Py.max. destruct (Qltb a b) eqn:E; [apply Qle_refl|].
  now apply Qltb_ge in E.
Qed.

(** The scan of one page only lowers the start and raises the end, and it
    bounds every segment of the page. *)
Lemma scan_bounds (lo hi : Z) (segs : list segment) : forall acc,
  (fst (fold_left (scan_step lo hi) segs acc) <= fst acc)%Q /\
  (snd acc <= snd (fold_left (scan_step lo hi) segs acc))%Q /\
  forall seg, In seg segs -> lo <= word_index seg - 1 <= hi ->
    (fst (fold_left (scan_step lo hi) segs acc) <= ms_to_s (start_ms seg))%Q /\
    (ms_to_s (end_ms seg) <= snd (fold_left (scan_step lo hi) segs acc))%Q.
Proof.
  induction segs as [|s segs IH]; intros acc; cbn [fold_left].
  - split; [apply Qle_refl|]. split; [apply Qle_refl|]. intros seg [].
  - destruct (IH (scan_step lo hi acc s)) as (H1 & H2 & H3).
    assert (Hs1 : (fst (scan_step lo hi acc s) <= fst acc)%Q).
    { unfold scan_step. destruct (_ && _); cbn [fst]; [apply min_le_l | apply Qle_refl]. }
    assert (Hs2 : (snd acc <= snd (scan_step lo hi acc s))%Q).
    { unfold scan_step. destruct (_ && _); cbn [snd]; [apply max_ge_l | apply Qle_refl]. }
    split; [eapply Qle_trans; eassumption|].
    split; [eapply Qle_trans; eassumption|].
    intros sg [<-|Hsg] Hr; [|now apply H3].
    assert (Hin : scan_step lo hi acc s
                  = (Py.min (fst acc) (ms_to_s (start_ms s)),
                     Py.max (snd acc) (ms_to_s (end_ms s)))).
    { unfold scan_step.
      destruct (Z.leb_spec lo (word_index s - 1)); [|lia].
      destruct (Z.leb_spec (word_index s - 1) hi); [|lia]. reflexivity. }
    rewrite Hin in H1, H2 |- *. cbn [fst snd] in H1, H2. split.
    + eapply Qle_trans; [exact H1 | apply min_le_r].
    + eapply Qle_trans; [apply max_ge_r | exact H2].
Qed.

Lemma ms_to_s_lt a b : a < b -> (ms_to_s a < ms_to_s b)%Q.
Proof.
  intros H. unfold ms_to_s. apply Qmult_lt_r; [reflexivity|].
  now rewrite <- Zlt_Qlt.
Qed.

Lemma ms_to_s_nonneg a : 0 <= a -> (0 <= ms_to_s a)%Q.
Proof.
  intros H. unfold ms_to_s. apply Qle_shift_div_l; [reflexivity|].
  rewrite Qmult_0_l. change 0%Q with (inject_Z 0). now rewrite <- Zle_Qle.
Qed.

(** What [compute_page_boundaries] returns for a non-empty segment list. *)
Lemma returned_pages (segs : list segment) (w : Z) (total : Q) (ps : Z)
    (pages : list page) (i : nat) (pg : page) :
  compute_page_boundaries segs w total ps = Returns pages ->
  pages !! i = Some pg ->
  exists np,
    length pages = Z.to_nat np /\ 1 <= np /\
    pg = page_at segs w total ps np (Z.of_nat i).
Proof.
  intros Hret Hi. unfold compute_page_boundaries in Hret.
  destruct segs as [|s segs].
  { inversion Hret; subst. rewrite lookup_nil in Hi. discriminate. }
  destruct (ps =? 0); [discriminate|]. inversion Hret; subst pages; clear Hret.
  exists (Z.max 1 (ceil_div w ps)).
  rewrite length_map, range_length. split; [reflexivity|]. split; [lia|].
  now apply pages_lookup in Hi as [-> _].
Qed.

(** A bound of the scan is the initial one or is attained by a segment of
    the page. *)
Lemma scan_attains (lo hi : Z) (segs : list segment) : forall acc,
  (fst (fold_left (scan_step lo hi) segs acc) = fst acc \/
   exists seg, In seg segs /\ lo <= word_index seg - 1 <= hi /\
     fst (fold_left (scan_step lo hi) segs acc) = ms_to_s (start_ms seg)) /\
  (snd (fold_left (scan_step lo hi) segs acc) = snd acc \/
   exists seg, In seg segs /\ lo <= word_index seg - 1 <= hi /\
     snd (fold_left (scan_step lo hi) segs acc) = ms_to_s (end_ms seg)).
Proof.
  induction segs as [|s segs IH]; intros acc; cbn [fold_left].
  - split; now left.
  - destruct (IH (scan_step lo hi acc s)) as [H1 H2].
    assert (Hstep :
      scan_step lo hi acc s = acc \/
      (lo <= word_index s - 1 <= hi /\
       (fst (scan_step lo hi acc s) = fst acc \/
        fst (scan_step lo hi acc s) = ms_to_s (start_ms s)) /\
       (snd (scan_step lo hi acc s) = snd acc \/
        snd (scan_step lo hi acc s) = ms_to_s (end_ms s)))).
    { unfold scan_step.
      destruct (Z.leb_spec lo (word_index s - 1));
        destruct (Z.leb_spec (word_index s - 1) hi); cbn [andb];
        try (now left).
      right. split; [lia|]. cbn [fst snd]. unfold Py.min, Py.max.
      split; [destruct (Qltb _ _) | destruct (Qltb _ _)]; auto. }
    split.
    + destruct H1 as [H1|(seg & Hin & Hr & H1)].
      * rewrite H1. destruct Hstep as [->|(Hr & [Hf|Hf] & _)];
          [now left | now left |].
        right. exists s. split; [now left|]. now split.
      * right. exists seg. split; [now right|]. now split.
    + destruct H2 as [H2|(seg & Hin & Hr & H2)].
      * rewrite H2. destruct Hstep as [->|(Hr & _ & [Hf|Hf])];
          [now left | now left |].
        right. exists s. split; [now left|]. now split.
      * right. exists seg. split; [now right|]. now split.
Qed.

(** X7: the window of a page follows the timestamps of its words.  For a
    returned page other than the first, [start_time] is at most the total
    duration and at most the start of every segment whose word lies in the
    page's word range, and it is the total duration or the start of one of
    these segments.  For a returned page other than the last, [end_time] is
    at least 0 and at least the end of every such segment, and it is 0 or
    the end of one of these segments. *)
Theorem page_window_holds_words (segs : list segment) (w : Z) (total : Q)
    (ps : Z) (pages : list page) (i : nat) (pg : page) :
  compute_page_boundaries segs w total ps = Returns pages ->
  pages !! i = Some pg ->
  (i <> 0%nat ->
   (start_time pg <= total)%Q /\
   (forall seg, In seg segs ->
      word_start_idx pg <= word_index seg - 1 <= word_end_idx pg ->
      (start_time pg <= ms_to_s (start_ms seg))%Q) /\
   (start_time pg = total \/
    exists seg, In seg segs /\
      word_start_idx pg <= word_index seg - 1 <= word_end_idx pg /\
      start_time pg = ms_to_s (start_ms seg))) /\
  (S i <> length pages ->
   (0 <= end_time pg)%Q /\
   (forall seg, In seg segs ->
      word_start_idx pg <= word_index seg - 1 <= word_end_idx pg ->
      (ms_to_s (end_ms seg) <= end_time pg)%Q) /\
   (end_time pg = 0%Q \/
    exists seg, In seg segs /\
      word_start_idx pg <= word_index seg - 1 <= word_end_idx pg /\
      end_time pg = ms_to_s (end_ms seg))).
Proof.
  intros Hret Hi.
  destruct (returned_pages _ _ _ _ _ _ _ Hret Hi) as (np & Hlen & Hnp & ->).
  cbn [page_at word_start_idx word_end_idx start_time end_time] in *.
  destruct (scan_bounds (Z.of_nat i * ps)
              (Z.min ((Z.of_nat i + 1) * ps - 1) (w - 1)) segs (total, 0%Q))
    as (H1 & H2 & H3).
  destruct (scan_attains (Z.of_nat i * ps)
              (Z.min ((Z.of_nat i + 1) * ps - 1) (w - 1)) segs (total, 0%Q))
    as (A1 & A2).
  cbn [fst snd] in *.
  split.
  - intros Hne. destruct (Z.eqb_spec (Z.of_nat i) 0); [lia|].
    split; [exact H1|]. split; [|exact A1].
    intros seg Hin Hr. exact (proj1 (H3 seg Hin Hr)).
  - intros Hne. destruct (Z.eqb_spec (Z.of_nat i) (np - 1)); [lia|].
    split; [exact H2|]. split; [|exact A2].
    intros seg Hin Hr. exact (proj2 (H3 seg Hin Hr)).
Qed.

Lemma page_window_holds_words_witness :
  exists pg,
    compute_page_boundaries Examples.sparse_segments 27 13 12
      = Returns Examples.sparse_pages /\
    Examples.sparse_pages !! 2%nat = Some pg /\
    (start_time pg <= 13)%Q /\
    (start_time pg = 13%Q \/
     exists seg, In seg Examples.sparse_segments /\
       word_start_idx pg <= word_index seg - 1 <= word_end_idx pg /\
       start_time pg = ms_to_s (start_ms seg)).
Proof.
  assert (H1 : compute_page_boundaries Examples.sparse_segments 27 13 12
               = Returns Examples.sparse_pages) by (vm_compute; reflexivity).
  exists (mkPage 2 (12000 # 1000) 13 24 26).
  split; [exact H1|]. split; [reflexivity|].
  pose proof (page_window_holds_words Examples.sparse_segments 27 13 12
                Examples.sparse_pages 2 (mkPage 2 (12000 # 1000) 13 24 26)
                H1 eq_refl) as [H _].
  destruct (H ltac:(discriminate)) as (Ht & _ & Ha).
  split; [exact Ht | exact Ha].
Defined.

(** X8: a page with a word that takes time has a window of positive length.
    If a segment whose word lies in the page's word range has
    [0 <= start_ms < end_ms], ends within the total duration, and has its
    timestamps below [2^52] ms, then the page has [start_time < end_time],
    whether it is the first page, the last page or one in between; and the
    start and the end of the segment are in that order, and distinct, as
    binary64 seconds too. *)
Theorem page_with_words_has_duration (segs : list segment) (w : Z) (total : Q)
    (ps : Z) (pages : list page) (i : nat) (pg : page) (seg : segment) :
  compute_page_boundaries segs w total ps = Returns pages ->
  pages !! i = Some pg ->
  In seg segs ->
  word_start_idx pg <= word_index seg - 1 <= word_end_idx pg ->
  0 <= start_ms seg < end_ms seg ->
  end_ms seg < 2 ^ 52 ->
  (ms_to_s (end_ms seg) <= total)%Q ->
  (start_time pg < end_time pg)%Q /\
  (Binary64.ms_to_s (start_ms seg) < Binary64.ms_to_s (end_ms seg))%Q.
Proof.
  intros Hret Hi Hin Hr [Hs0 Hse] H52 Het.
  split; [|apply Binary64Facts.ms_to_s_strict; [split; assumption | exact H52]].
  pose proof (ms_to_s_lt _ _ Hse) as Hlt.
  pose proof (ms_to_s_nonneg _ Hs0) as H0.
  destruct (returned_pages _ _ _ _ _ _ _ Hret Hi) as (np & Hlen & Hnp & ->).
  cbn [page_at word_start_idx word_end_idx start_time end_time] in *.
  destruct (scan_bounds (Z.of_nat i * ps)
              (Z.min ((Z.of_nat i + 1) * ps - 1) (w - 1)) segs (total, 0%Q))
    as (H1 & H2 & H3).
  destruct (H3 seg Hin Hr) as [Hs He]. cbn [fst snd] in *.
  destruct (Z.of_nat i =? 0); destruct (Z.of_nat i =? np - 1); lra.
Qed.

Lemma page_with_words_has_duration_witness :
  exists pg,
    compute_page_boundaries Examples.sparse_segments 27 13 12
      = Returns Examples.sparse_pages /\
    Examples.sparse_pages !! 2%nat = Some pg /\
    (start_time pg < end_time pg)%Q.
Proof.
  assert (H1 : compute_page_boundaries Examples.sparse_segments 27 13 12
               = Returns Examples.sparse_pages) by (vm_compute; reflexivity).
  exists (mkPage 2 (12000 # 1000) 13 24 26).
  split; [exact H1|]. split; [reflexivity|].
  refine (proj1 (page_with_words_has_duration Examples.sparse_segments 27 13 12
            Examples.sparse_pages 2 (mkPage 2 (12000 # 1000) 13 24 26)
            (mkSegment 27 12000 12500) H1 eq_refl _ _ _ _ _)).
  - right. left. reflexivity.
  - cbn. lia.
  - cbn. lia.
  - reflexivity.
  - discriminate.
Defined.

End PageTimes.

Module TranslationTail.
Import Pages Translation Shapes StringFacts TranslationProofs TextLayoutProofs.

Section Loop.
Variables (words : list string) (n_trans_words n_pages total_word_count : Z).

Let step := split_step words n_trans_words n_pages total_word_count.

Local Abbreviation settled := (Shapes.settled words).

Lemma step_settled st chunks i pb :
  settled st chunks ->
  exists chunk, settled (step st (i, pb)) (chunks ++ [chunk]).
Proof.
  intros ([Hseg (m & Hm & Hcat & Hcons)] & Hdone & Htail).
  destruct st as [segments consumed]. cbn [fst snd] in Hseg, Hcons.
  subst segments consumed.
  set (count := Z.max 1 (Py.round
     (inject_Z (word_end_idx pb - word_start_idx pb + 1)
      / inject_Z (Z.max total_word_count 1) * inject_Z n_trans_words)%Q)).
  assert (Hstep : exists j : nat, (1 <= j)%nat /\
    step (map (join " ") chunks, Z.of_nat m) (i, pb)
    = (map (join " ") chunks ++ [join " " (take j (drop m words))],
       Z.of_nat m + Z.of_nat (length (take j (drop m words))))).
  { unfold step, split_step. fold count.
    destruct (Z.eqb_spec i (n_pages - 1)).
    - exists (S (length words)). split; [lia|].
      rewrite slice_from_consumed.
      rewrite (take_ge (drop m words)) by (rewrite length_drop; lia).
      reflexivity.
    - exists (Z.to_nat count). split; [unfold count; lia|].
      rewrite slice_take_drop by (unfold count; lia).
      now rewrite Nat2Z.id. }
  destruct Hstep as (j & Hj & ->).
  set (c := take j (drop m words)).
  assert (Hlen : length c = Nat.min j (length words - m))
    by (unfold c; now rewrite length_take, length_drop).
  assert (Hcat' : concat (chunks ++ [c]) = take (m + length c) words).
  { rewrite concat_app, Hcat. cbn [concat]. rewrite app_nil_r.
    unfold c. rewrite take_take_drop. rewrite length_take, length_drop.
    destruct (Nat.le_ge_cases j (length words - m)) as [H|H].
    - now rewrite Nat.min_l by exact H.
    - rewrite Nat.min_r by exact H. rewrite !take_ge; [reflexivity | lia | lia]. }
  assert (Hfull : concat chunks = words -> c = []).
  { intros E. rewrite Hcat in E. apply (f_equal length) in E.
    rewrite length_take in E. destruct c; [reflexivity | cbn in Hlen; lia]. }
  exists c. split; [|split].
  - split; cbn [fst snd]; [now rewrite map_app|].
    exists (m + length c)%nat. split; [lia|]. split; [exact Hcat' | lia].
  - intros [k Hk]. rewrite Hcat'.
    destruct (Nat.lt_ge_cases k (length chunks)) as [Hlt|Hge].
    + rewrite lookup_app_l in Hk by exact Hlt.
      rewrite (Hfull (Hdone (ex_intro _ k Hk))), Nat.add_0_r.
      rewrite <- Hcat. exact (Hdone (ex_intro _ k Hk)).
    + rewrite lookup_app_r in Hk by exact Hge.
      destruct (k - length chunks)%nat; cbn in Hk; [|discriminate].
      inversion Hk as [Hc]. apply take_ge. rewrite Hc in Hlen. cbn in Hlen. lia.
  - intros a b cb Hab Ha Hb.
    destruct (Nat.lt_ge_cases b (length chunks)) as [Hlt|Hge].
    + rewrite lookup_app_l in Ha by lia. rewrite lookup_app_l in Hb by exact Hlt.
      exact (Htail a b cb Hab Ha Hb).
    + rewrite lookup_app_r in Hb by exact Hge.
      destruct (b - length chunks)%nat eqn:E; cbn in Hb; [|discriminate].
      inversion Hb; subst cb.
      assert (Hlt : (a < length chunks)%nat).
      { apply lookup_lt_Some in Ha. rewrite length_app in Ha. cbn in Ha. lia. }
      rewrite lookup_app_l in Ha by exact Hlt.
      exact (Hfull (Hdone (ex_intro _ a Ha))).
Qed.

Lemma loop_settled (l : list (Z * page)) : forall st chunks,
  settled st chunks ->
  exists chunks',
    settled (fold_left step l st) chunks' /\
    length chunks' = (length chunks + length l)%nat.
Proof.
  induction l as [|[i pb] l IH]; intros st chunks Hinv; cbn [fold_left].
  - exists chunks. split; [exact Hinv | cbn; lia].
  - destruct (step_settled st chunks i pb Hinv) as [c Hc].
    destruct (IH _ _ Hc) as (chunks' & H' & Hlen).
    exists chunks'. split; [exact H'|].
    rewrite length_app in Hlen. cbn [length] in *. lia.
Qed.

End Loop.

(** X9: the empty translation segments are at the tail.  For more than one
    page, if the segment of a page is empty then the segment of every later
    page is empty: a page goes without translation only when the words have
    run out. *)
Theorem empty_segments_at_tail (translation : string) (pages : list page)
    (total : Z) (i j : nat) (sj : string) :
  (1 < length pages)%nat ->
  (i < j)%nat ->
  split_translation_by_pages translation pages total !! i = Some EmptyString ->
  split_translation_by_pages translation pages total !! j = Some sj ->
  sj = EmptyString.
Proof.
  intros Hn Hij Hi Hj. unfold split_translation_by_pages in *.
  destruct (negb (nonempty translation) || (length pages =? 0)%nat) eqn:E.
  - apply orb_true_iff in E as [E|E]; [|apply Nat.eqb_eq in E; lia].
    destruct translation; [|discriminate].
    apply lookup_replicate in Hj as [-> _]. reflexivity.
  - destruct (Z.leb_spec (Z.of_nat (length pages)) 1); [lia|].
    destruct (loop_settled (split translation)
                (Z.of_nat (length (split translation)))
                (Z.of_nat (length pages)) total (enumerate pages) ([], 0) [])
      as (chunks & ([Hseg (m & _ & Hcat & _)] & _ & Htail) & Hlen).
    { split; [|split].
      - split; [reflexivity|]. exists 0%nat. repeat split. lia.
      - intros [k Hk]. rewrite lookup_nil in Hk. discriminate.
      - intros a b cb _ Ha. rewrite lookup_nil in Ha. discriminate. }
    destruct (fold_left _ _ _) as [segments consumed] eqn:F.
    cbn [fst] in Hseg. subst segments. unfold fill_trailing in *.
    assert (Hwl : Forall wordlike (concat chunks)).
    { rewrite Hcat. apply Forall_take. apply split_wordlike. }
    assert (Hchunk : forall k c, chunks !! k = Some c -> Forall wordlike c).
    { intros k c Hk. rewrite List.Forall_forall in Hwl |- *. intros x Hx.
      apply Hwl. apply in_concat. exists c. split; [|exact Hx].
      apply list_elem_of_In. eapply list_elem_of_lookup_2. exact Hk. }
    destruct (Nat.lt_ge_cases j (length (map (join " ") chunks))) as [Hlt|Hge].
    + rewrite lookup_app_l in Hj by exact Hlt.
      rewrite lookup_app_l in Hi by lia.
      rewrite list_lookup_fmap in Hi, Hj.
      destruct (chunks !! i) as [ci|] eqn:Ei; [|discriminate].
      destruct (chunks !! j) as [cj|] eqn:Ej; [|discriminate].
      cbn in Hi, Hj. inversion Hi as [Hi']. inversion Hj; subst sj.
      assert (ci = []).
      { destruct ci as [|x ci]; [reflexivity|].
        pose proof (join_nonempty " " (x :: ci) (Hchunk i _ Ei) ltac:(discriminate)) as Hne.
        rewrite Hi' in Hne. discriminate. }
      subst ci. now rewrite (Htail i j cj Hij Ei Ej).
    + rewrite lookup_app_r in Hj by exact Hge.
      apply lookup_replicate in Hj as [-> _]. reflexivity.
Qed.

Lemma empty_segments_at_tail_witness :
  (1 < length (Examples.two_pages ++ Examples.two_pages))%nat /\
  (2 < 3)%nat /\
  split_translation_by_pages "In the" (Examples.two_pages ++ Examples.two_pages) 15
    !! 2%nat = Some EmptyString /\
  @eq string EmptyString EmptyString.
Proof.
  assert (H1 : (1 < length (Examples.two_pages ++ Examples.two_pages))%nat)
    by (cbn; lia).
  assert (H2 : (2 < 3)%nat) by lia.
  assert (H3 : split_translation_by_pages "In the"
                 (Examples.two_pages ++ Examples.two_pages) 15 !! 2%nat
               = Some EmptyString) by (vm_compute; reflexivity).
  assert (H4 : split_translation_by_pages "In the"
                 (Examples.two_pages ++ Examples.two_pages) 15 !! 3%nat
               = Some EmptyString) by (vm_compute; reflexivity).
  split; [exact H1|]. split; [exact H2|]. split; [exact H3|].
  exact (empty_segments_at_tail "In the"
           (Examples.two_pages ++ Examples.two_pages) 15 2 3 EmptyString
           H1 H2 H3 H4).
Defined.

End TranslationTail.

Module StateList.
Import Pages Timeline TextLayout Accumulating Shapes PyFacts TimelineProofs.

Lemma visible_end (start_s end_s : Q) :
  (start_s + (1 # 20)
   <= (if Qltb (end_s - start_s) (1 # 20) then start_s + (1 # 20) else end_s))%Q
  /\ (end_s <= (if Qltb (end_s - start_s) (1 # 20) then start_s + (1 # 20)
                else end_s))%Q.
Proof.
  destruct (Qltb (end_s - start_s) (1 # 20)) eqn:E.
  - apply Qltb_lt in E. split; lra.
  - apply Qltb_ge in E. split; lra.
Qed.

Lemma build_states_visible ps total wm (segs : list segment) : forall cw states,
  build_states ps total wm segs cw = Returns states ->
  Forall (fun s => (st_start s < st_end s)%Q) states /\
  length states = length (emitted_texts wm segs).
Proof.
  induction segs as [|seg rest IH]; intros cw states Hb.
  - cbn in Hb. inversion Hb. split; [constructor | reflexivity].
  - cbn [build_states] in Hb. unfold emitted_texts. cbn [map List.filter].
    fold (emitted_texts wm rest).
    destruct (nonempty (default EmptyString (wm !! word_index seg)));
      cbn [negb] in Hb; cbv iota in Hb.
    + destruct (ps =? 0); [discriminate|].
      destruct (build_states ps total wm rest _) as [states'|] eqn:Hb';
        cbn [bind] in Hb; [|discriminate].
      inversion Hb; subst states; clear Hb.
      destruct (IH _ _ Hb') as [Hall Hlen]. split.
      * constructor; [|exact Hall]. cbn [st_start st_end].
        match goal with
        | |- (?s < if Qltb (?e - ?s) _ then _ else _)%Q =>
          pose proof (proj1 (visible_end s e)) as Hv
        end.
        eapply Qlt_le_trans; [|exact Hv]. lra.
      * cbn [length]. now rewrite Hlen.
    + now apply (IH _ _ Hb).
Qed.

Lemma build_states_sorted ps total wm (segs : list segment) : forall cw states,
  StronglySorted by_start segs ->
  build_states ps total wm segs cw = Returns states ->
  StronglySorted starts_before states.
Proof.
  induction segs as [|seg rest IH]; intros cw states Hs Hb.
  - cbn in Hb. inversion Hb. constructor.
  - apply StronglySorted_inv in Hs as [Hs Hseg]. cbn [build_states] in Hb.
    destruct (negb _).
    + now apply (IH _ _ Hs Hb).
    + destruct (ps =? 0); [discriminate|].
      destruct (build_states ps total wm rest _) as [states'|] eqn:Hb';
        cbn [bind] in Hb; [|discriminate].
      inversion Hb; subst states. constructor; [now apply (IH _ _ Hs Hb')|].
      unfold starts_before. cbn [st_start].
      now apply (build_states_lower_bound _ _ _ _ _ _ _ Hseg Hb').
Qed.

(** X10: the list of text states.  For start times below [2^50] ms in
    absolute value, every state ends after it starts, the states are in the
    order of their start times, and there is one state for each segment that
    has a text; and the end that the program computes in binary64 for the
    state of a segment is after its start as well, whatever the start of the
    next segment or the total duration is. *)
Theorem states_are_visible (segments : list segment) (words : list word)
    (total : Q) (style : StyleConfig) (states : list state) :
  (forall seg, In seg segments -> - 2 ^ 50 < start_ms seg < 2 ^ 50) ->
  text_states segments words total style = Returns states ->
  Forall (fun s => (st_start s < st_end s)%Q) states /\
  StronglySorted starts_before states /\
  length states
  = length (emitted_texts (make_word_map words) (sorted segments)) /\
  (forall seg end_s, In seg segments ->
     (Binary64.ms_to_s (start_ms seg)
      < Binary64.visible_end (Binary64.ms_to_s (start_ms seg)) end_s)%Q).
Proof.
  intros Hr Hb. unfold text_states in Hb.
  destruct (build_states_visible _ _ _ _ _ _ Hb) as [Hv Hl].
  split; [exact Hv|]. split; [|split; [exact Hl|]].
  - exact (build_states_sorted _ _ _ _ _ _ (sorted_is_sorted segments) Hb).
  - intros seg end_s Hin.
    apply Binary64Facts.visible_end_after_start. now apply Hr.
Qed.

Lemma states_are_visible_witness :
  text_states Examples.fast_segments Examples.fast_words 1 Examples.paged_style
    = Returns Examples.paged_states /\
  Forall (fun s => (st_start s < st_end s)%Q) Examples.paged_states /\
  length Examples.paged_states = 3%nat.
Proof.
  assert (H : text_states Examples.fast_segments Examples.fast_words 1
                Examples.paged_style = Returns Examples.paged_states)
    by (vm_compute; reflexivity).
  assert (Hr : forall seg, In seg Examples.fast_segments ->
                 - 2 ^ 50 < start_ms seg < 2 ^ 50).
  { intros seg Hin. cbn in Hin.
    repeat (destruct Hin as [<-|Hin]; [cbn; split; [reflexivity | reflexivity]|]).
    destruct Hin. }
  split; [exact H|].
  pose proof (states_are_visible _ _ _ _ _ Hr H) as (H1 & _ & H3 & _).
  split; [exact H1 | exact H3].
Defined.

Section Gaps.
Variable render_text : string -> frame.

Lemma first_match_some (l : list state) (t : Q) (f : frame) :
  first_match render_text l t = Some f ->
  exists s, In s l /\ f = render_text (st_text s) /\ in_interval s t = true.
Proof.
  induction l as [|a l IH]; cbn [first_match]; [discriminate|].
  destruct (in_interval a t) eqn:E.
  - intros H. inversion H. exists a. split; [now left|]. now split.
  - intros H. destruct (IH H) as (s & Hin & Hf & Hs).
    exists s. split; [now right|]. now split.
Qed.

Lemma chained_last (t : Q) (l : list state) : forall a rest,
  l = a :: rest ->
  chained l ->
  (st_start a <= t)%Q ->
  first_match render_text l t = None ->
  exists s, last l = Some s /\ (st_start s <= t)%Q.
Proof.
  induction l as [|x l IH]; intros a rest El Hc Ha Hn; [discriminate|].
  inversion El; subst x l. clear El.
  cbn [first_match] in Hn.
  destruct (in_interval a t) eqn:E; [discriminate|].
  assert (Hend : (st_end a <= t)%Q).
  { unfold in_interval in E. apply andb_false_iff in E as [E|E].
    - unfold Qleb in E. apply not_true_iff_false in E.
      exfalso. apply E. now apply Qle_bool_iff.
    - now apply Qltb_ge in E. }
  destruct rest as [|b rest'].
  - exists a. split; [reflexivity | exact Ha].
  - cbn [chained] in Hc. destruct Hc as [Hab Hc].
    destruct (IH b rest' eq_refl Hc ltac:(lra) Hn) as (s & Hl & Hs).
    exists s. split; [exact Hl | exact Hs].
Qed.

End Gaps.

Lemma build_states_chained ps total wm (segs : list segment) : forall cw states,
  all_texted wm segs ->
  build_states ps total wm segs cw = Returns states ->
  chained states /\
  match segs with
  | [] => states = []
  | seg :: _ => exists s rest, states = s :: rest /\
                  st_start s = ms_to_s (start_ms seg)
  end.
Proof.
  induction segs as [|seg rest IH]; intros cw states Hall Hb.
  - cbn in Hb. inversion Hb. split; [exact I | reflexivity].
  - cbn [build_states] in Hb.
    rewrite (Hall seg (or_introl eq_refl)) in Hb. cbn [negb] in Hb.
    destruct (ps =? 0); [discriminate|].
    destruct (build_states ps total wm rest _) as [states'|] eqn:Hb';
      cbn [bind] in Hb; [|discriminate].
    inversion Hb; subst states; clear Hb.
    destruct (IH _ _ (fun s Hs => Hall s (or_intror Hs)) Hb') as [Hc Hhead].
    split; [|eexists; eexists; split; reflexivity].
    destruct rest as [|next rest'].
    + subst states'. exact I.
    + destruct Hhead as (s & tl & -> & Hs). cbn [chained st_end].
      split; [|exact Hc]. rewrite Hs.
      exact (proj2 (visible_end (ms_to_s (start_ms seg))
                      (ms_to_s (start_ms next)))).
Qed.

(** X11: when every segment has a text, the text never goes away between
    two words: from the start of the first state on, the frame is the
    render of a state that has started. *)
Theorem no_gap_between_words (render_text : string -> frame)
    (segments : list segment) (words : list word) (total : Q)
    (style : StyleConfig) (states : list state) (first : state) (t : Q) :
  text_states segments words total style = Returns states ->
  (forall seg, In seg segments ->
     nonempty (default EmptyString (make_word_map words !! word_index seg))
     = true) ->
  head states = Some first ->
  (st_start first <= t)%Q ->
  exists s, In s states /\ (st_start s <= t)%Q /\
    _get_state_at render_text states t = render_text (st_text s).
Proof.
  intros Hb Hall Hhead Ht. unfold text_states in Hb.
  assert (Hall' : all_texted (make_word_map words) (sorted segments)).
  { intros seg Hin. apply Hall. now apply sorted_In. }
  destruct (build_states_chained _ _ _ _ _ _ Hall' Hb) as [Hc _].
  destruct states as [|a rest]; [discriminate|].
  cbn in Hhead. inversion Hhead; subst a. clear Hhead.
  unfold _get_state_at.
  destruct (first_match render_text (first :: rest) t) as [f|] eqn:Hf.
  - destruct (first_match_some _ _ _ _ Hf) as (s & Hin & -> & Hs).
    exists s. split; [exact Hin|]. split; [|reflexivity].
    unfold in_interval in Hs. apply andb_true_iff in Hs as [Hs _].
    now apply Qleb_le in Hs.
  - destruct (chained_last render_text t _ _ _ eq_refl Hc Ht Hf)
      as (s & Hl & Hs).
    exists s. rewrite Hl. split; [|split; [exact Hs|]].
    + apply last_Some in Hl as [l' ->].
      apply in_or_app. right. now left.
    + assert (E : Qleb (st_start s) t = true) by now apply Qleb_le.
      now rewrite E.
Qed.

Lemma no_gap_between_words_witness :
  exists s, In s Examples.paged_states /\ (st_start s <= 1 # 2)%Q /\
    _get_state_at (fun _ => empty_frame) Examples.paged_states (1 # 2)
    = empty_frame.
Proof.
  assert (H1 : text_states Examples.fast_segments Examples.fast_words 1
                 Examples.paged_style = Returns Examples.paged_states)
    by (vm_compute; reflexivity).
  assert (H2 : forall seg, In seg Examples.fast_segments ->
     nonempty (default EmptyString
                 (make_word_map Examples.fast_words !! word_index seg)) = true).
  { intros seg Hin. cbn in Hin.
    repeat (destruct Hin as [<-|Hin]; [vm_compute; reflexivity|]).
    destruct Hin. }
  destruct (head Examples.paged_states) as [first|] eqn:Hh; [|discriminate].
  assert (H4 : (st_start first <= 1 # 2)%Q).
  { vm_compute in Hh. inversion Hh. vm_compute. discriminate. }
  exact (no_gap_between_words (fun _ => empty_frame) _ _ _ _ _ first (1 # 2)
           H1 H2 Hh H4).
Defined.

Lemma build_states_returns ps total wm (segs : list segment) : forall cw,
  ps <> 0 -> exists states, build_states ps total wm segs cw = Returns states.
Proof.
  induction segs as [|seg rest IH]; intros cw Hps; cbn [build_states].
  - now exists [].
  - destruct (negb _); [now apply IH|].
    destruct (Z.eqb_spec ps 0); [contradiction|].
    destruct (IH (cw ++ [default EmptyString (wm !! word_index seg)]) Hps)
      as [states ->].
    cbn [bind]. eexists. reflexivity.
Qed.

Lemma build_states_zero total wm (segs : list segment) : forall cw,
  emitted_texts wm segs <> [] ->
  build_states 0 total wm segs cw = Raises ZeroDivisionError.
Proof.
  induction segs as [|seg rest IH]; intros cw Hne; [now destruct Hne|].
  cbn [build_states]. unfold emitted_texts in Hne. cbn [map List.filter] in Hne.
  fold (emitted_texts wm rest) in Hne.
  destruct (nonempty (default EmptyString (wm !! word_index seg)));
    cbn [negb]; [reflexivity | now apply IH].
Qed.

(** With a crossfade duration other than 0 the frame function returns at
    every time. *)
Lemma crossfade_returns (render_text : string -> frame) (states : list state)
    (crossfade_dur : Q) (t : Q) (frame_rgba : frame) (transitions : list Q) :
  Qeq_bool crossfade_dur 0 = false ->
  exists f, crossfade render_text states crossfade_dur transitions t frame_rgba
            = Returns f.
Proof.
  intros Hd. induction transitions as [|trans_t rest IH]; cbn [crossfade].
  - eauto.
  - destruct (in_window crossfade_dur trans_t t); [|exact IH].
    destruct (fold_left _ states _) as [out_frame in_frame].
    rewrite Hd. eauto.
Qed.

Lemma video_clip_returns (states : list state)
    (rendered_frames : gmap string frame) (crossfade_dur : Q) :
  Qeq_bool crossfade_dur 0 = false ->
  Accumulating.video_clip states rendered_frames crossfade_dur = Returns tt.
Proof.
  intros Hd. unfold Accumulating.video_clip, make_frame.
  destruct (crossfade_returns (Accumulating.frame_of rendered_frames) states
              crossfade_dur 0
              (_get_state_at (Accumulating.frame_of rendered_frames) states 0)
              (page_transitions states) Hd) as [f ->].
  reflexivity.
Qed.

(** Two states that start at 0 on different pages: with a crossfade duration
    of 0 the frame at time 0 divides by 0. *)
Lemma first_frame_raises (rendered_frames : gmap string frame) :
  Accumulating.video_clip
    [mkState (0 # 1000) (1000 # 20000) 0 "a"; mkState (0 # 1000) 2 1 "b"]
    rendered_frames 0 = Raises ZeroDivisionError.
Proof. reflexivity. Qed.

Section Fallback.
Variable _clean_arabic : string -> string.
Variable draw : Z -> string -> outcome frame.
Variable _make_centered_frame : frame -> outcome frame.
Variables page_font_size page_words_per_line : Z.

Local Abbreviation render_page :=
  (Accumulating.render_page _clean_arabic draw _make_centered_frame
     page_font_size page_words_per_line).
Local Abbreviation prerender :=
  (Accumulating.prerender _clean_arabic draw _make_centered_frame
     page_font_size page_words_per_line).

(** With no word to a line the wrap raises and no page is rendered. *)
Lemma render_page_zero (text_str : string) :
  page_words_per_line = 0 ->
  exists e, render_page text_str = Raises e.
Proof.
  intros E. unfold Accumulating.render_page, render_text, wrap_text, wrap_lines,
    range3. rewrite E. cbn. eauto.
Qed.

(** The pre-render loop keeps what is rendered and renders the text of
    every state. *)
Lemma prerender_frames (states : list state) : forall m m',
  prerender states m = Returns m' ->
  (forall k f, m !! k = Some f -> render_page k = Returns f) ->
  (forall k f, m !! k = Some f -> m' !! k = Some f) /\
  (forall k f, m' !! k = Some f -> render_page k = Returns f) /\
  (forall s, In s states -> exists f, m' !! st_text s = Some f).
Proof.
  induction states as [|st rest IH]; intros m m' Hrun Hm; cbn [Accumulating.prerender] in Hrun.
  - injection Hrun as <-. split; [auto|]. split; [exact Hm|]. intros s [].
  - destruct (m !! st_text st) as [f0|] eqn:Hl.
    + destruct (IH _ _ Hrun Hm) as (Hkeep & Hall & Hin).
      split; [exact Hkeep|]. split; [exact Hall|].
      intros s [<-|Hs]; [exists f0; now apply Hkeep | now apply Hin].
    + destruct (render_page (st_text st)) as [f|e] eqn:Hr; cbn [bind] in Hrun;
        [|discriminate].
      assert (Hm' : forall k f', <[st_text st := f]> m !! k = Some f' ->
                      render_page k = Returns f').
      { intros k f' Hk. destruct (decide (st_text st = k)) as [<-|Hne].
        - rewrite lookup_insert_eq in Hk. injection Hk as <-. exact Hr.
        - rewrite lookup_insert_ne in Hk by exact Hne. now apply Hm. }
      destruct (IH _ _ Hrun Hm') as (Hkeep & Hall & Hin).
      split; [|split; [exact Hall|]].
      * intros k f' Hk. apply Hkeep.
        destruct (decide (st_text st = k)) as [<-|Hne]; [congruence|].
        now rewrite lookup_insert_ne by exact Hne.
      * intros s [<-|Hs]; [|now apply Hin].
        exists f. apply Hkeep. apply lookup_insert_eq.
Qed.

Lemma prerender_returns (states : list state) : forall m,
  (forall text_str, exists f, render_page text_str = Returns f) ->
  exists m', prerender states m = Returns m'.
Proof.
  induction states as [|st rest IH]; intros m Hall; cbn [Accumulating.prerender].
  - now exists m.
  - destruct (m !! st_text st); [now apply IH|].
    destruct (Hall (st_text st)) as [f ->]. cbn [bind]. now apply IH.
Qed.

Lemma prerender_zero (st : state) (rest : list state) :
  page_words_per_line = 0 ->
  exists e, prerender (st :: rest) ∅ = Raises e.
Proof.
  intros E. cbn [Accumulating.prerender]. rewrite lookup_empty.
  destruct (render_page_zero (st_text st) E) as [e ->]. cbn. eauto.
Qed.

(** X12: when the paged clip is built and when the fallback is used.  With
    a page size of 0, without any segment that has a text, or with
    [page_words_per_line = 0] (the wrap raises), the result is the fallback:
    the static clip of the full text, or [None] when that raises too.  A
    paged clip is returned only with the state list of the segments, one
    state per segment with a text, and with a frame rendered for the text of
    every state; and it is returned whenever the page size is not 0, some
    segment has a text, every page text renders and the crossfade duration
    is not 0 (with a crossfade duration of 0 the first frame can raise
    [ZeroDivisionError], as in the last part: two words that start at 0 ms
    on pages of one word). *)
Theorem paged_or_static (segments : list segment) (words : list word)
    (total : Q) (style : StyleConfig) :
  let texts := emitted_texts (make_word_map words) (sorted segments) in
  let result :=
    Accumulating.create_accumulating_text_lines _clean_arabic draw
      _make_centered_frame page_font_size page_words_per_line
      segments words total style in
  let fallback :=
    Accumulating.fallback _clean_arabic draw _make_centered_frame words in
  (page_size style = 0 \/ texts = [] \/ page_words_per_line = 0 ->
   result = fallback) /\
  (forall states transitions rendered_frames,
     result = PagedClip states transitions rendered_frames ->
     text_states segments words total style = Returns states /\
     states <> [] /\ length states = length texts /\
     transitions = page_transitions states /\
     forall s, In s states ->
       exists f, rendered_frames !! st_text s = Some f /\
                 Accumulating.render_page _clean_arabic draw
                   _make_centered_frame page_font_size page_words_per_line
                   (st_text s) = Returns f) /\
  (page_size style <> 0 -> texts <> [] ->
   (forall text_str, exists f,
      Accumulating.render_page _clean_arabic draw _make_centered_frame
        page_font_size page_words_per_line text_str = Returns f) ->
   ~ (page_crossfade_duration style == 0)%Q ->
   exists states rendered_frames,
     result = PagedClip states (page_transitions states) rendered_frames) /\
  (Accumulating.create_accumulating_text_lines _clean_arabic draw
     _make_centered_frame page_font_size page_words_per_line
     [mkSegment 1 0 400; mkSegment 2 0 800]
     [mkWord 1 "a"; mkWord 2 "b"] 2 (mkStyle 1 0)
   = Accumulating.fallback _clean_arabic draw _make_centered_frame
       [mkWord 1 "a"; mkWord 2 "b"]).
Proof.
  intros texts result fallback.
  unfold result, fallback, create_accumulating_text_lines, Accumulating.fallback.
  set (static := create_text_clip _clean_arabic draw _make_centered_frame
                   (join " " (map text words))).
  assert (Hlen : forall states,
            text_states segments words total style = Returns states ->
            length states = length texts).
  { intros states Hb. unfold text_states in Hb.
    exact (proj2 (build_states_visible _ _ _ _ _ _ Hb)). }
  split; [|split; [|split]].
  - intros Hcase.
    destruct (text_states segments words total style) as [[|st rest]|e] eqn:Hb;
      cbn [bind]; try (now destruct static).
    destruct Hcase as [Hz|[Hnil|Hwpl]].
    + exfalso. pose proof (Hlen _ eq_refl) as Hl.
      unfold text_states in Hb. rewrite Hz in Hb.
      rewrite build_states_zero in Hb; [discriminate|].
      intros E. unfold texts in Hl. rewrite E in Hl. discriminate.
    + exfalso. pose proof (Hlen _ eq_refl) as Hl. rewrite Hnil in Hl.
      discriminate.
    + destruct (prerender_zero st rest Hwpl) as [e He].
      rewrite He. cbn [bind]. now destruct static.
  - intros states transitions frames Hres.
    destruct (text_states segments words total style) as [[|st rest]|e] eqn:Hb;
      cbn [bind] in Hres; try (destruct static; discriminate).
    destruct (prerender (st :: rest) ∅) as [m'|e] eqn:Hp; cbn [bind] in Hres;
      [|destruct static; discriminate].
    destruct (Accumulating.video_clip (st :: rest) m' (page_crossfade_duration style))
      as [[]|e]; cbn [bind] in Hres; [|destruct static; discriminate].
    injection Hres as <- <- <-.
    split; [reflexivity|]. split; [discriminate|].
    split; [exact (Hlen _ eq_refl)|]. split; [reflexivity|].
    destruct (prerender_frames _ _ _ Hp) as (_ & Hall & Hin).
    { intros k f Hk. rewrite lookup_empty in Hk. discriminate. }
    intros s Hs. destruct (Hin s Hs) as [f Hf].
    exists f. split; [exact Hf | now apply Hall].
  - intros Hps Htexts Hrender Hcross.
    destruct (build_states_returns (page_size style) total (make_word_map words)
                (sorted segments) [] Hps) as [states Hb].
    fold (text_states segments words total style) in Hb.
    pose proof (Hlen _ Hb) as Hl. rewrite Hb. cbn [bind].
    destruct states as [|st rest].
    { destruct texts; [congruence | discriminate]. }
    destruct (prerender_returns (st :: rest) ∅ Hrender) as [m' Hm'].
    rewrite Hm'. cbn [bind].
    rewrite video_clip_returns.
    + cbn [bind]. now exists (st :: rest), m'.
    + destruct (Qeq_bool (page_crossfade_duration style) 0) eqn:E; [|reflexivity].
      apply Qeq_bool_iff in E. contradiction.
  - assert (Hs : text_states [mkSegment 1 0 400; mkSegment 2 0 800]
                   [mkWord 1 "a"; mkWord 2 "b"] 2 (mkStyle 1 0)
                 = Returns [mkState (0 # 1000) (1000 # 20000) 0 "a";
                            mkState (0 # 1000) 2 1 "b"])
      by (vm_compute; reflexivity).
    rewrite Hs. cbn [bind page_crossfade_duration].
    destruct (prerender _ ∅) as [m'|e]; cbn [bind]; [|reflexivity].
    rewrite first_frame_raises. reflexivity.
Qed.

End Fallback.

End StateList.

Module ScheduleProofs.
Import Sequencer Shapes Intro PyFacts SequencerProofs Examples MoreExamples.

Lemma starts_at_snoc (us : list ayah_data) (d : ayah_data) (i : nat) :
  (i <= length us)%nat -> starts_at (us ++ [d]) i = starts_at us i.
Proof.
  intros Hi. destruct i as [|j]; [reflexivity|]. cbn [starts_at].
  now rewrite lookup_app_l by lia.
Qed.

Lemma starts_at_end (us : list ayah_data) (d : ayah_data) :
  starts_at (us ++ [d]) (length (us ++ [d])) = segment_end d.
Proof.
  rewrite length_app. cbn [length]. rewrite Nat.add_1_r. cbn [starts_at].
  rewrite lookup_app_r by lia. now rewrite Nat.sub_diag.
Qed.

Lemma max_content_ge_min (b : bool) :
  (inject_Z MIN_REEL_DURATION_SECONDS <= max_content_duration b)%Q.
Proof. destruct b; vm_compute; discriminate. Qed.

Lemma max_content_le_max (b : bool) :
  (max_content_duration b <= inject_Z MAX_REEL_DURATION_SECONDS)%Q.
Proof. destruct b; vm_compute; discriminate. Qed.

Section Reel.
Variable fetch_single_ayah : nat -> Z -> Z -> Q -> Q -> outcome ayah_data.
Variable validate_verse_range : Z -> Z -> Z -> outcome (Z * Z).
Variable ENABLE_INTRO_FRAME : bool.
Variable surah : Z.
Variable ayah_padding : Q.

Let max_content := max_content_duration ENABLE_INTRO_FRAME.
Let fetch_loop := fetch_requested fetch_single_ayah ENABLE_INTRO_FRAME surah ayah_padding.
Let extend_loop := extend fetch_single_ayah ENABLE_INTRO_FRAME surah ayah_padding.

Local Abbreviation scheduled := (Shapes.scheduled fetch_single_ayah surah ayah_padding).

Lemma scheduled_snoc start st data total e :
  scheduled start st ->
  fetch_single_ayah (calls st) surah (current_ayah st) (current_time st)
    ayah_padding = Returns data ->
  scheduled start
    (mkProgress (units st ++ [data]) (segment_end data) (current_ayah st + 1)
       total e (S (calls st))).
Proof.
  intros (Ha & Ht & Hu) Hf. split; [|split]; cbn [units current_ayah current_time calls].
  - rewrite Ha, length_app. cbn [length]. lia.
  - now rewrite starts_at_end.
  - intros i d Hl.
    destruct (Nat.lt_ge_cases i (length (units st))) as [Hlt|Hge].
    + rewrite lookup_app_l in Hl by exact Hlt.
      destruct (Hu i d Hl) as (k & Hk & Hfk).
      exists k. split; [lia|]. now rewrite starts_at_snoc by lia.
    + rewrite lookup_app_r in Hl by exact Hge.
      destruct (i - length (units st))%nat eqn:E; cbn in Hl; [|discriminate].
      inversion Hl; subst d. assert (i = length (units st)) by lia. subst i.
      exists (calls st). split; [lia|].
      rewrite starts_at_snoc by lia. now rewrite <- Ha, <- Ht.
Qed.

Lemma scheduled_after_call start st :
  scheduled start st -> scheduled start (after_call st).
Proof.
  intros (Ha & Ht & Hu). split; [exact Ha|]. split; [exact Ht|].
  intros i d Hl. destruct (Hu i d Hl) as (k & Hk & Hfk).
  exists k. split; [cbn; lia | exact Hfk].
Qed.

Lemma fetch_requested_scheduled start (fuel : nat) : forall requested_end st st',
  fetch_loop fuel requested_end st = Some (Returns st') ->
  scheduled start st -> scheduled start st'.
Proof.
  induction fuel as [|fuel IH]; intros e st st' Hrun Hs;
    unfold fetch_loop in Hrun; cbn [fetch_requested] in Hrun;
    destruct (current_ayah st <=? e); try discriminate;
    try (inversion Hrun; subst; exact Hs).
  destruct (fetch_single_ayah _ _ _ _ _) as [data|] eqn:Hf; [|discriminate].
  destruct (_ && _).
  - inversion Hrun; subst. now apply scheduled_after_call.
  - apply (IH _ _ _ Hrun). now apply scheduled_snoc.
Qed.

Lemma extend_exit (max_ayah : Z) (st : progress) :
  Qltb (total_duration st) (inject_Z MIN_REEL_DURATION_SECONDS)
  && (current_ayah st <=? max_ayah)
  && Qltb (total_duration st) (max_content_duration ENABLE_INTRO_FRAME) = false ->
  (inject_Z MIN_REEL_DURATION_SECONDS <= total_duration st)%Q \/
  max_ayah < current_ayah st.
Proof.
  intros C.
  apply andb_false_iff in C as [C|C]; [apply andb_false_iff in C as [C|C]|].
  - left. now apply Qltb_ge in C.
  - right. apply Z.leb_gt in C. lia.
  - left. apply Qltb_ge in C.
    eapply Qle_trans; [apply (max_content_ge_min ENABLE_INTRO_FRAME) | exact C].
Qed.

(** The extension loop keeps the schedule and stops only for one of its
    three reasons. *)
Lemma extend_scheduled start (fuel : nat) : forall max_ayah st st',
  extend_loop fuel max_ayah st = Some (Returns st') ->
  scheduled start st ->
  scheduled start st' /\
  ((inject_Z MIN_REEL_DURATION_SECONDS <= total_duration st')%Q \/
   max_ayah < current_ayah st' \/
   exists k d,
     fetch_single_ayah k surah (current_ayah st') (current_time st') ayah_padding
     = Returns d /\ (max_content < segment_end d + (1 # 2))%Q).
Proof.
  induction fuel as [|fuel IH]; intros e st st' Hrun Hs;
    unfold extend_loop in Hrun; cbn [extend] in Hrun.
  - destruct (Qltb (total_duration st) _ && (current_ayah st <=? e) && Qltb _ _) eqn:C; [discriminate|].
    injection Hrun as <-.
    split; [exact Hs|]. destruct (extend_exit _ _ C); tauto.
  - destruct (Qltb (total_duration st) _ && (current_ayah st <=? e) && Qltb _ _) eqn:C.
    + destruct (fetch_single_ayah _ _ _ _ _) as [data|] eqn:Hf; [|discriminate].
      destruct (Qltb (max_content_duration ENABLE_INTRO_FRAME)
                  (segment_end data + (1 # 2))) eqn:E.
      * injection Hrun as <-.
        split; [now apply scheduled_after_call|].
        right. right. exists (calls st), data. cbn [after_call current_ayah current_time].
        split; [exact Hf|]. now apply Qltb_lt in E.
      * apply (IH _ _ _ Hrun). now apply scheduled_snoc.
    + injection Hrun as <-.
      split; [exact Hs|]. destruct (extend_exit _ _ C); tauto.
Qed.

Lemma extend_end_ayah (fuel : nat) : forall max_ayah st st',
  extend_loop fuel max_ayah st = Some (Returns st') ->
  end_ayah st = current_ayah st - 1 ->
  end_ayah st' = current_ayah st' - 1.
Proof.
  induction fuel as [|fuel IH]; intros e st st' Hrun He;
    unfold extend_loop in Hrun; cbn [extend] in Hrun;
    destruct (Qltb (total_duration st) _ && (current_ayah st <=? e) && Qltb _ _);
    try discriminate;
    try (injection Hrun as <-; exact He).
  destruct (fetch_single_ayah _ _ _ _ _) as [data|]; [|discriminate].
  destruct (Qltb (max_content_duration ENABLE_INTRO_FRAME)
              (segment_end data + (1 # 2))).
  - injection Hrun as <-. exact He.
  - apply (IH _ _ _ Hrun). reflexivity.
Qed.

Lemma scheduled_start start tot e :
  scheduled start (mkProgress [] (1 # 10) start tot e 0).
Proof.
  split; [cbn; lia|]. split; [reflexivity|].
  intros i d Hl. cbn in Hl. rewrite lookup_nil in Hl. discriminate.
Qed.

(** What [assemble] returns: the schedule, the reason for which the
    extension stopped, and the end ayah when the fetcher echoes the ayah
    number. *)
Lemma assemble_scheduled start requested_end st :
  assemble fetch_single_ayah ENABLE_INTRO_FRAME surah ayah_padding
    start requested_end = Some (Returns st) ->
  scheduled start st /\
  ((inject_Z MIN_REEL_DURATION_SECONDS <= total_duration st)%Q \/
   default requested_end (VERSE_COUNTS !! surah) < current_ayah st \/
   exists k d,
     fetch_single_ayah k surah (current_ayah st) (current_time st) ayah_padding
     = Returns d /\ (max_content < segment_end d + (1 # 2))%Q) /\
  ((forall k s a t p d, fetch_single_ayah k s a t p = Returns d -> ayah d = a) ->
   end_ayah st = current_ayah st - 1).
Proof.
  unfold assemble. intros H.
  destruct (fetch_requested _ _ _ _ _ _ _) as [[st1|e]|] eqn:H1; try discriminate.
  pose proof (fetch_requested_scheduled start _ _ _ _ H1
                (scheduled_start start _ _)) as Hs1.
  destruct (last (units st1)) as [final|] eqn:Hl; [|discriminate].
  assert (Hs1' : scheduled start
            (mkProgress (units st1) (current_time st1) (current_ayah st1)
               (current_time st1 + (1 # 2))%Q (ayah final) (calls st1)))
    by exact Hs1.
  destruct (extend_scheduled start _ _ _ _ H Hs1') as [Hs Hstop].
  split; [exact Hs|]. split; [exact Hstop|].
  intros Hecho. apply (extend_end_ayah _ _ _ _ H).
  cbn [end_ayah current_ayah].
  destruct Hs1 as (Ha & _ & Hu).
  apply last_Some in Hl as [us Hus].
  assert (Hlook : units st1 !! length us = Some final).
  { rewrite Hus, lookup_app_r by lia. now rewrite Nat.sub_diag. }
  destruct (Hu _ _ Hlook) as (k & _ & Hf).
  rewrite (Hecho _ _ _ _ _ _ Hf), Ha, Hus, length_app. cbn [length]. lia.
Qed.

(** X13: the units of a reel are fetched back to back.  Unit [i] is what a
    fetch of ayah [start + i] returned, for the start time 0.1 when [i] is 0
    and for the end of unit [i - 1] otherwise; there is at least one unit. *)
Theorem units_back_to_back (start_ayah requested_end : Z) (r : reel) :
  generate_reel fetch_single_ayah validate_verse_range ENABLE_INTRO_FRAME
    surah ayah_padding start_ayah requested_end = Some (Returns r) ->
  reel_units r <> [] /\
  forall i d, reel_units r !! i = Some d ->
    exists k,
      fetch_single_ayah k surah (reel_start_ayah r + Z.of_nat i)
        (starts_at (reel_units r) i) ayah_padding = Returns d.
Proof.
  unfold generate_reel. intros Hr.
  destruct (validate_verse_range _ _ _) as [[s e]|]; [|discriminate].
  destruct (assemble _ _ _ _ _ _) as [[st|err]|] eqn:Ha; try discriminate.
  injection Hr as <-. cbn [reel_units reel_start_ayah].
  destruct (assemble_scheduled _ _ _ Ha) as [(_ & _ & Hu) _].
  destruct (assemble_inv _ _ _ _ _ _ _ Ha) as [_ (final & Hl & _)].
  split; [intros E; rewrite E in Hl; discriminate|].
  intros i d Hd. destruct (Hu i d Hd) as (k & _ & Hf). now exists k.
Qed.

(** X14: when the fetcher returns the ayah it was asked for, the verse range
    that [generate_reel] reports is the range of its units: the start is the
    validated start, the end is [start + len(units) - 1], and unit [i] is
    ayah [start + i]. *)
Theorem reported_range_matches_units (start_ayah requested_end : Z) (r : reel) :
  (forall k s a t p d, fetch_single_ayah k s a t p = Returns d -> ayah d = a) ->
  generate_reel fetch_single_ayah validate_verse_range ENABLE_INTRO_FRAME
    surah ayah_padding start_ayah requested_end = Some (Returns r) ->
  (exists e, validate_verse_range surah start_ayah requested_end
             = Returns (reel_start_ayah r, e)) /\
  reel_end_ayah r = reel_start_ayah r + Z.of_nat (length (reel_units r)) - 1 /\
  forall i d, reel_units r !! i = Some d ->
    ayah d = reel_start_ayah r + Z.of_nat i.
Proof.
  unfold generate_reel. intros Hecho Hr.
  destruct (validate_verse_range _ _ _) as [[s e]|]; [|discriminate].
  destruct (assemble _ _ _ _ _ _) as [[st|err]|] eqn:Ha; try discriminate.
  injection Hr as <-. cbn [reel_units reel_start_ayah reel_end_ayah].
  destruct (assemble_scheduled _ _ _ Ha) as [(Hcur & _ & Hu) (_ & Hend)].
  split; [now exists e|]. split.
  - rewrite (Hend Hecho), Hcur. lia.
  - intros i d Hd. destruct (Hu i d Hd) as (k & _ & Hf).
    exact (Hecho _ _ _ _ _ _ Hf).
Qed.

(** X15: a reel shorter than the 30 s minimum is short for a reason: either
    the surah has no further ayah, or the next ayah was fetched at the end of
    the last unit and would have ended, with the trailing buffer, after the
    maximum content duration. *)
Theorem short_reel_is_exhausted (start_ayah requested_end s e : Z) (r : reel) :
  validate_verse_range surah start_ayah requested_end = Returns (s, e) ->
  generate_reel fetch_single_ayah validate_verse_range ENABLE_INTRO_FRAME
    surah ayah_padding start_ayah requested_end = Some (Returns r) ->
  (reel_duration r < inject_Z MIN_REEL_DURATION_SECONDS)%Q ->
  let next := s + Z.of_nat (length (reel_units r)) in
  default e (VERSE_COUNTS !! surah) < next \/
  exists k d,
    fetch_single_ayah k surah next
      (starts_at (reel_units r) (length (reel_units r))) ayah_padding
    = Returns d /\
    (max_content_duration ENABLE_INTRO_FRAME < segment_end d + (1 # 2))%Q.
Proof.
  unfold generate_reel. intros Hv Hr Hshort. rewrite Hv in Hr.
  destruct (assemble _ _ _ _ _ _) as [[st|err]|] eqn:Ha; try discriminate.
  injection Hr as <-. cbn [reel_units reel_duration] in *.
  destruct (assemble_scheduled _ _ _ Ha) as [(Hcur & Hclock & _) (Hstop & _)].
  cbv zeta. rewrite <- Hcur, <- Hclock.
  destruct Hstop as [Hmin|[Hmax|Hfit]]; [|now left|now right].
  exfalso. unfold hard_cap in Hshort.
  pose proof (max_content_ge_min ENABLE_INTRO_FRAME) as Hge.
  destruct (Qltb (max_content_duration ENABLE_INTRO_FRAME) (total_duration st));
    lra.
Qed.

(** X16: the duration with the intro frame stays within the 59 s maximum:
    after STEP 7 [total_duration] is at most [MAX_REEL_DURATION_SECONDS],
    whether the intro frame is enabled or not and whether building it
    succeeds or raises. *)
Theorem duration_with_intro_bounded (start_ayah requested_end : Z) (r : reel)
    (intro : outcome unit) :
  generate_reel fetch_single_ayah validate_verse_range ENABLE_INTRO_FRAME
    surah ayah_padding start_ayah requested_end = Some (Returns r) ->
  (with_intro ENABLE_INTRO_FRAME intro (reel_duration r)
   <= inject_Z MAX_REEL_DURATION_SECONDS)%Q /\
  (reel_duration r <= with_intro ENABLE_INTRO_FRAME intro (reel_duration r))%Q.
Proof.
  unfold generate_reel. intros Hr.
  destruct (validate_verse_range _ _ _) as [[s e]|]; [|discriminate].
  destruct (assemble _ _ _ _ _ _) as [[st|err]|] eqn:Ha; try discriminate.
  injection Hr as <-. cbn [reel_duration].
  pose proof (hard_cap_le ENABLE_INTRO_FRAME (total_duration st)) as Hcap.
  pose proof (max_content_le_max ENABLE_INTRO_FRAME) as Hmax.
  unfold with_intro, max_content_duration, INTRO_DURATION in *.
  destruct ENABLE_INTRO_FRAME; [destruct intro|]; split; lra.
Qed.

(** X17: failures are not swallowed.  An exception of the range validation
    is raised by [generate_reel] as it is; a validated range that is empty
    makes it raise [IndexError]; and an exception of the first fetch, made
    for the start ayah at 0.1 s, is raised as it is. *)
Theorem failures_propagate (start_ayah requested_end : Z) :
  (forall x, validate_verse_range surah start_ayah requested_end = Raises x ->
     generate_reel fetch_single_ayah validate_verse_range ENABLE_INTRO_FRAME
    surah ayah_padding start_ayah requested_end = Some (Raises x)) /\
  (forall s e, validate_verse_range surah start_ayah requested_end = Returns (s, e) ->
     e < s -> generate_reel fetch_single_ayah validate_verse_range ENABLE_INTRO_FRAME
    surah ayah_padding start_ayah requested_end = Some (Raises IndexError)) /\
  (forall s e x,
     validate_verse_range surah start_ayah requested_end = Returns (s, e) ->
     s <= e ->
     fetch_single_ayah 0 surah s (1 # 10) ayah_padding = Raises x ->
     generate_reel fetch_single_ayah validate_verse_range ENABLE_INTRO_FRAME
    surah ayah_padding start_ayah requested_end = Some (Raises x)).
Proof.
  unfold generate_reel. split; [|split].
  - intros x ->. reflexivity.
  - intros s e -> Hlt. unfold assemble.
    destruct (Z.to_nat (e + 1 - s)); cbn [fetch_requested current_ayah];
      destruct (Z.leb_spec s e); try lia; reflexivity.
  - intros s e x -> Hle Hf. unfold assemble.
    destruct (Z.to_nat (e + 1 - s)) eqn:En; [lia|].
    cbn [fetch_requested current_ayah current_time calls].
    destruct (Z.leb_spec s e); [|lia]. now rewrite Hf.
Qed.

End Reel.

Lemma units_back_to_back_witness :
  exists r,
    generate_reel steady_fetch accept_range false 1 (48 # 100) 1 3
      = Some (Returns r) /\
    reel_units r <> [].
Proof.
  eexists. split; [vm_compute; reflexivity|].
  refine (proj1 (units_back_to_back steady_fetch accept_range false 1
                   (48 # 100) 1 3 _ _)).
  vm_compute. reflexivity.
Defined.

Lemma reported_range_matches_units_witness :
  exists r,
    generate_reel steady_fetch accept_range false 1 (48 # 100) 1 3
      = Some (Returns r) /\
    reel_end_ayah r = reel_start_ayah r + Z.of_nat (length (reel_units r)) - 1.
Proof.
  eexists. split; [vm_compute; reflexivity|].
  refine (proj1 (proj2 (reported_range_matches_units steady_fetch accept_range
                          false 1 (48 # 100) 1 3 _ _ _))).
  - intros k s a t p d H. unfold steady_fetch in H. injection H as <-. reflexivity.
  - vm_compute. reflexivity.
Defined.

Lemma short_reel_is_exhausted_witness :
  exists r,
    generate_reel brief_fetch accept_range false 108 (48 # 100) 1 2
      = Some (Returns r) /\
    (reel_duration r < inject_Z MIN_REEL_DURATION_SECONDS)%Q /\
    (default 2 (VERSE_COUNTS !! 108) < 1 + Z.of_nat (length (reel_units r)) \/
     exists k d,
       brief_fetch k 108 (1 + Z.of_nat (length (reel_units r)))
         (starts_at (reel_units r) (length (reel_units r))) (48 # 100)
       = Returns d /\
       (max_content_duration false < segment_end d + (1 # 2))%Q).
Proof.
  eexists. split; [vm_compute; reflexivity|].
  split; [vm_compute; reflexivity|].
  refine (short_reel_is_exhausted brief_fetch accept_range false 108 (48 # 100)
            1 2 1 2 _ _ _ _).
  - reflexivity.
  - vm_compute. reflexivity.
  - vm_compute. reflexivity.
Defined.

Lemma duration_with_intro_bounded_witness :
  exists r,
    generate_reel steady_fetch accept_range true 1 (48 # 100) 1 3
      = Some (Returns r) /\
    (with_intro true (Returns tt) (reel_duration r)
     <= inject_Z MAX_REEL_DURATION_SECONDS)%Q.
Proof.
  eexists. split; [vm_compute; reflexivity|].
  refine (proj1 (duration_with_intro_bounded steady_fetch accept_range true 1
                   (48 # 100) 1 3 _ (Returns tt) _)).
  vm_compute. reflexivity.
Defined.


End ScheduleProofs.

Module OverlayProofs.
Import Pages Translation Timeline TextLayout Overlay.
Import PyFacts StringFacts TranslationProofs TimelineProofs TextLayoutProofs.

Lemma lstrip_empty (s : string) :
  nonempty (lstrip s) = negb (all_space s).
Proof.
  induction s as [|c s IH]; [reflexivity|]. cbn [lstrip all_space].
  destruct (is_space c); [exact IH | reflexivity].
Qed.

Lemma rstrip_empty (s : string) :
  nonempty (rstrip s) = negb (all_space s).
Proof.
  induction s as [|c s IH]; [reflexivity|]. cbn [rstrip all_space].
  destruct (rstrip s) as [|c' r].
  - cbn in IH. apply (f_equal negb) in IH. rewrite negb_involutive in IH.
    rewrite <- IH. cbn. rewrite andb_true_r. now destruct (is_space c).
  - cbn in IH. symmetry in IH. apply negb_true_iff in IH. rewrite IH.
    now rewrite andb_false_r.
Qed.

Lemma all_space_lstrip (s : string) :
  all_space (lstrip s) = all_space s.
Proof.
  induction s as [|c s IH]; [reflexivity|]. cbn [lstrip all_space].
  destruct (is_space c) eqn:E; [exact IH|]. cbn [all_space]. now rewrite E.
Qed.

Lemma strip_empty (s : string) :
  nonempty (strip s) = negb (all_space s).
Proof. unfold strip. now rewrite rstrip_empty, all_space_lstrip. Qed.

Lemma split_aux_nil (s : string) : forall cur,
  split_aux cur s = [] <-> cur = EmptyString /\ all_space s = true.
Proof.
  induction s as [|c s IH]; intros cur; cbn [split_aux all_space].
  - destruct cur; cbn; split; try tauto; try discriminate.
    intros [H _]. discriminate.
  - destruct (is_space c); cbn [andb].
    + split.
      * intros H. apply app_eq_nil in H as [H1 H2].
        apply IH in H2 as [_ H2]. split; [|exact H2].
        destruct cur; [reflexivity | discriminate].
      * intros [-> H]. cbn. apply IH. now split.
    + rewrite IH. split; [|intros [_ H]; discriminate].
      intros [H _]. destruct cur; discriminate.
Qed.

Lemma split_nil (s : string) : split s = [] <-> all_space s = true.
Proof. unfold split. rewrite split_aux_nil. tauto. Qed.

(** A segment is skipped by the [strip] test exactly when it has no word. *)
Lemma strip_blank (s : string) :
  nonempty (strip s) = false <-> split s = [].
Proof.
  rewrite strip_empty, split_nil. destruct (all_space s); cbn; split; congruence.
Qed.

Lemma translation_loop_words (data_start : Q) (pages : list page) :
  forall segs,
  exists clips,
    translation_loop data_start (combine pages segs) = Returns clips /\
    shown_words clips = concat (map split (take (length pages) segs)) /\
    Forall (fun c => (1 # 10 <= clip_duration c)%Q /\
                     (1 <= length (clip_lines c) <= 3)%nat /\
                     concat (map split (clip_lines c)) <> []) clips /\
    (length clips <= length pages)%nat.
Proof.
  induction pages as [|pg pages IH]; intros segs.
  - exists []. cbn. repeat split; [constructor | lia].
  - destruct segs as [|seg segs].
    + exists []. cbn. repeat split; [constructor | lia].
    + destruct (IH segs) as (clips & Hrun & Hwords & Hall & Hlen).
      cbn [combine translation_loop length take map concat].
      destruct (nonempty (strip seg)) eqn:Hs; cbn [negb].
      * assert (Hne : split seg <> []).
        { intros E. apply strip_blank in E. congruence. }
        destruct (translation_lines_words seg Hne) as (lines & Hl & Hw & Hn).
        rewrite Hl, Hrun. cbn [bind].
        eexists. split; [reflexivity|]. split; [|split].
        -- unfold shown_words in *. cbn [map concat clip_lines].
           now rewrite Hw, Hwords.
        -- constructor; [|exact Hall]. cbn [clip_duration clip_lines].
           split; [|split; [exact Hn | now rewrite Hw]].
           destruct (Qltb (end_time pg - start_time pg) (1 # 10)) eqn:E;
             [apply Qle_refl | now apply Qltb_ge in E].
        -- cbn [length]. lia.
      * apply strip_blank in Hs. rewrite Hs. cbn [app].
        exists clips. split; [exact Hrun|]. split; [exact Hwords|].
        split; [exact Hall | lia].
Qed.

Lemma concat_split_join (chunks : list (list string)) :
  Forall wordlike (concat chunks) ->
  concat (map split (map (join " ") chunks)) = concat chunks.
Proof.
  induction chunks as [|c chunks IH]; intros H; [reflexivity|].
  cbn [concat map] in *. apply Forall_app in H as [Hc H].
  now rewrite split_join, IH.
Qed.

Lemma pages_nonempty (segs : list segment) (w : Z) (total : Q) (ps : Z) :
  segs <> [] -> ps <> 0 ->
  exists pages, compute_page_boundaries segs w total ps = Returns pages /\
    pages <> [].
Proof.
  intros Hs Hp. unfold compute_page_boundaries.
  destruct segs as [|s segs]; [congruence|].
  destruct (Z.eqb_spec ps 0); [contradiction|].
  eexists. split; [reflexivity|].
  intros E. apply (f_equal length) in E. rewrite length_map in E.
  unfold range in E. rewrite length_map, length_seq in E. cbn in E. lia.
Qed.

Lemma synced_overlays (page_size : Z) (data : ayah_text) :
  page_size <> 0 ->
  data_word_segments data <> [] ->
  data_word_texts data <> [] ->
  exists clips,
    translation_overlays page_size data = Returns clips /\
    shown_words clips = split (data_translation data) /\
    Forall (fun c => (1 # 10 <= clip_duration c)%Q /\
                     (1 <= length (clip_lines c) <= 3)%nat /\
                     concat (map split (clip_lines c)) <> []) clips.
Proof.
  intros Hps Hsegs Htexts. unfold translation_overlays.
  destruct (data_translation data) as [|c0 t0] eqn:Ht.
  { exists []. cbn. repeat split. constructor. }
  rewrite <- Ht. assert (Hne : nonempty (data_translation data) = true)
    by now rewrite Ht.
  rewrite Hne.
  destruct (data_word_segments data) as [|s0 segs0] eqn:Es; [congruence|].
  destruct (data_word_texts data) as [|w0 ws0] eqn:Ew; [congruence|].
  cbn [nonnil andb]. rewrite <- Es, <- Ew.
  assert (Hsorted : sorted (data_word_segments data) <> []).
  { intros E. assert (Hin : In s0 (sorted (data_word_segments data))).
    { apply sorted_In. rewrite Es. now left. }
    rewrite E in Hin. destruct Hin. }
  destruct (pages_nonempty _ (Z.of_nat (length (data_word_texts data)))
              (data_end_time data - data_start_time data)%Q page_size
              Hsorted Hps) as (pages & -> & Hpages).
  cbn [bind].
  set (segs := split_translation_by_pages (data_translation data) pages
                 (Z.of_nat (length (data_word_texts data)))).
  destruct (translation_loop_words (data_start_time data) pages segs)
    as (clips & Hrun & Hwords & Hall & _).
  exists clips. split; [exact Hrun|]. split; [|exact Hall].
  rewrite Hwords.
  destruct (Nat.le_gt_cases (length pages) 1) as [Hle|Hgt].
  - assert (Hone : length pages = 1%nat)
      by (destruct pages; [congruence | cbn in *; lia]).
    assert (Hsegs1 : segs = [data_translation data]).
    { unfold segs, split_translation_by_pages. rewrite Hne, Hone. reflexivity. }
    rewrite Hsegs1, Hone. cbn. now rewrite app_nil_r.
  - destruct (split_chunks (data_translation data) pages
                (Z.of_nat (length (data_word_texts data))) Hgt)
      as (chunks & Hseg & Hcat & Hlen).
    fold segs in Hseg. rewrite Hseg.
    rewrite take_ge by (rewrite length_map; lia).
    rewrite concat_split_join; [exact Hcat|].
    rewrite Hcat. apply split_wordlike.
Qed.

(** X18: translation overlays of an ayah with word timings.  With a page
    size other than 0 the branch does not raise; the words that its clips
    show, read clip after clip and line after line, are exactly the words of
    the translation; every clip lasts at least 0.1 s, has between one and
    three lines and shows at least one word. *)
Theorem synced_translation_shows_all_words (page_size : Z) (data : ayah_text) :
  page_size <> 0 ->
  data_word_segments data <> [] ->
  data_word_texts data <> [] ->
  exists clips,
    translation_overlays page_size data = Returns clips /\
    shown_words clips = split (data_translation data) /\
    Forall (fun c => (1 # 10 <= clip_duration c)%Q /\
                     (1 <= length (clip_lines c) <= 3)%nat /\
                     concat (map split (clip_lines c)) <> []) clips.
Proof. apply synced_overlays. Qed.

Lemma synced_translation_shows_all_words_witness :
  exists clips,
    translation_overlays 12
      (mkAyahText 0 13 "In the name of Allah the Merciful"
         Examples.sparse_segments Examples.fast_words) = Returns clips /\
    shown_words clips = split "In the name of Allah the Merciful".
Proof.
  assert (H1 : 12 <> 0) by lia.
  assert (H2 : Examples.sparse_segments <> []) by discriminate.
  assert (H3 : Examples.fast_words <> []) by discriminate.
  destruct (synced_translation_shows_all_words 12
              (mkAyahText 0 13 "In the name of Allah the Merciful"
                 Examples.sparse_segments Examples.fast_words) H1 H2 H3)
    as (clips & Hrun & Hwords & _).
  exists clips. split; [exact Hrun | exact Hwords].
Defined.

(** X19: where the translation branch raises.  With a page size of 0 and
    word timings present it raises [ZeroDivisionError]; without word timings
    a translation made of whitespace only raises [ValueError], while the same
    translation with word timings and a page size other than 0 gives no clip
    and no error. *)
Theorem translation_overlay_failures (data : ayah_text) :
  (data_translation data <> EmptyString ->
   data_word_segments data <> [] -> data_word_texts data <> [] ->
   translation_overlays 0 data = Raises ZeroDivisionError) /\
  (data_translation data <> EmptyString ->
   split (data_translation data) = [] ->
   (forall page_size,
    data_word_segments data = [] \/ data_word_texts data = [] ->
    exists msg, translation_overlays page_size data = Raises (ValueError msg)) /\
   (forall page_size, page_size <> 0 ->
    data_word_segments data <> [] -> data_word_texts data <> [] ->
    translation_overlays page_size data = Returns [])).
Proof.
  split.
  - intros Ht Hs Hw. unfold translation_overlays.
    destruct (data_translation data); [congruence|]. cbn [nonempty].
    destruct (data_word_segments data) as [|s0 segs0] eqn:Es; [congruence|].
    destruct (data_word_texts data); [congruence|]. cbn [nonnil andb].
    destruct (sorted (s0 :: segs0)) eqn:E.
    + assert (Hin : In s0 (sorted (s0 :: segs0))) by (apply sorted_In; now left).
      rewrite E in Hin. destruct Hin.
    + reflexivity.
  - intros Ht Hblank. split.
    + intros ps Hno. unfold translation_overlays.
      destruct (translation_lines_cases (data_translation data) 0)
        as (_ & Hval & _).
      destruct (Hval Ht Hblank) as [msg Hmsg].
      exists msg. rewrite Hmsg.
      destruct (data_translation data); [congruence|]. cbn [nonempty].
      destruct Hno as [-> | ->]; [reflexivity|].
      now rewrite andb_false_r.
    + intros ps Hps Hs Hw.
      destruct (synced_overlays ps data Hps Hs Hw)
        as (clips & Hrun & Hwords & Hall).
      rewrite Hrun. rewrite Hblank in Hwords.
      destruct clips as [|c clips]; [reflexivity|]. exfalso.
      apply Forall_cons in Hall as [(_ & _ & Hc) _].
      unfold shown_words in Hwords. cbn [map concat] in Hwords.
      apply app_eq_nil in Hwords as [Hw1 _]. contradiction.
Qed.

End OverlayProofs.

Module MediaProofs.
Import TextLayout Media TextLayoutProofs.

Lemma int_of_float_ge (x : Q) (z : Z) :
  0 <= z -> (inject_Z z <= x)%Q -> z <= int_of_float x.
Proof.
  unfold Qle, int_of_float. cbn [Qnum Qden inject_Z]. intros H0 Hz.
  rewrite Z.mul_1_r in Hz.
  rewrite Z.quot_div_nonneg by lia.
  apply Z.div_le_lower_bound; lia.
Qed.

(** The zoomed extent of a side of length [n]. *)
Lemma zoomed_side (n : Z) (zoom zoom_ratio : Q) :
  0 <= n -> (1 <= zoom)%Q -> (zoom <= zoom_ratio)%Q ->
  0 <= int_of_float (inject_Z n / zoom) <= n /\
  (1 <= n -> (zoom_ratio <= inject_Z n)%Q ->
   1 <= int_of_float (inject_Z n / zoom)).
Proof.
  intros Hn Hz Hr.
  assert (Hn' : (0 <= inject_Z n)%Q)
    by (change 0%Q with (inject_Z 0); now rewrite <- Zle_Qle).
  assert (Hpos : (0 < zoom)%Q) by lra.
  assert (Hq0 : (0 <= inject_Z n / zoom)%Q).
  { apply Qle_shift_div_l; [exact Hpos | lra]. }
  assert (Hq1 : (inject_Z n / zoom <= inject_Z n)%Q).
  { apply Qle_shift_div_r; [exact Hpos | nra]. }
  split.
  - split; [now apply int_of_float_nonneg | now apply int_of_float_le].
  - intros H1 Hw. apply int_of_float_ge; [lia|].
    apply Qle_shift_div_l; [exact Hpos|].
    change (inject_Z 1) with 1%Q. lra.
Qed.

Lemma centred (n m : Z) :
  0 <= m <= n ->
  let a := (n - m) / 2 in
  0 <= a /\ a + m <= n /\ 0 <= (n - (a + m)) - a <= 1.
Proof.
  intros H a. unfold a.
  pose proof (Z.div_mod (n - m) 2 ltac:(lia)).
  pose proof (Z.mod_pos_bound (n - m) 2 ltac:(lia)).
  pose proof (Z.div_pos (n - m) 2 ltac:(lia) ltac:(lia)).
  lia.
Qed.

(** X20: the Ken Burns crop box.  For a zoom ratio of at least 1 and a time
    within the clip, the crop box lies inside the frame and is centred, the
    two margins of a side differing by at most one pixel; at time 0 it is the
    whole frame; and it is not empty as long as the zoom ratio does not
    exceed the side. *)
Theorem ken_burns_box_inside (w h : Z) (duration zoom_ratio t : Q) :
  (0 < duration)%Q -> (0 <= t)%Q -> (t <= duration)%Q -> (1 <= zoom_ratio)%Q ->
  0 <= w -> 0 <= h ->
  let '(x1, y1, x2, y2) := zoom_box w h duration zoom_ratio t in
  (0 <= x1 /\ x1 <= x2 /\ x2 <= w) /\
  (0 <= y1 /\ y1 <= y2 /\ y2 <= h) /\
  0 <= (w - x2) - x1 <= 1 /\
  0 <= (h - y2) - y1 <= 1 /\
  ((t == 0)%Q -> (x1, y1, x2, y2) = (0, 0, w, h)) /\
  (1 <= w -> (zoom_ratio <= inject_Z w)%Q -> x1 < x2) /\
  (1 <= h -> (zoom_ratio <= inject_Z h)%Q -> y1 < y2).
Proof.
  intros Hd Ht0 Ht1 Hz Hw Hh. unfold zoom_box.
  set (zoom := (1 + (zoom_ratio - 1) * (t / duration))%Q).
  assert (Hp0 : (0 <= t / duration)%Q) by (apply Qle_shift_div_l; lra).
  assert (Hp1 : (t / duration <= 1)%Q) by (apply Qle_shift_div_r; lra).
  assert (Hz1 : (1 <= zoom)%Q) by (unfold zoom; nra).
  assert (Hz2 : (zoom <= zoom_ratio)%Q) by (unfold zoom; nra).
  destruct (zoomed_side w zoom zoom_ratio Hw Hz1 Hz2) as [Hnw Hnw1].
  destruct (zoomed_side h zoom zoom_ratio Hh Hz1 Hz2) as [Hnh Hnh1].
  set (new_w := int_of_float (inject_Z w / zoom)) in *.
  set (new_h := int_of_float (inject_Z h / zoom)) in *.
  pose proof (centred w new_w Hnw) as Hcw. cbv zeta in Hcw.
  pose proof (centred h new_h Hnh) as Hch. cbv zeta in Hch.
  split; [lia|]. split; [lia|]. split; [lia|]. split; [lia|].
  split; [|split].
  - intros E.
    assert (Hzoom : (zoom == 1)%Q).
    { unfold zoom. rewrite E. field. lra. }
    assert (Ew : new_w = w).
    { unfold new_w. apply int_of_float_Z. rewrite Hzoom. field. }
    assert (Eh : new_h = h).
    { unfold new_h. apply int_of_float_Z. rewrite Hzoom. field. }
    rewrite Ew, Eh, !Z.sub_diag. reflexivity.
  - intros H1 Hr. specialize (Hnw1 H1 Hr). lia.
  - intros H1 Hr. specialize (Hnh1 H1 Hr). lia.
Qed.

Lemma ken_burns_box_inside_witness :
  let '(x1, y1, x2, y2) := zoom_box 1080 1920 10 (108 # 100) 5 in
  (0 <= x1 /\ x1 <= x2 /\ x2 <= 1080) /\ (0 <= y1 /\ y1 <= y2 /\ y2 <= 1920).
Proof.
  assert (H1 : (0 < 10)%Q) by reflexivity.
  assert (H2 : (0 <= 5)%Q) by discriminate.
  assert (H3 : (5 <= 10)%Q) by discriminate.
  assert (H4 : (1 <= 108 # 100)%Q) by discriminate.
  assert (H5 : 0 <= 1080) by lia.
  assert (H6 : 0 <= 1920) by lia.
  pose proof (ken_burns_box_inside 1080 1920 10 (108 # 100) 5 H1 H2 H3 H4 H5 H6)
    as H.
  destruct (zoom_box 1080 1920 10 (108 # 100) 5) as [[[x1 y1] x2] y2].
  exact (conj (proj1 H) (proj1 (proj2 H))).
Defined.

Lemma sorted_head_last (ranges : list (Z * Z)) (first final : Z * Z) :
  Forall (fun r => fst r <= snd r) ranges ->
  StronglySorted (fun r1 r2 => snd r1 <= fst r2) ranges ->
  head ranges = Some first -> last ranges = Some final ->
  forall r, In r ranges -> fst first <= fst r /\ snd r <= snd final.
Proof.
  intros Hall Hs. revert first final.
  induction Hs as [|r0 rest Hs IH Hr0]; intros first final Hh Hl r Hin;
    [destruct Hin|].
  apply Forall_cons in Hall as [H0 Hall].
  cbn in Hh. injection Hh as <-.
  destruct rest as [|r1 rest'].
  - cbn in Hl. injection Hl as <-. destruct Hin as [<-|[]]. lia.
  - assert (Hl' : last (r1 :: rest') = Some final) by exact Hl.
    pose proof (IH Hall r1 final eq_refl Hl') as IH'.
    rewrite List.Forall_forall in Hr0.
    pose proof (Hr0 r1 (or_introl eq_refl)) as H01.
    pose proof (IH' r1 (or_introl eq_refl)) as [_ Hr1f].
    apply Forall_cons in Hall as [H1 _].
    destruct Hin as [<-|Hin].
    + lia.
    + destruct (IH' r Hin) as [Ha Hb].
      pose proof (Hr0 r Hin). lia.
Qed.

(** X21: silence trimming keeps all the sound.  When [detect_nonsilent]
    finds ranges (inside the audio and in order), the exported slice lies
    inside the audio, contains every non-silent range, and keeps at most
    50 ms before the first range and at most 100 ms after the last; when it
    finds none, nothing is exported. *)
Theorem trim_keeps_sound (audio_len : Z) (nonsilent : list (Z * Z)) :
  ordered_ranges audio_len nonsilent ->
  match trim_window audio_len nonsilent with
  | None => nonsilent = []
  | Some (start, end_) =>
    0 <= start /\ start <= end_ /\ end_ <= audio_len /\
    (forall r, In r nonsilent -> start <= fst r /\ snd r <= end_) /\
    exists first final,
      head nonsilent = Some first /\ last nonsilent = Some final /\
      fst first - 50 <= start /\ end_ <= snd final + 100
  end.
Proof.
  intros [Hall Hs]. unfold trim_window.
  destruct (head nonsilent) as [first|] eqn:Hh;
    [|destruct nonsilent; [reflexivity | discriminate]].
  destruct (last nonsilent) as [final|] eqn:Hl.
  2:{ destruct nonsilent; [discriminate|].
      apply last_None in Hl. discriminate. }
  assert (Hle : Forall (fun r : Z * Z => fst r <= snd r) nonsilent).
  { eapply Forall_impl; [exact Hall|]. cbn. intros r H. lia. }
  pose proof (sorted_head_last _ _ _ Hle Hs Hh Hl) as Hin.
  rewrite List.Forall_forall in Hall.
  assert (Hf : In first nonsilent).
  { destruct nonsilent; [discriminate|]. cbn in Hh. injection Hh as ->. now left. }
  assert (Hfin : In final nonsilent).
  { apply last_Some in Hl as [l' ->]. apply in_or_app. right. now left. }
  pose proof (Hall _ Hf). pose proof (Hall _ Hfin).
  pose proof (Hin _ Hf). pose proof (Hin _ Hfin).
  split; [lia|]. split; [lia|]. split; [lia|]. split.
  - intros r Hr. pose proof (Hin r Hr). pose proof (Hall r Hr). lia.
  - exists first, final. split; [reflexivity|]. split; [reflexivity|]. lia.
Qed.

Lemma trim_keeps_sound_witness :
  match trim_window 5000 [(30, 1200); (1500, 4950)] with
  | None => [(30, 1200); (1500, 4950)] = @nil (Z * Z)
  | Some (start, end_) =>
    0 <= start /\ start <= end_ /\ end_ <= 5000 /\
    (forall r, In r [(30, 1200); (1500, 4950)] -> start <= fst r /\ snd r <= end_) /\
    exists first final,
      head [(30, 1200); (1500, 4950)] = Some first /\
      last [(30, 1200); (1500, 4950)] = Some final /\
      fst first - 50 <= start /\ end_ <= snd final + 100
  end.
Proof.
  assert (H : ordered_ranges 5000 [(30, 1200); (1500, 4950)]).
  { split.
    - repeat constructor; cbn; lia.
    - repeat constructor; cbn; lia. }
  exact (trim_keeps_sound 5000 [(30, 1200); (1500, 4950)] H).
Defined.

End MediaProofs.

Module UploadProofs.
Import Upload TextLayoutProofs.

Section Metadata.
Context {char : Type} `{Countable char}.
Variable dot : char.
Variable lower : list char -> list char.

(** X22: the title fits YouTube's limit.  [generate_metadata] leaves a title
    of at most 100 characters as it is, and turns a longer one into exactly
    100 characters: its first 97 followed by three dots. *)
Theorem title_fits (title : list char) :
  (length (truncate_title dot title) <= 100)%nat /\
  ((length title <= 100)%nat -> truncate_title dot title = title) /\
  ((100 < length title)%nat ->
   length (truncate_title dot title) = 100%nat /\
   truncate_title dot title = take 97 title ++ [dot; dot; dot]).
Proof.
  unfold truncate_title.
  destruct (Z.ltb_spec 100 (Z.of_nat (length title))) as [Hlong|Hshort].
  - assert (Hs : slice title 0 97 = take 97 title).
    { change (slice title 0 97) with (slice title 0 (0 + Z.of_nat 97)).
      rewrite slice_take_drop by lia. now rewrite Nat2Z.id. }
    rewrite Hs, length_app, length_take. cbn [length].
    split; [lia|]. split; [lia|]. intros _. split; [lia | reflexivity].
  - split; [lia|]. split; [reflexivity | lia].
Qed.

(** Invariant of the tag loop. *)
Lemma tag_loop_inv (tags : list (list char)) : forall seen unique,
  (forall k, k ∈ seen <-> k ∈ map lower unique) ->
  NoDup (map lower unique) ->
  let '(seen', unique') := fold_left (tag_step lower) tags (seen, unique) in
  (forall k, k ∈ seen' <-> k ∈ map lower unique') /\
  NoDup (map lower unique') /\
  (exists kept, unique' = unique ++ kept /\ sublist kept tags) /\
  (forall t, t ∈ tags -> lower t ∈ map lower unique').
Proof.
  induction tags as [|tag tags IH]; intros seen unique Hseen Hnd; cbn [fold_left].
  - split; [exact Hseen|]. split; [exact Hnd|]. split.
    + exists []. split; [now rewrite app_nil_r | constructor].
    + intros t Ht. inversion Ht.
  - unfold tag_step at 2. destruct (decide (lower tag ∈ seen)) as [Hin|Hnin].
    + specialize (IH seen unique Hseen Hnd).
      destruct (fold_left _ tags (seen, unique)) as [seen' unique'].
      destruct IH as (H1 & H2 & (kept & Hk & Hsub) & H4).
      split; [exact H1|]. split; [exact H2|]. split.
      * exists kept. split; [exact Hk|]. now apply sublist_cons.
      * intros t Ht. apply elem_of_cons in Ht as [->|Ht]; [|now apply H4].
        apply Hseen in Hin. rewrite Hk, map_app.
        apply elem_of_app. now left.
    + assert (Hseen' : forall k, k ∈ {[lower tag]} ∪ seen
                                 <-> k ∈ map lower (unique ++ [tag])).
      { intros k. rewrite map_app, elem_of_app, elem_of_union, elem_of_singleton.
        cbn [map]. rewrite list_elem_of_singleton, Hseen. tauto. }
      assert (Hnd' : NoDup (map lower (unique ++ [tag]))).
      { rewrite map_app. cbn [map]. apply NoDup_app. split; [exact Hnd|].
        split; [|apply NoDup_singleton].
        intros k Hk Hk'. apply list_elem_of_singleton in Hk'. subst k.
        apply Hnin, Hseen, Hk. }
      specialize (IH _ _ Hseen' Hnd').
      destruct (fold_left _ tags _) as [seen' unique'].
      destruct IH as (H1 & H2 & (kept & Hk & Hsub) & H4).
      split; [exact H1|]. split; [exact H2|]. split.
      * exists (tag :: kept). split; [now rewrite Hk, <- app_assoc|].
        now apply sublist_skip.
      * intros t Ht. apply elem_of_cons in Ht as [->|Ht]; [|now apply H4].
        rewrite Hk, !map_app. apply elem_of_app. left.
        apply elem_of_app. right. cbn. apply list_elem_of_singleton. reflexivity.
Qed.

(** X23: the tags of the metadata.  No two of them are equal up to case;
    they are tags of the input, in the order of the input, and at most 500;
    and as long as fewer than 500 distinct tags are given, every input tag
    is there up to case. *)
Theorem tags_are_unique (tags : list (list char)) :
  NoDup (map lower (metadata_tags lower tags)) /\
  sublist (metadata_tags lower tags) tags /\
  (length (metadata_tags lower tags) <= 500)%nat /\
  ((length (unique_tags lower tags) <= 500)%nat ->
   forall t, t ∈ tags -> lower t ∈ map lower (metadata_tags lower tags)).
Proof.
  unfold metadata_tags, unique_tags.
  pose proof (tag_loop_inv tags ∅ []) as Hinv.
  destruct (fold_left (tag_step lower) tags (∅, [])) as [seen unique].
  destruct Hinv as (_ & Hnd & (kept & Hk & Hsub) & Hall).
  { intros k. cbn. split; intros Hk; [now apply elem_of_empty in Hk|].
    inversion Hk. }
  { constructor. }
  cbn [snd app] in *. subst kept.
  assert (Hs : slice unique 0 500 = take 500 unique).
  { change (slice unique 0 500) with (slice unique 0 (0 + Z.of_nat 500)).
    rewrite slice_take_drop by lia. now rewrite Nat2Z.id. }
  rewrite Hs.
  split; [|split; [|split]].
  - rewrite <- (take_drop 500 unique), map_app in Hnd.
    now apply NoDup_app in Hnd as [Hnd _].
  - etransitivity; [apply sublist_take | exact Hsub].
  - rewrite length_take. lia.
  - intros Hlen t Ht. rewrite take_ge by lia. now apply Hall.
Qed.

End Metadata.

Local Ltac case_leb :=
  repeat match goal with
         | |- context [?a <=? ?b] => destruct (Z.leb_spec a b)
         end; try reflexivity; try lia.

(** After transient events the loop goes on with the errors counted, unless
    they were more than the retries left. *)
Lemma retry_loop_budget {R} (pre rest : list (chunk_event R)) : forall retry,
  forallb transient pre = true ->
  0 <= retry <= MAX_RETRIES ->
  retry_loop (pre ++ rest) retry
  = if retry + errors pre <=? MAX_RETRIES
    then retry_loop rest (retry + errors pre)
    else Some MaxRetriesExceeded.
Proof.
  unfold errors, MAX_RETRIES.
  induction pre as [|ev pre IH]; intros retry Hpre Hretry.
  - cbn [app List.filter length]. change (Z.of_nat 0) with 0.
    rewrite Z.add_0_r. case_leb.
  - cbn [forallb] in Hpre. apply andb_true_iff in Hpre as [Hev Hpre].
    cbn [app retry_loop List.filter].
    assert (Hstep : forall k : Z, 0 <= k <= 5 ->
      match _handle_retry k with
      | Some k' => retry_loop (pre ++ rest) k'
      | None => Some MaxRetriesExceeded
      end
      = if k + Z.of_nat (S (length (List.filter is_error pre))) <=? 5
        then retry_loop rest (k + Z.of_nat (S (length (List.filter is_error pre))))
        else Some MaxRetriesExceeded).
    { intros k Hk. unfold _handle_retry, MAX_RETRIES.
      destruct (Z.leb_spec 5 k).
      - case_leb.
      - rewrite IH by (try assumption; lia). rewrite Nat2Z.inj_succ.
        replace (k + 1 + Z.of_nat (length (List.filter is_error pre)))
          with (k + Z.succ (Z.of_nat (length (List.filter is_error pre)))) by lia.
        reflexivity. }
    destruct ev as [[r'|]|status| |]; cbn [transient is_error] in *;
      try discriminate.
    + now apply IH.
    + rewrite Hev. cbn [length]. now apply Hstep.
    + cbn [length]. now apply Hstep.
Qed.

(** X24: the retry budget of an upload.  When the chunks before the final
    response meet only transient errors (HTTP 500, 502, 503, 504 and
    exceptions of [RETRIABLE_EXCEPTIONS]), the upload returns the response if
    there were at most five such errors in total, and raises
    [YouTubeUploadError] for the retries otherwise: chunks that succeed in
    between do not reset the count.  Any other HTTP status ends the upload
    at once. *)
Theorem retry_budget {R} (pre : list (chunk_event R)) (r : R)
    (post : list (chunk_event R)) :
  forallb transient pre = true ->
  _execute_with_retry (pre ++ Chunk (Some r) :: post)
  = (if errors pre <=? MAX_RETRIES then Some (Response r)
     else Some MaxRetriesExceeded) /\
  forall status,
    existsb (Z.eqb status) RETRIABLE_STATUS_CODES = false ->
    _execute_with_retry (pre ++ HttpError status :: post)
    = if errors pre <=? MAX_RETRIES then Some (HttpFailure status)
      else Some MaxRetriesExceeded.
Proof.
  intros Hpre. unfold _execute_with_retry. split; [|intros status Hs];
    rewrite retry_loop_budget by (try assumption; unfold MAX_RETRIES; lia);
    rewrite Z.add_0_l; cbn [retry_loop]; [|rewrite Hs]; reflexivity.
Qed.

Lemma retry_budget_witness :
  _execute_with_retry
    ([Chunk None; HttpError 503; Chunk None; @RetriableException nat]
     ++ Chunk (Some 7%nat) :: [])
  = Some (Response 7%nat).
Proof.
  assert (H : forallb transient
                [Chunk None; HttpError 503; Chunk None; @RetriableException nat]
              = true) by reflexivity.
  exact (proj1 (retry_budget
                  [Chunk None; HttpError 503; Chunk None; RetriableException]
                  7%nat [] H)).
Defined.

End UploadProofs.

Module AutoProofs.
Import Auto.

Section Loop.
Variable V : Type.
Variable world : nat -> attempt V.

Local Abbreviation replied := (Auto.replied V world).
Local Abbreviation loop_inv := (Auto.loop_inv V world).
Local Abbreviation consented := (Auto.consented V world).

Lemma replied_unique (n : nat) (a b : approval) :
  replied n a -> replied n b -> a = b.
Proof. intros (_ & _ & Ha) (_ & _ & Hb). congruence. Qed.

Lemma inv_regenerate attempt last removed v :
  loop_inv attempt last removed ->
  gen_result (world (S attempt)) = Some v ->
  replied (S attempt) regenerate ->
  loop_inv (S attempt) (Some (S attempt, v)) (removed ++ [S attempt]).
Proof.
  intros (Hprev & Hrem & Hreg & _) Hg Hr. split; [|split; [|split]].
  - intros k Hk. destruct (Nat.eq_dec k (S attempt)) as [->|Hne];
      [now left | apply Hprev; lia].
  - intros k Hk. apply in_app_or in Hk as [Hk|[<-|[]]].
    + destruct (Hrem k Hk). split; [lia | assumption].
    + split; [lia | exact Hr].
  - intros k Hk Hrk. apply in_or_app.
    destruct (Nat.eq_dec k (S attempt)) as [->|Hne]; [right; now left|].
    left. apply Hreg; [lia | exact Hrk].
  - split; [reflexivity|]. split; [lia | exact Hg].
Qed.

Lemma inv_other attempt last removed v s :
  loop_inv attempt last removed ->
  gen_result (world (S attempt)) = Some v ->
  replied (S attempt) (other_reply s) ->
  loop_inv (S attempt) (Some (S attempt, v)) removed.
Proof.
  intros (Hprev & Hrem & Hreg & _) Hg Hr. split; [|split; [|split]].
  - intros k Hk. destruct (Nat.eq_dec k (S attempt)) as [->|Hne];
      [right; now exists s | apply Hprev; lia].
  - intros k Hk. destruct (Hrem k Hk). split; [lia | assumption].
  - intros k Hk Hrk. destruct (Nat.eq_dec k (S attempt)) as [->|Hne].
    + pose proof (replied_unique _ _ _ Hr Hrk). discriminate.
    + apply Hreg; [lia | exact Hrk].
  - split; [reflexivity|]. split; [lia | exact Hg].
Qed.

(** Leaving the loop for the upload in pass [S attempt]. *)
Lemma break_consented attempt last removed v :
  (S attempt <= 3)%nat ->
  loop_inv attempt last removed ->
  gen_result (world (S attempt)) = Some v ->
  ~ replied (S attempt) rejected -> ~ replied (S attempt) timeout ->
  ~ replied (S attempt) regenerate ->
  consented (ToUpload (S attempt) v removed).
Proof.
  intros Hle (Hprev & Hrem & _ & _) Hg Hrej Htime Hreg. cbn [Auto.consented].
  split; [lia|]. split; [exact Hg|]. split; [exact Hrej|]. split; [exact Htime|].
  split.
  - intros k Hk1 Hk2. apply Hprev. lia.
  - split.
    + intros Hin. destruct (Hrem _ Hin). lia.
    + intros [E Hr]. rewrite E in Hreg. contradiction.
Qed.

Lemma loop_consented (passes : nat) : forall attempt last removed,
  (attempt + passes = 3)%nat ->
  loop_inv attempt last removed ->
  consented (approval_loop V world passes attempt last removed).
Proof.
  induction passes as [|passes IH]; intros attempt last removed Hsum Hinv.
  - cbn [approval_loop]. assert (attempt = 3%nat) as -> by lia.
    destruct Hinv as (Hprev & Hrem & Hreg & Hlast).
    destruct last as [[n v]|]; [|discriminate].
    destruct Hlast as (-> & _ & Hg). cbn [Auto.consented].
    pose proof (Hprev 3%nat ltac:(lia)) as H3.
    split; [lia|]. split; [exact Hg|]. split; [|split; [|split]].
    + intros Hr. destruct H3 as [H3|[s H3]];
        pose proof (replied_unique _ _ _ Hr H3); discriminate.
    + intros Hr. destruct H3 as [H3|[s H3]];
        pose proof (replied_unique _ _ _ Hr H3); discriminate.
    + intros k Hk1 Hk2. apply Hprev. lia.
    + split.
      * intros Hin. split; [reflexivity|]. now destruct (Hrem _ Hin).
      * intros [_ Hr]. apply Hreg; [lia | exact Hr].
  - cbn [approval_loop].
    assert (Hle : (S attempt <= 3)%nat) by lia.
    destruct (gen_result (world (S attempt))) as [v|] eqn:Hg.
    2:{ cbn [Auto.consented]. exists (S attempt). split; [lia | now left]. }
    destruct (approval_required (world (S attempt))) eqn:Ha.
    2:{ apply (break_consented _ last); try assumption;
          intros (Hx & _); congruence. }
    destruct (message_sent (world (S attempt))) eqn:Hm.
    2:{ apply (break_consented _ last); try assumption;
          intros (_ & Hx & _); congruence. }
    destruct (reply (world (S attempt))) as [| | | | |s] eqn:Hr.
    + apply (break_consented _ last); try assumption;
        intros (_ & _ & Hx); congruence.
    + apply (break_consented _ last); try assumption;
        intros (_ & _ & Hx); congruence.
    + cbn [Auto.consented]. exists (S attempt). split; [lia|]. right.
      split; [now repeat split|]. apply in_or_app. right. now left.
    + apply IH; [lia|]. apply (inv_regenerate _ last); try assumption.
      now repeat split.
    + cbn [Auto.consented]. split; [lia|]. split; [exact Hg|].
      split; [now repeat split|].
      intros Hin. destruct Hinv as (_ & Hrem & _). destruct (Hrem _ Hin). lia.
    + apply IH; [lia|]. apply (inv_other _ last _ _ s); try assumption.
      now repeat split.
Qed.

(** X25: what [cmd_auto] uploads.  The loop generates at most three videos.
    It goes on to the upload only with the video of the last attempt made,
    whose reply, if one was asked for and received, was neither "rejected"
    nor "timeout", every earlier reply having been "regenerate" or a reply
    that is not understood; after "rejected" nothing is uploaded and the
    video is removed, after "timeout" nothing is uploaded.  The video handed
    to the upload has been removed from disk exactly when the third reply
    was "regenerate". *)
Theorem upload_needs_consent :
  match cmd_auto_loop V world with
  | ToUpload n v removed =>
    (1 <= n <= 3)%nat /\
    gen_result (world n) = Some v /\
    ~ Auto.replied V world n rejected /\ ~ Auto.replied V world n timeout /\
    (forall k, (k < n)%nat -> (1 <= k)%nat ->
       Auto.replied V world k regenerate \/
       exists s, Auto.replied V world k (other_reply s)) /\
    (In n removed <-> n = 3%nat /\ Auto.replied V world 3 regenerate)
  | ReturnLocal n v removed =>
    (1 <= n <= 3)%nat /\ gen_result (world n) = Some v /\
    Auto.replied V world n timeout /\ ~ In n removed
  | ReturnNone removed =>
    exists n, (1 <= n <= 3)%nat /\
      (gen_result (world n) = None \/
       (Auto.replied V world n rejected /\ In n removed))
  | Unbound => False
  end.
Proof.
  change (consented (cmd_auto_loop V world)).
  unfold cmd_auto_loop, max_attempts. apply loop_consented; [reflexivity|].
  split; [|split; [|split]]; try reflexivity.
  - intros k Hk. lia.
  - intros k [].
  - intros k Hk. lia.
Qed.

End Loop.

End AutoProofs.

Module SettingsProofs.
Import Settings.

Lemma first_with_key_None (key : string) (t : table) :
  first_with_key key t = None <-> ~ In key (keys t).
Proof.
  induction t as [|[k v] t IH]; cbn [first_with_key keys map fst In].
  - tauto.
  - destruct (String.eqb_spec k key) as [->|Hne].
    + split; [discriminate | intros H; exfalso; apply H; now left].
    + rewrite IH. unfold keys. tauto.
Qed.

Lemma first_with_key_app (key : string) (t : table) (r : row) :
  first_with_key key (t ++ [r])
  = match first_with_key key t with
    | Some x => Some x
    | None => if String.eqb (fst r) key then Some r else None
    end.
Proof.
  induction t as [|[k v] t IH]; cbn [app first_with_key fst]; [reflexivity|].
  destruct (String.eqb k key); [reflexivity | exact IH].
Qed.

Local Ltac case_eqb :=
  repeat match goal with
         | |- context [String.eqb ?a ?b] =>
           destruct (String.eqb_spec a b); subst; try congruence
         end.

Lemma first_with_key_update (key key' value : string) (t : table) :
  first_with_key key' (update_first key value t)
  = if String.eqb key key'
    then option_map (fun _ => (key, Some value)) (first_with_key key t)
    else first_with_key key' t.
Proof.
  induction t as [|[k v] t IH]; cbn [update_first first_with_key fst option_map].
  - now destruct (String.eqb key key').
  - destruct (String.eqb_spec k key) as [Hk|Hk]; cbn [first_with_key fst].
    + subst k. case_eqb; reflexivity.
    + rewrite IH. case_eqb; reflexivity.
Qed.

Lemma keys_update (key value : string) (t : table) :
  keys (update_first key value t) = keys t.
Proof.
  unfold keys. induction t as [|[k v] t IH]; cbn [update_first map fst];
    [reflexivity|].
  destruct (String.eqb k key); cbn [map fst]; [reflexivity | now rewrite IH].
Qed.

(** X26: the settings table is a map.  After [set_setting key value],
    [get_setting key] returns the value whatever the default, every other
    key reads as before, the keys stay unique, and the table grows by one
    row exactly when the key was new; writing a key again replaces what was
    written before. *)
Theorem settings_round_trip (t : table) (key value : string) :
  (forall default, get_setting (set_setting t key value) key default = Some value) /\
  (forall key' default, key' <> key ->
     get_setting (set_setting t key value) key' default
     = get_setting t key' default) /\
  (NoDup (keys t) -> NoDup (keys (set_setting t key value))) /\
  (In key (keys t) -> length (set_setting t key value) = length t) /\
  (~ In key (keys t) -> length (set_setting t key value) = S (length t)) /\
  (forall value',
     set_setting (set_setting t key value) key value'
     = set_setting t key value').
Proof.
  unfold get_setting, set_setting.
  destruct (first_with_key key t) as [r|] eqn:Hf.
  - assert (Hin : In key (keys t)).
    { destruct (in_dec string_dec key (keys t)) as [H|H]; [exact H|].
      apply first_with_key_None in H. congruence. }
    split; [|split; [|split; [|split; [|split]]]].
    + intros d. rewrite first_with_key_update, String.eqb_refl, Hf. reflexivity.
    + intros k' d Hne. rewrite first_with_key_update.
      destruct (String.eqb_spec key k'); [congruence | reflexivity].
    + now rewrite keys_update.
    + intros _. clear. induction t as [|[k v] t IH]; [reflexivity|].
      cbn [update_first fst]. destruct (String.eqb k key); cbn [length];
        [reflexivity | now rewrite IH].
    + intros Hn. contradiction.
    + intros v'. rewrite first_with_key_update, String.eqb_refl, Hf.
      cbn [option_map]. clear. induction t as [|[k v] t IH]; [reflexivity|].
      cbn [update_first fst]. destruct (String.eqb_spec k key) as [->|Hne].
      * cbn [update_first fst]. now rewrite String.eqb_refl.
      * cbn [update_first fst]. destruct (String.eqb_spec k key); [contradiction|].
        now rewrite IH.
  - pose proof (proj1 (first_with_key_None key t) Hf) as Hnin.
    split; [|split; [|split; [|split; [|split]]]].
    + intros d. rewrite first_with_key_app, Hf. cbn [fst].
      now rewrite String.eqb_refl.
    + intros k' d Hne. rewrite first_with_key_app. cbn [fst].
      destruct (first_with_key k' t); [reflexivity|].
      destruct (String.eqb_spec key k'); [congruence | reflexivity].
    + intros Hnd. unfold keys. rewrite map_app. cbn [map fst].
      apply NoDup_app. split; [exact Hnd|]. split; [|apply NoDup_singleton].
      intros k Hk Hk'. apply list_elem_of_singleton in Hk'. subst k.
      apply Hnin. now apply list_elem_of_In.
    + intros Hi. contradiction.
    + intros _. rewrite length_app. cbn. lia.
    + intros v'. rewrite first_with_key_app, Hf. cbn [fst].
      rewrite String.eqb_refl.
      clear Hf. induction t as [|[k v] t IH]; cbn [app update_first fst].
      * now rewrite String.eqb_refl.
      * destruct (String.eqb_spec k key) as [->|Hne].
        -- exfalso. apply Hnin. now left.
        -- f_equal. apply IH. intros H. apply Hnin. now right.
Qed.

End SettingsProofs.

Module FileNameProofs.
Import Overlay FileName StringFacts OverlayProofs.

(** A character of a number: a digit is not a separator, not a sign and not
    whitespace. *)
Lemma digit_char_spec (d : Z) :
  0 <= d < 10 ->
  is_digit (digit_char d) = true /\ digit_value (digit_char d) = d.
Proof.
  intros H.
  assert (d = 0 \/ d = 1 \/ d = 2 \/ d = 3 \/ d = 4 \/ d = 5 \/ d = 6 \/ d = 7
          \/ d = 8 \/ d = 9) as Hd by lia.
  repeat (destruct Hd as [->|Hd]; [split; reflexivity|]).
  subst d. split; reflexivity.
Qed.

Lemma is_digit_plain (c : ascii) :
  is_digit c = true ->
  Ascii.eqb c "_" = false /\ Ascii.eqb c "-" = false /\ is_space c = false.
Proof.
  unfold is_digit, is_space. intros H.
  apply andb_true_iff in H as [H1 H2].
  apply N.leb_le in H1. apply N.leb_le in H2.
  repeat split.
  - apply Ascii.eqb_neq. intros ->. vm_compute in H2. congruence.
  - apply Ascii.eqb_neq. intros ->. vm_compute in H1. congruence.
  - repeat match goal with
           | |- context [(?a <=? ?b)%N] => destruct (N.leb_spec a b)
           | |- context [(?a =? ?b)%N] => destruct (N.eqb_spec a b)
           end; try reflexivity; lia.
Qed.

Lemma all_digits_append (s1 s2 : string) :
  all_digits (String.append s1 s2) = all_digits s1 && all_digits s2.
Proof.
  induction s1 as [|c s1 IH]; [reflexivity|].
  rewrite append_cons. cbn [all_digits]. now rewrite IH, andb_assoc.
Qed.

Lemma horner_append (s1 s2 : string) : forall acc,
  horner acc (String.append s1 s2) = horner (horner acc s1) s2.
Proof.
  induction s1 as [|c s1 IH]; intros acc; [reflexivity|].
  rewrite append_cons. cbn [horner]. apply IH.
Qed.

Lemma digits_spec (fuel : nat) : forall n,
  0 <= n -> (Z.to_nat n < fuel)%nat ->
  all_digits (digits fuel n) = true /\
  digits fuel n <> EmptyString /\
  horner 0 (digits fuel n) = n.
Proof.
  induction fuel as [|fuel IH]; intros n Hn Hf; [lia|].
  cbn [digits]. destruct (Z.ltb_spec n 10) as [Hlt|Hge].
  - destruct (digit_char_spec n ltac:(lia)) as [Hd Hv].
    cbn [all_digits horner]. rewrite Hd, Hv.
    split; [reflexivity|]. split; [discriminate | lia].
  - pose proof (Z.div_mod n 10 ltac:(lia)) as Hdm.
    pose proof (Z.mod_pos_bound n 10 ltac:(lia)) as Hm.
    assert (Hq : 0 <= n / 10) by (apply Z.div_pos; lia).
    assert (Hq' : n / 10 < n) by (apply Z.div_lt; lia).
    destruct (IH (n / 10) Hq ltac:(lia)) as (Ha & Hne & Hh).
    destruct (digit_char_spec (n mod 10) Hm) as [Hd Hv].
    rewrite all_digits_append, horner_append, Ha, Hh.
    cbn [all_digits horner]. rewrite Hd, Hv.
    split; [reflexivity|]. split; [|lia].
    destruct (digits fuel (n / 10)); [congruence|]. rewrite append_cons.
    discriminate.
Qed.

Lemma int_digits_all (s : string) : forall acc after_digit rest,
  all_digits s = true ->
  int_digits acc after_digit (String.append s rest)
  = int_digits (horner acc s) (after_digit || nonempty s) rest.
Proof.
  induction s as [|c s IH]; intros acc p rest Hs.
  - rewrite append_nil. cbn. now rewrite orb_false_r.
  - cbn [all_digits] in Hs. apply andb_true_iff in Hs as [Hc Hs].
    rewrite append_cons. cbn [int_digits horner nonempty]. rewrite Hc.
    rewrite IH by exact Hs. now rewrite orb_true_r.
Qed.

Lemma all_digits_no_space (s : string) :
  all_digits s = true -> no_space s = true.
Proof.
  induction s as [|c s IH]; [reflexivity|]. cbn [all_digits no_space].
  intros H. apply andb_true_iff in H as [Hc Hs].
  destruct (is_digit_plain c Hc) as (_ & _ & ->). cbn. now apply IH.
Qed.

Lemma all_digits_contains (s : string) (c : ascii) :
  all_digits s = true -> is_digit c = false -> contains c s = false.
Proof.
  intros Hs Hc. induction s as [|c' s IH]; [reflexivity|].
  cbn [all_digits contains] in *. apply andb_true_iff in Hs as [Hc' Hs].
  rewrite (IH Hs), orb_false_r. apply Ascii.eqb_neq. intros ->. congruence.
Qed.

Lemma lstrip_no_space (s : string) : no_space s = true -> lstrip s = s.
Proof.
  destruct s as [|c s]; [reflexivity|]. cbn [no_space lstrip].
  intros H. apply andb_true_iff in H as [Hc _].
  apply negb_true_iff in Hc. now rewrite Hc.
Qed.

Lemma rstrip_no_space (s : string) : no_space s = true -> rstrip s = s.
Proof.
  induction s as [|c s IH]; [reflexivity|]. cbn [no_space rstrip].
  intros H. apply andb_true_iff in H as [Hc Hs].
  apply negb_true_iff in Hc. rewrite (IH Hs), Hc. now destruct s.
Qed.

Lemma strip_no_space (s : string) : no_space s = true -> strip s = s.
Proof.
  intros H. unfold strip. now rewrite lstrip_no_space, rstrip_no_space.
Qed.

(** [int(str(n)) == n] *)
Lemma int_of_str_of_int (n : Z) : int_of_str (str_of_int n) = Returns n.
Proof.
  unfold int_of_str, str_of_int. destruct (Z.ltb_spec n 0) as [Hneg|Hpos].
  - destruct (digits_spec (S (Z.to_nat (- n))) (- n) ltac:(lia) ltac:(lia))
      as (Ha & Hne & Hh).
    rewrite strip_no_space.
    2:{ cbn [no_space]. rewrite (all_digits_no_space _ Ha). reflexivity. }
    rewrite <- (append_empty_r (digits _ _)).
    rewrite int_digits_all by exact Ha. rewrite Hh. cbn [orb].
    destruct (digits _ _); [congruence|]. cbn. f_equal. lia.
  - destruct (digits_spec (S (Z.to_nat n)) n ltac:(lia) ltac:(lia))
      as (Ha & Hne & Hh).
    rewrite strip_no_space by now apply all_digits_no_space.
    destruct (digits (S (Z.to_nat n)) n) as [|c s] eqn:E; [congruence|].
    assert (Hc : is_digit c = true).
    { cbn [all_digits] in Ha. now apply andb_true_iff in Ha as [Hc _]. }
    destruct (is_digit_plain c Hc) as (_ & Hminus & _).
    assert (Hplus : Ascii.eqb c "+" = false).
    { apply Ascii.eqb_neq. intros ->. discriminate. }
    assert (Hbody : (let '(negative, body) :=
                       match String c s with
                       | String "-" body => (true, body)
                       | String "+" body => (false, body)
                       | _ => (false, String c s)
                       end in
                     match int_digits 0 false body with
                     | Some n0 => Returns (if negative then - n0 else n0)
                     | None => Raises (ValueError "invalid literal for int() with base 10")
                     end)
                    = match int_digits 0 false (String c s) with
                      | Some n0 => Returns n0
                      | None => Raises (ValueError "invalid literal for int() with base 10")
                      end).
    { apply Ascii.eqb_neq in Hminus, Hplus.
      destruct c as [[] [] [] [] [] [] [] []]; try reflexivity; congruence. }
    rewrite Hbody. rewrite <- (append_empty_r (String c s)).
    rewrite int_digits_all by exact Ha. rewrite Hh. reflexivity.
Qed.

Lemma contains_append (c : ascii) (s1 s2 : string) :
  contains c (String.append s1 s2) = contains c s1 || contains c s2.
Proof.
  induction s1 as [|c' s1 IH]; [reflexivity|].
  rewrite append_cons. cbn [contains]. now rewrite IH, orb_assoc.
Qed.

Lemma str_of_int_plain (n : Z) :
  contains "_" (str_of_int n) = false /\
  (0 <= n -> contains "-" (str_of_int n) = false).
Proof.
  unfold str_of_int. destruct (Z.ltb_spec n 0) as [Hneg|Hpos].
  - destruct (digits_spec (S (Z.to_nat (- n))) (- n) ltac:(lia) ltac:(lia))
      as (Ha & _). split; [|lia].
    cbn [contains]. now rewrite (all_digits_contains _ "_" Ha).
  - destruct (digits_spec (S (Z.to_nat n)) n ltac:(lia) ltac:(lia))
      as (Ha & _).
    split; [|intros _]; now apply all_digits_contains.
Qed.

(** Splitting at the first separator. *)
Lemma sep_split_aux_field (sep : ascii) (field : string) : forall cur rest,
  contains sep field = false ->
  sep_split_aux sep cur (String.append field (String sep rest))
  = String.append cur field :: sep_split_aux sep EmptyString rest.
Proof.
  induction field as [|c field IH]; intros cur rest Hf.
  - rewrite append_nil, append_empty_r. cbn [sep_split_aux].
    now rewrite Ascii.eqb_refl.
  - cbn [contains] in Hf. apply orb_false_iff in Hf as [Hc Hf].
    rewrite append_cons. cbn [sep_split_aux]. rewrite Hc.
    rewrite IH by exact Hf. f_equal.
    now rewrite append_assoc, append_cons, append_nil.
Qed.

Lemma sep_split_aux_last (sep : ascii) (field : string) : forall cur,
  contains sep field = false ->
  sep_split_aux sep cur field = [String.append cur field].
Proof.
  induction field as [|c field IH]; intros cur Hf.
  - now rewrite append_empty_r.
  - cbn [contains] in Hf. apply orb_false_iff in Hf as [Hc Hf].
    cbn [sep_split_aux]. rewrite Hc. rewrite IH by exact Hf.
    now rewrite append_assoc, append_cons, append_nil.
Qed.

Lemma parse_verse_range_spec (start_ayah end_ayah : Z) :
  0 <= start_ayah -> 0 <= end_ayah ->
  parse_verse_range (verse_range start_ayah end_ayah)
  = Returns (start_ayah, end_ayah).
Proof.
  intros Hs He. unfold parse_verse_range, verse_range.
  destruct (str_of_int_plain start_ayah) as [_ Hs'].
  destruct (str_of_int_plain end_ayah) as [_ He'].
  destruct (Z.eqb_spec start_ayah end_ayah) as [->|Hne].
  - rewrite (He' He), int_of_str_of_int. reflexivity.
  - rewrite contains_append. cbn [contains]. rewrite Ascii.eqb_refl.
    rewrite orb_true_r. unfold sep_split.
    rewrite sep_split_aux_field by now apply Hs'.
    rewrite sep_split_aux_last by now apply He'.
    rewrite !append_nil, !int_of_str_of_int. reflexivity.
Qed.

(** X27: the file name is read back.  For a surah name without underscore
    and verse numbers that are not negative, the stem that [generate_reel]
    writes is parsed by [cmd_tiktok] into the same surah number, surah name
    and verse range, whatever the time stamp. *)
Theorem file_name_round_trip (surah : Z) (surah_name : string)
    (start_ayah end_ayah : Z) (timestamp : string) :
  contains "_" surah_name = false ->
  0 <= start_ayah -> 0 <= end_ayah ->
  parse_stem (reel_stem surah surah_name start_ayah end_ayah timestamp)
  = Returns (surah, surah_name, start_ayah, end_ayah).
Proof.
  intros Hname Hs He. unfold parse_stem, reel_stem, sep_split.
  change (String.append "QuranReel_" ?x)
    with (String.append "QuranReel" (String "_" x)).
  rewrite sep_split_aux_field by reflexivity.
  rewrite sep_split_aux_field by apply str_of_int_plain.
  rewrite sep_split_aux_field by exact Hname.
  assert (Hrange : contains "_" (verse_range start_ayah end_ayah) = false).
  { unfold verse_range. destruct (start_ayah =? end_ayah).
    - apply str_of_int_plain.
    - rewrite contains_append. cbn [contains].
      rewrite (proj1 (str_of_int_plain start_ayah)).
      rewrite (proj1 (str_of_int_plain end_ayah)). reflexivity. }
  rewrite sep_split_aux_field by exact Hrange.
  rewrite !append_nil. unfold index. cbn [lookup list_lookup bind].
  rewrite int_of_str_of_int. cbn [bind].
  rewrite parse_verse_range_spec by assumption. reflexivity.
Qed.

Lemma file_name_round_trip_witness :
  parse_stem (reel_stem 18 "Al-Kahf" 1 10 "20240105_120000")
  = Returns (18, "Al-Kahf"%string, 1, 10).
Proof.
  assert (H1 : contains "_" "Al-Kahf" = false) by reflexivity.
  assert (H2 : 0 <= 1) by lia.
  assert (H3 : 0 <= 10) by lia.
  exact (file_name_round_trip 18 "Al-Kahf" 1 10 "20240105_120000" H1 H2 H3).
Defined.

End FileNameProofs.
